(** * Snake: the game-state core of [snake.py]

    A shallow embedding of the state machine inside [main] together with
    [create_initial_snake] and [random_food_position].  Python integers are
    unbounded, so they are modelled by [Z]; cells and direction vectors are
    pairs of integers, the snake is a list of cells with the head first.

    Rendering, fonts and sound are external effects that never feed back
    into the variables of [main].  Of the drawing code the integer part is
    modelled: what is drawn for the snake, the food and the grid lines, the
    font-size loop of the HUD, and [wrap_text_to_width]; shading in
    floating point and the synthesis of sounds are left out.  The three sources of
    input are explicit arguments: the clock reading of a frame, the list of
    events polled in that frame, and the stream of raw values behind
    [random.randint]. *)

From Stdlib Require Import ZArith List Bool Lia Ascii String.
Import ListNotations.
Local Open Scope Z_scope.

(** ** Exceptions and results *)

Inductive exn : Type :=
| ValueError
| IndexError
| SystemExit.

Inductive result (A : Type) : Type :=
| Ok (a : A)
| Raise (e : exn).

Arguments Ok {A} a.
Arguments Raise {A} e.

(** ** Cells *)

Definition cell : Type := (Z * Z)%type.

Definition cell_eqb (a b : cell) : bool :=
  (fst a =? fst b) && (snd a =? snd b).

(** [pos in snake] on a Python list of tuples. *)
Definition mem (c : cell) (l : list cell) : bool :=
  existsb (cell_eqb c) l.

(** Manhattan distance between two cells. *)
Definition manhattan (a b : cell) : Z :=
  Z.abs (fst a - fst b) + Z.abs (snd a - snd b).

(** Every consecutive pair of the list is grid-adjacent. *)
Fixpoint chain (l : list cell) : Prop :=
  match l with
  | a :: (b :: _) as t => manhattan a b = 1 /\ chain t
  | _ => True
  end.

(** ** The random source

    [random.randint] is driven by a stream of raw integers; a draw consumes
    the first one and reduces it into the requested range.  An empty range
    raises [ValueError], as in Python. *)

Definition rng : Type := nat -> Z.

Definition rng_tail (r : rng) : rng := fun n => r (S n).

Definition randint (lo hi : Z) (r : rng) : result (Z * rng) :=
  if hi <? lo then Raise ValueError
  else Ok (lo + (r O) mod (hi - lo + 1), rng_tail r).

(** ** Keyboard and window events *)

Inductive key : Type :=
| K_ESCAPE | K_r | K_1 | K_2 | K_3 | K_h | K_d | K_p
| K_UP | K_DOWN | K_LEFT | K_RIGHT
| K_other.

Inductive event : Type :=
| QUIT
| KEYDOWN (k : key)
| OTHER.

(** The dictionary [key_to_dir]; [None] for the keys it does not hold. *)
Definition key_to_dir (k : key) : option (Z * Z) :=
  match k with
  | K_UP => Some (0, -1)
  | K_DOWN => Some (0, 1)
  | K_LEFT => Some (-1, 0)
  | K_RIGHT => Some (1, 0)
  | _ => None
  end.

(** The dictionary [key_to_level]. *)
Definition key_to_level (k : key) : option Z :=
  match k with
  | K_1 => Some 1
  | K_2 => Some 2
  | K_3 => Some 3
  | _ => None
  end.

(** ** The variables of [main] *)

Record effect : Type := mkEffect {
  pos : cell;
  duration_ms : Z;
  remaining_ms : Z
}.

Record state : Type := mkState {
  best_score : Z;
  best_size : Z;
  snake : list cell;
  food : cell;
  score : Z;
  paused : bool;
  restart_requested : bool;
  game_over_reason : string;
  level : Z;
  direction : option (Z * Z);
  next_direction : option (Z * Z);
  show_help : bool;
  show_debug : bool;
  level_toast_remaining_ms : Z;
  size_anim_remaining_ms : Z;
  food_pop_effects : list effect;
  last_tick_ms : Z;
  running : bool
}.

Definition set_best_score (x : Z) (v : state) : state :=
  mkState x (best_size v) (snake v) (food v) (score v) (paused v)
    (restart_requested v) (game_over_reason v) (level v) (direction v)
    (next_direction v) (show_help v) (show_debug v)
    (level_toast_remaining_ms v) (size_anim_remaining_ms v)
    (food_pop_effects v) (last_tick_ms v) (running v).

Definition set_best_size (x : Z) (v : state) : state :=
  mkState (best_score v) x (snake v) (food v) (score v) (paused v)
    (restart_requested v) (game_over_reason v) (level v) (direction v)
    (next_direction v) (show_help v) (show_debug v)
    (level_toast_remaining_ms v) (size_anim_remaining_ms v)
    (food_pop_effects v) (last_tick_ms v) (running v).

Definition set_snake (x : list cell) (v : state) : state :=
  mkState (best_score v) (best_size v) x (food v) (score v) (paused v)
    (restart_requested v) (game_over_reason v) (level v) (direction v)
    (next_direction v) (show_help v) (show_debug v)
    (level_toast_remaining_ms v) (size_anim_remaining_ms v)
    (food_pop_effects v) (last_tick_ms v) (running v).

Definition set_food (x : cell) (v : state) : state :=
  mkState (best_score v) (best_size v) (snake v) x (score v) (paused v)
    (restart_requested v) (game_over_reason v) (level v) (direction v)
    (next_direction v) (show_help v) (show_debug v)
    (level_toast_remaining_ms v) (size_anim_remaining_ms v)
    (food_pop_effects v) (last_tick_ms v) (running v).

Definition set_score (x : Z) (v : state) : state :=
  mkState (best_score v) (best_size v) (snake v) (food v) x (paused v)
    (restart_requested v) (game_over_reason v) (level v) (direction v)
    (next_direction v) (show_help v) (show_debug v)
    (level_toast_remaining_ms v) (size_anim_remaining_ms v)
    (food_pop_effects v) (last_tick_ms v) (running v).

Definition set_paused (x : bool) (v : state) : state :=
  mkState (best_score v) (best_size v) (snake v) (food v) (score v) x
    (restart_requested v) (game_over_reason v) (level v) (direction v)
    (next_direction v) (show_help v) (show_debug v)
    (level_toast_remaining_ms v) (size_anim_remaining_ms v)
    (food_pop_effects v) (last_tick_ms v) (running v).

Definition set_restart_requested (x : bool) (v : state) : state :=
  mkState (best_score v) (best_size v) (snake v) (food v) (score v) (paused v)
    x (game_over_reason v) (level v) (direction v)
    (next_direction v) (show_help v) (show_debug v)
    (level_toast_remaining_ms v) (size_anim_remaining_ms v)
    (food_pop_effects v) (last_tick_ms v) (running v).

Definition set_game_over_reason (x : string) (v : state) : state :=
  mkState (best_score v) (best_size v) (snake v) (food v) (score v) (paused v)
    (restart_requested v) x (level v) (direction v)
    (next_direction v) (show_help v) (show_debug v)
    (level_toast_remaining_ms v) (size_anim_remaining_ms v)
    (food_pop_effects v) (last_tick_ms v) (running v).

Definition set_level (x : Z) (v : state) : state :=
  mkState (best_score v) (best_size v) (snake v) (food v) (score v) (paused v)
    (restart_requested v) (game_over_reason v) x (direction v)
    (next_direction v) (show_help v) (show_debug v)
    (level_toast_remaining_ms v) (size_anim_remaining_ms v)
    (food_pop_effects v) (last_tick_ms v) (running v).

Definition set_direction (x : option (Z * Z)) (v : state) : state :=
  mkState (best_score v) (best_size v) (snake v) (food v) (score v) (paused v)
    (restart_requested v) (game_over_reason v) (level v) x
    (next_direction v) (show_help v) (show_debug v)
    (level_toast_remaining_ms v) (size_anim_remaining_ms v)
    (food_pop_effects v) (last_tick_ms v) (running v).

Definition set_next_direction (x : option (Z * Z)) (v : state) : state :=
  mkState (best_score v) (best_size v) (snake v) (food v) (score v) (paused v)
    (restart_requested v) (game_over_reason v) (level v) (direction v)
    x (show_help v) (show_debug v)
    (level_toast_remaining_ms v) (size_anim_remaining_ms v)
    (food_pop_effects v) (last_tick_ms v) (running v).

Definition set_show_help (x : bool) (v : state) : state :=
  mkState (best_score v) (best_size v) (snake v) (food v) (score v) (paused v)
    (restart_requested v) (game_over_reason v) (level v) (direction v)
    (next_direction v) x (show_debug v)
    (level_toast_remaining_ms v) (size_anim_remaining_ms v)
    (food_pop_effects v) (last_tick_ms v) (running v).

Definition set_show_debug (x : bool) (v : state) : state :=
  mkState (best_score v) (best_size v) (snake v) (food v) (score v) (paused v)
    (restart_requested v) (game_over_reason v) (level v) (direction v)
    (next_direction v) (show_help v) x
    (level_toast_remaining_ms v) (size_anim_remaining_ms v)
    (food_pop_effects v) (last_tick_ms v) (running v).

Definition set_level_toast_remaining_ms (x : Z) (v : state) : state :=
  mkState (best_score v) (best_size v) (snake v) (food v) (score v) (paused v)
    (restart_requested v) (game_over_reason v) (level v) (direction v)
    (next_direction v) (show_help v) (show_debug v)
    x (size_anim_remaining_ms v)
    (food_pop_effects v) (last_tick_ms v) (running v).

Definition set_size_anim_remaining_ms (x : Z) (v : state) : state :=
  mkState (best_score v) (best_size v) (snake v) (food v) (score v) (paused v)
    (restart_requested v) (game_over_reason v) (level v) (direction v)
    (next_direction v) (show_help v) (show_debug v)
    (level_toast_remaining_ms v) x
    (food_pop_effects v) (last_tick_ms v) (running v).

Definition set_food_pop_effects (x : list effect) (v : state) : state :=
  mkState (best_score v) (best_size v) (snake v) (food v) (score v) (paused v)
    (restart_requested v) (game_over_reason v) (level v) (direction v)
    (next_direction v) (show_help v) (show_debug v)
    (level_toast_remaining_ms v) (size_anim_remaining_ms v)
    x (last_tick_ms v) (running v).

Definition set_last_tick_ms (x : Z) (v : state) : state :=
  mkState (best_score v) (best_size v) (snake v) (food v) (score v) (paused v)
    (restart_requested v) (game_over_reason v) (level v) (direction v)
    (next_direction v) (show_help v) (show_debug v)
    (level_toast_remaining_ms v) (size_anim_remaining_ms v)
    (food_pop_effects v) x (running v).

Definition set_running (x : bool) (v : state) : state :=
  mkState (best_score v) (best_size v) (snake v) (food v) (score v) (paused v)
    (restart_requested v) (game_over_reason v) (level v) (direction v)
    (next_direction v) (show_help v) (show_debug v)
    (level_toast_remaining_ms v) (size_anim_remaining_ms v)
    (food_pop_effects v) (last_tick_ms v) x.

(** What one iteration of the inner [while running] loop leads to. *)
Inductive outcome : Type :=
| NextFrame (v : state) (r : rng)   (* [continue], or the end of the body *)
| Restarting (v : state) (r : rng)  (* [break] on [restart_requested] *)
| RoundOver (v : state) (r : rng)   (* [break] after a collision *)
| Raised (e : exn).                 (* an exception leaves [main] *)

(** The answer of [show_game_over]. *)
Inductive action : Type :=
| act_restart
| act_quit.

(** ** Levels *)

(** The table [LEVELS]: level, name and speed (steps per second). *)
Definition LEVELS : list (Z * (string * Z)) :=
  [(1, ("Beginner"%string, 6)); (2, ("Standard"%string, 10));
   (3, ("Expert"%string, 14))].

(** [LEVELS[level]]; [None] stands for the [KeyError] of a missing key. *)
Fixpoint dict_get {A : Type} (d : list (Z * A)) (k : Z) : option A :=
  match d with
  | [] => None
  | (k', a) :: rest => if k =? k' then Some a else dict_get rest k
  end.

(** The levels selected by the key presses among the events, in order. *)
Fixpoint level_keys (evs : list event) : list Z :=
  match evs with
  | [] => []
  | KEYDOWN k :: rest =>
    match key_to_level k with
    | Some l => l :: level_keys rest
    | None => level_keys rest
    end
  | _ :: rest => level_keys rest
  end.

(** ** Debug labels *)

(** Equality of the values a direction variable can hold. *)
Definition direction_eqb (a b : option (Z * Z)) : bool :=
  match a, b with
  | None, None => true
  | Some x, Some y => cell_eqb x y
  | _, _ => false
  end.

(** [mapping.get(key, default)] on a dictionary keyed by directions. *)
Fixpoint mapping_get (m : list (option (Z * Z) * string))
    (key : option (Z * Z)) (default : string) : string :=
  match m with
  | [] => default
  | (k, label) :: rest =>
    if direction_eqb key k then label else mapping_get rest key default
  end.

(** [direction_to_text(direction)] *)
Definition direction_to_text (direction : option (Z * Z)) : string :=
  let mapping :=
    [(None, "none"); (Some (0, -1), "up"); (Some (0, 1), "down");
     (Some (-1, 0), "left"); (Some (1, 0), "right")]%string in
  mapping_get mapping direction "unknown"%string.

(** ** Drawing

    What the drawing functions hand to pygame, as display lists.  A
    rectangle is [pygame.Rect(left, top, width, height)]; its centre is
    pygame's [Rect.center], [(left + width // 2, top + height // 2)]. *)

Record rect : Type := mkRect {
  left : Z;
  top : Z;
  width : Z;
  height : Z
}.

Definition rect_center (rc : rect) : Z * Z :=
  (left rc + width rc / 2, top rc + height rc / 2).

Definition color : Type := (Z * Z * Z)%type.

Definition HEAD_COLOR : color := (112, 224, 120).
Definition BODY_COLOR : color := (66, 168, 90).
Definition FOOD_COLOR : color := (255, 83, 95).
Definition FOOD_INNER : color := (255, 178, 184).
Definition SHADOW : color := (0, 0, 0).

Inductive shape : Type :=
| RoundRect (c : color) (rc : rect) (border_radius : Z)  (* [pygame.draw.rect] *)
| Circle (c : color) (center : Z * Z) (radius : Z).      (* [pygame.draw.circle] *)

(** The pixel columns and rows a shape can touch: a circle stays within
    [radius] of its centre in both coordinates. *)
Definition shape_box (sh : shape) : rect :=
  match sh with
  | RoundRect _ rc _ => rc
  | Circle _ (cx, cy) radius =>
    mkRect (cx - radius) (cy - radius) (2 * radius + 1) (2 * radius + 1)
  end.

(** The pixel [(px, py)] lies in the rectangle. *)
Definition in_rect (rc : rect) (px py : Z) : Prop :=
  left rc <= px < left rc + width rc /\ top rc <= py < top rc + height rc.

Section Screen.

Variable CELL_SIZE : Z.

(** [grid_rect(grid_pos, padding)] *)
Definition grid_rect (grid_pos : cell) (padding : Z) : rect :=
  let '(x, y) := grid_pos in
  mkRect (x * CELL_SIZE + padding) (y * CELL_SIZE + padding)
         (CELL_SIZE - padding * 2) (CELL_SIZE - padding * 2).

(** [draw_food(surface, grid_pos)] *)
Definition draw_food (grid_pos : cell) : list shape :=
  let rc := grid_rect grid_pos 2 in
  let center := rect_center rc in
  let radius := width rc / 2 in
  [Circle FOOD_COLOR center radius;
   Circle FOOD_INNER (fst center - 3, snd center - 3) (Z.max 2 (radius / 3))].

(** The body of the loop over [enumerate(snake)] in [draw_snake]. *)
Fixpoint draw_segments (i : nat) (snake : list cell) : list shape :=
  match snake with
  | [] => []
  | segment :: rest =>
    let rc := grid_rect segment 1 in
    let c := if Nat.eqb i 0 then HEAD_COLOR else BODY_COLOR in
    RoundRect c rc 5 :: draw_segments (S i) rest
  end.

(** [draw_snake(surface, snake, direction)]; [snake[0]] raises on an empty
    list. *)
Definition draw_snake (snake : list cell) (direction : Z * Z) : result (list shape) :=
  let body := draw_segments 0 snake in
  match snake with
  | [] => Raise IndexError
  | head :: _ =>
    let head_rect := grid_rect head 1 in
    let '(cx, cy) := rect_center head_rect in
    let eye_offset := 4 in
    let '(dx, dy) := direction in
    let eyes :=
      if dx =? 1 then [(cx + eye_offset, cy - 3); (cx + eye_offset, cy + 3)]
      else if dx =? -1 then [(cx - eye_offset, cy - 3); (cx - eye_offset, cy + 3)]
      else if dy =? -1 then [(cx - 3, cy - eye_offset); (cx + 3, cy - eye_offset)]
      else [(cx - 3, cy + eye_offset); (cx + 3, cy + eye_offset)] in
    Ok (body ++ map (fun e => Circle SHADOW e 2) eyes)
  end.

End Screen.

(** ** The font size of the HUD

    The loop of [draw_hud] that picks the font size.  What pygame renders
    is external: [wl], [wm], [wsv] and [wr] give the pixel widths of the
    score, "Size:", size value and level labels at a font size. *)

Section Hud.

Variables WINDOW_WIDTH HUD_BASE_SIZE HUD_MIN_SIZE : Z.
Variables wl wm wsv wr : Z -> Z.

(** [range(start, stop, -1)] *)
Definition range_down (start stop : Z) : list Z :=
  map (fun i => start - Z.of_nat i) (seq 0 (Z.to_nat (start - stop))).

Definition hud_left_end (size : Z) : Z :=
  let bar := mkRect 12 12 (WINDOW_WIDTH - 24) 58 in
  let pad := 12 in
  let left_x := left bar + pad in
  left_x + wl size.

Definition hud_mid_x (size : Z) : Z :=
  let mid_total_w := wm size + 8 + wsv size in
  WINDOW_WIDTH / 2 - mid_total_w / 2.

Definition hud_mid_end (size : Z) : Z :=
  let mid_total_w := wm size + 8 + wsv size in
  hud_mid_x size + mid_total_w.

Definition hud_right_x (size : Z) : Z :=
  let bar := mkRect 12 12 (WINDOW_WIDTH - 24) 58 in
  let pad := 12 in
  (left bar + width bar) - pad - wr size.

(** The test [mid_x >= left_end + gap and mid_end <= right_x - gap]. *)
Definition hud_fits (size : Z) : bool :=
  let gap := 10 in
  (hud_mid_x size >=? hud_left_end size + gap)
  && (hud_mid_end size <=? hud_right_x size - gap).

(** The size of [chosen_font] after the loop has gone through [sizes],
    [chosen] being its size before. *)
Fixpoint hud_scan (sizes : list Z) (chosen : Z) : Z :=
  match sizes with
  | [] => chosen
  | size :: rest => if hud_fits size then size else hud_scan rest size
  end.

Definition hud_font_size : Z :=
  hud_scan (range_down HUD_BASE_SIZE (HUD_MIN_SIZE - 1)) HUD_BASE_SIZE.

End Hud.

(** Everything a shape can touch belongs to the grid cell [c]. *)
Definition shape_in_cell (CELL_SIZE : Z) (c : cell) (sh : shape) : Prop :=
  forall px py, in_rect (shape_box sh) px py ->
                (px / CELL_SIZE, py / CELL_SIZE) = c.

(** ** Text wrapping

    [wrap_text_to_width] works on Python strings; a string is modelled by
    [string], one [ascii] per code point, which covers the text whose code
    points are below 256.  The width [font.size(s)[0]] of a rendered string
    is given by the font and is a parameter. *)

(** [s.split(sep)] for a separator of one character: the pieces between
    the occurrences of [sep], empty pieces included; never the empty
    list. *)
Fixpoint split (sep : ascii) (s : string) : list string :=
  match s with
  | EmptyString => [EmptyString]
  | String c s' =>
    if Ascii.eqb c sep then EmptyString :: split sep s'
    else
      match split sep s' with
      | w :: ws => String c w :: ws
      | [] => [String c EmptyString]
      end
  end.

(** [" ".join(ls)]. *)
Definition join (ls : list string) : string := String.concat " " ls.

(** The code points below 256 that [str.rstrip()] removes. *)
Definition is_space (c : ascii) : bool :=
  let n := nat_of_ascii c in
  ((9 <=? n) && (n <=? 13) || (28 <=? n) && (n <=? 32)
   || (n =? 133) || (n =? 160))%nat.

(** [s.rstrip()]. *)
Fixpoint rstrip (s : string) : string :=
  match s with
  | EmptyString => EmptyString
  | String c s' =>
    match rstrip s' with
    | EmptyString => if is_space c then EmptyString else String c EmptyString
    | t => String c t
    end
  end.

(** [s[:-1]]. *)
Fixpoint drop_last (s : string) : string :=
  match s with
  | EmptyString => EmptyString
  | String c EmptyString => EmptyString
  | String c s' => String c (drop_last s')
  end.

(** [l[:n]], for [n] of either sign. *)
Definition slice_to {A : Type} (l : list A) (n : Z) : list A :=
  if n <? 0 then firstn (Z.to_nat (Z.of_nat (List.length l) + n)) l
  else firstn (Z.to_nat n) l.

Definition is_nil {A : Type} (l : list A) : bool :=
  match l with
  | [] => true
  | _ :: _ => false
  end.

(** A string without a space: one word. *)
Fixpoint no_space (s : string) : bool :=
  match s with
  | EmptyString => true
  | String c s' => negb (Ascii.eqb c " ") && no_space s'
  end.

Section Wrap.

Variable font_size : string -> Z.
Variables max_width max_lines : Z.

(** The [for word in words[1:]] loop; the result is [lines] and [current]
    when the loop is left, at the end of the words or by [break]. *)
Fixpoint wrap_words (ws : list string) (lines : list string) (current : string)
  : list string * string :=
  match ws with
  | [] => (lines, current)
  | word :: ws' =>
    let candidate := (current ++ " " ++ word)%string in
    if font_size candidate <=? max_width then wrap_words ws' lines candidate
    else
      let lines := lines ++ [current] in
      if Z.of_nat (List.length lines) >=? max_lines - 1 then (lines, word)
      else wrap_words ws' lines word
  end.

(** The loop that shortens the last line until the ellipsis fits; each turn
    removes one character and the empty string ends the loop, so the
    length of the line bounds the number of turns. *)
Fixpoint shrink (turns : nat) (s : string) : string :=
  match turns with
  | O => s
  | S turns' =>
    if (font_size (s ++ "...")%string >? max_width) && negb (s =? "")%string
    then shrink turns' (drop_last s)
    else s
  end.

Definition wrap_text_to_width (text : string) : list string :=
  match split " " text with
  | [] => [""%string]
  | w0 :: rest =>
    let '(lines, current) := wrap_words rest [] w0 in
    let lines := lines ++ [current] in
    let remaining_words :=
      skipn (List.length (split " " (join lines))) (w0 :: rest) in
    let lines :=
      if negb (is_nil remaining_words) && (Z.of_nat (List.length lines) =? max_lines)
      then
        let l := last lines ""%string in
        removelast lines ++ [(rstrip (shrink (String.length l) l) ++ "...")%string]
      else lines in
    slice_to lines max_lines
  end.

(** A line fits the width, or is a single word. *)
Definition line_fits (l : string) : Prop :=
  font_size l <= max_width \/ no_space l = true.

(** Every line break is forced: the first word of a line did not fit at
    the end of the line before it. *)
Fixpoint breaks_forced (lines : list string) : Prop :=
  match lines with
  | l :: (l' :: _) as t =>
    font_size (l ++ " " ++ hd ""%string (split " " l'))%string > max_width
    /\ breaks_forced t
  | _ => True
  end.

End Wrap.

(** ** The events that decide a frame *)

(** Closing the window or pressing Escape. *)
Definition is_exit (ev : event) : bool :=
  match ev with
  | QUIT | KEYDOWN K_ESCAPE => true
  | _ => false
  end.

Definition is_restart (ev : event) : bool :=
  match ev with
  | KEYDOWN K_r => true
  | _ => false
  end.

Definition is_pause (ev : event) : bool :=
  match ev with
  | KEYDOWN K_p => true
  | _ => false
  end.

(** ** The grid lines of the background *)

(** [range(0, stop, step)]; a step of zero raises [ValueError]. *)
Definition range_step (stop step : Z) : result (list Z) :=
  if step =? 0 then Raise ValueError
  else
    let n := if step >? 0 then (stop + step - 1) / step
             else (- stop - step - 1) / (- step) in
    Ok (map (fun k => Z.of_nat k * step) (seq 0 (Z.to_nat n))).

(** [pygame.draw.line(surface, color, start, end, 1)] *)
Record line : Type := mkLine {
  line_color : color;
  line_start : Z * Z;
  line_end : Z * Z
}.

Definition GRID_LINE : color := (30, 44, 61).

(** The two loops of [draw_background] that draw the grid lines, the
    vertical ones first.  (The loop before them paints the gradient, in
    floating point; it draws no grid line.) *)
Definition draw_grid_lines (WINDOW_WIDTH WINDOW_HEIGHT CELL_SIZE : Z)
  : result (list line) :=
  match range_step WINDOW_WIDTH CELL_SIZE with
  | Raise e => Raise e
  | Ok xs =>
    match range_step WINDOW_HEIGHT CELL_SIZE with
    | Raise e => Raise e
    | Ok ys =>
      Ok (map (fun x => mkLine GRID_LINE (x, 0) (x, WINDOW_HEIGHT)) xs
          ++ map (fun y => mkLine GRID_LINE (0, y) (WINDOW_WIDTH, y)) ys)
    end
  end.

(** The pixel [(px, py)] lies on a vertical or horizontal line of width 1. *)
Definition on_line (l : line) (px py : Z) : Prop :=
  (fst (line_start l) = fst (line_end l) /\ px = fst (line_start l)
   /\ snd (line_start l) <= py <= snd (line_end l))
  \/ (snd (line_start l) = snd (line_end l) /\ py = snd (line_start l)
      /\ fst (line_start l) <= px <= fst (line_end l)).

(** A shape that keeps one pixel away from the border of its cell. *)
Definition box_inside (CELL_SIZE : Z) (c : cell) (sh : shape) : Prop :=
  fst c * CELL_SIZE < left (shape_box sh) /\
  left (shape_box sh) + width (shape_box sh) <= fst c * CELL_SIZE + CELL_SIZE /\
  snd c * CELL_SIZE < top (shape_box sh) /\
  top (shape_box sh) + height (shape_box sh) <= snd c * CELL_SIZE + CELL_SIZE.

(** No pixel of the shape lies on one of the lines. *)
Definition clear_of (ls : list line) (sh : shape) : Prop :=
  forall px py l, in_rect (shape_box sh) px py -> In l ls -> ~ on_line l px py.

(** * The program as shipped

    The constants of [snake.py], and the concrete random sources and rounds
    that the development evaluates the model on. *)

Module Shipped.

Definition WINDOW_WIDTH : Z := 600.
Definition WINDOW_HEIGHT : Z := 400.
Definition CELL_SIZE : Z := 20.
Definition START_LENGTH : Z := 5.
Definition GRID_WIDTH : Z := WINDOW_WIDTH / CELL_SIZE.
Definition GRID_HEIGHT : Z := WINDOW_HEIGHT / CELL_SIZE.

(** A random source whose raw values are all 0: every draw is [(0, 0)]. *)
Definition still_rng : rng := fun _ => 0.

(** The round that [main] starts at clock 0 with [still_rng]. *)
Definition first_round : state :=
  mkState 0 5 [(16, 10); (15, 10); (14, 10); (13, 10); (12, 10)] (0, 0) 0
          false false "none" 2 None None false false 0 0 [] 0 true.

(** A snake that winds through every cell of a [w] by [h] grid: row 0 from
    left to right, row 1 back, and so on. *)
Definition serpentine (w h : nat) : list cell :=
  flat_map
    (fun y =>
       let xs := map Z.of_nat (seq 0 w) in
       map (fun x => (x, Z.of_nat y)) (if Nat.even y then xs else rev xs))
    (seq 0 h).

Definition full_grid_snake : list cell := serpentine 30 20.

(** A round one bite short of a covered grid: the snake winds through every
    cell but [(0,0)], where the food lies, with its head at [(1,0)]. *)
Definition last_bite_round : state :=
  mkState 594 599 (tl full_grid_snake) (0, 0) 594
          false false "none" 2 (Some (-1, 0)) (Some (-1, 0))
          false false 0 0 [] 0 true.

(** A random source that places the first food right in front of the head
    and every later one at [(0, 0)]. *)
Definition fed_rng : rng :=
  fun n => match n with O => 17 | S O => 10 | _ => 0 end.

(** The round that [main] starts at clock 0 with [fed_rng]. *)
Definition fed_round : state :=
  mkState 0 5 [(16, 10); (15, 10); (14, 10); (13, 10); (12, 10)] (17, 10) 0
          false false "none" 2 None None false false 0 0 [] 0 true.

(** [fed_round] after a frame at clock 100 in which "right" is pressed. *)
Definition grown_round : state :=
  mkState 1 6 [(17, 10); (16, 10); (15, 10); (14, 10); (13, 10); (12, 10)]
          (0, 0) 1 false false "none" 2 (Some (1, 0)) (Some (1, 0))
          false false 0 400 [mkEffect (17, 10) 250 250] 100 true.

(** [first_round] after a frame at clock 50 in which "P" is pressed. *)
Definition paused_round : state :=
  mkState 0 5 [(16, 10); (15, 10); (14, 10); (13, 10); (12, 10)] (0, 0) 0
          true false "none" 2 None None false false 0 0 [] 50 true.

(** A snake of four cells around a 2x2 block, its head next to its tail. *)
Definition loop_round : state :=
  mkState 0 5 [(1, 0); (1, 1); (0, 1); (0, 0)] (5, 5) 0
          false false "none" 2 (Some (0, -1)) (Some (-1, 0))
          false false 0 0 [] 0 true.

(** A snake of six cells whose head, going left, runs into its own body. *)
Definition coiled_round : state :=
  mkState 1 6 [(5, 5); (5, 6); (4, 6); (4, 5); (4, 4); (5, 4)] (0, 0) 1
          false false "none" 2 (Some (0, -1)) (Some (-1, 0))
          false false 0 0 [] 0 true.

(** A snake whose head is in the last column. *)
Definition edge_round : state :=
  mkState 0 5 [(29, 10); (28, 10); (27, 10); (26, 10); (25, 10)] (0, 0) 0
          false false "none" 2 (Some (1, 0)) (Some (1, 0))
          false false 0 0 [] 0 true.

(** [grown_round] after a frame at clock 150 in which "up" is pressed. *)
Definition turned_round : state :=
  mkState 1 6 [(17, 9); (17, 10); (16, 10); (15, 10); (14, 10); (13, 10)]
          (0, 0) 1 false false "none" 2 (Some (0, -1)) (Some (0, -1))
          false false 0 350 [mkEffect (17, 10) 250 200] 150 true.

(** Label widths that grow with the font size, for the HUD. *)
Definition narrow_label (size : Z) : Z := 4 * size.
Definition wide_label (size : Z) : Z := 10 * size.

(** The text of the bottom bar, and a font in which every character is 8
    pixels wide. *)
Definition controls_text : string :=
  "H: help  |  P: pause  |  R: restart  |  Esc: quit".

Definition fixed_pitch (s : string) : Z := 8 * Z.of_nat (String.length s).

End Shipped.

Section Grid.

(** The grid dimensions and the start length are module constants of the
    source ([WINDOW_WIDTH // CELL_SIZE], [WINDOW_HEIGHT // CELL_SIZE] and
    [START_LENGTH]).  The model is parametric in them; [Shipped] holds the
    values the program has. *)
Variables GRID_WIDTH GRID_HEIGHT START_LENGTH : Z.

Definition in_bounds (c : cell) : bool :=
  (0 <=? fst c) && (fst c <? GRID_WIDTH) && (0 <=? snd c) && (snd c <? GRID_HEIGHT).

(** [create_initial_snake(length)] *)
Definition create_initial_snake (length : Z) : result (list cell) :=
  if (length <? 1) || (length >? GRID_WIDTH) then Raise ValueError
  else
    let tail_x := (GRID_WIDTH - length) / 2 in
    let head_x := tail_x + length - 1 in
    let head_y := GRID_HEIGHT / 2 in
    Ok (map (fun i => (head_x - Z.of_nat i, head_y)) (seq 0 (Z.to_nat length))).

(** [random_food_position(snake)]: the [while True] loop runs for at most
    [fuel] iterations; [None] means that it is still drawing after them. *)
Fixpoint random_food_position (fuel : nat) (r : rng) (snake : list cell)
  : option (result (cell * rng)) :=
  match fuel with
  | O => None
  | S fuel' =>
    match randint 0 (GRID_WIDTH - 1) r with
    | Raise e => Some (Raise e)
    | Ok (x, r1) =>
      match randint 0 (GRID_HEIGHT - 1) r1 with
      | Raise e => Some (Raise e)
      | Ok (y, r2) =>
        if negb (mem (x, y) snake) then Some (Ok ((x, y), r2))
        else random_food_position fuel' r2 snake
      end
    end
  end.

(** The body of [for event in pygame.event.get()] for one event. *)
Definition handle_event (ev : event) (v : state) : result state :=
  match ev with
  | QUIT => Raise SystemExit
  | OTHER => Ok v
  | KEYDOWN k =>
    match k with
    | K_ESCAPE => Raise SystemExit
    | K_r => Ok (set_restart_requested true v)
    | K_1 | K_2 | K_3 =>
      match key_to_level k with
      | Some l => Ok (set_level_toast_remaining_ms 1000 (set_level l v))
      | None => Ok v
      end
    | K_h => Ok (set_show_help (negb (show_help v)) v)
    | K_d => Ok (set_show_debug (negb (show_debug v)) v)
    | K_p => Ok (set_paused (negb (paused v)) v)
    | K_UP | K_DOWN | K_LEFT | K_RIGHT =>
      match key_to_dir k with
      | None => Ok v
      | Some candidate =>
        match direction v with
        | None =>
          match snake v with
          | [] => Raise IndexError
          | (hx, hy) :: _ =>
            let nx := hx + fst candidate in
            let ny := hy + snd candidate in
            let inb := (0 <=? nx) && (nx <? GRID_WIDTH)
                       && (0 <=? ny) && (ny <? GRID_HEIGHT) in
            if inb && negb (mem (nx, ny) (tl (snake v)))
            then Ok (set_next_direction (Some candidate) v)
            else Ok v
          end
        | Some d =>
          let opposite := (- fst d, - snd d) in
          if negb (cell_eqb candidate opposite)
          then Ok (set_next_direction (Some candidate) v)
          else Ok v
        end
      end
    | K_other => Ok v
    end
  end.

Fixpoint handle_events (evs : list event) (v : state) : result state :=
  match evs with
  | [] => Ok v
  | ev :: evs' =>
    match handle_event ev v with
    | Ok v' => handle_events evs' v'
    | Raise e => Raise e
    end
  end.

(** The countdown of the transient timers (lines 589-595). *)
Definition update_timers (dt_ms : Z) (v : state) : state :=
  let v :=
    if level_toast_remaining_ms v >? 0
    then set_level_toast_remaining_ms (Z.max 0 (level_toast_remaining_ms v - dt_ms)) v
    else v in
  let v :=
    if size_anim_remaining_ms v >? 0
    then set_size_anim_remaining_ms (Z.max 0 (size_anim_remaining_ms v - dt_ms)) v
    else v in
  let aged :=
    map (fun e => mkEffect (pos e) (duration_ms e) (Z.max 0 (remaining_ms e - dt_ms)))
        (food_pop_effects v) in
  set_food_pop_effects (filter (fun e => remaining_ms e >? 0) aged) v.

Definition hit_wall (new_head : cell) : bool :=
  (fst new_head <? 0) || (fst new_head >=? GRID_WIDTH)
  || (snd new_head <? 0) || (snd new_head >=? GRID_HEIGHT).

(** One simulation step (lines 597-639) with the active direction [d]. *)
Definition tick (fuel : nat) (r : rng) (d : Z * Z) (v : state) : option outcome :=
  match snake v with
  | [] => Some (Raised IndexError)
  | (head_x, head_y) :: _ =>
    let '(dx, dy) := d in
    let new_head := (head_x + dx, head_y + dy) in
    let will_grow := cell_eqb new_head (food v) in
    let body_to_check := if will_grow then snake v else removelast (snake v) in
    let hit_self := mem new_head body_to_check in
    if hit_wall new_head || hit_self then
      let v := set_game_over_reason (if hit_wall new_head then "wall" else "self")%string v in
      Some (RoundOver (set_running false v) r)
    else
      let v := set_snake (new_head :: snake v) v in
      if will_grow then
        let eaten_food_pos := food v in
        let v := set_score (score v + 1) v in
        match random_food_position fuel r (snake v) with
        | None => None
        | Some (Raise e) => Some (Raised e)
        | Some (Ok (p, r')) =>
          let v := set_food p v in
          let v := set_size_anim_remaining_ms 400 v in
          let v := set_food_pop_effects
                     (food_pop_effects v ++ [mkEffect eaten_food_pos 250 250]) v in
          let v := set_best_score (Z.max (best_score v) (score v)) v in
          let v := set_best_size
                     (Z.max (best_size v) (Z.of_nat (List.length (snake v)))) v in
          Some (NextFrame v r')
        end
      else
        Some (NextFrame (set_snake (removelast (snake v)) v) r)
  end.

(** One iteration of the inner loop of [main]: [now_ms] is what
    [pygame.time.get_ticks()] returns, [events] what [pygame.event.get()]
    returns. *)
Definition frame (fuel : nat) (r : rng) (now_ms : Z) (events : list event)
    (v : state) : option outcome :=
  let dt_ms := Z.max 0 (now_ms - last_tick_ms v) in
  let v := set_last_tick_ms now_ms v in
  match handle_events events v with
  | Raise e => Some (Raised e)
  | Ok v =>
    if restart_requested v then Some (Restarting v r)
    else if paused v then Some (NextFrame v r)
    else
      let v :=
        match next_direction v with
        | Some nd => set_direction (Some nd) v
        | None => v
        end in
      match direction v with
      | None => Some (NextFrame v r)
      | Some d => tick fuel r d (update_timers dt_ms v)
      end
  end.

(** The head of the outer [while True] loop: a new round, with the session
    bests carried over. *)
Definition new_round (fuel : nat) (r : rng) (now_ms : Z) (bscore bsize : Z)
  : option (result (state * rng)) :=
  match create_initial_snake START_LENGTH with
  | Raise e => Some (Raise e)
  | Ok snake0 =>
    match random_food_position fuel r snake0 with
    | None => None
    | Some (Raise e) => Some (Raise e)
    | Some (Ok (food0, r')) =>
      Some (Ok (mkState bscore bsize snake0 food0 0 false false "none"%string 2
                        None None false false 0 0 [] now_ms true, r'))
    end
  end.

(** [show_game_over]: the events polled while the game-over screen is up,
    in order; [None] while none of them decides. *)
Fixpoint show_game_over (events : list event) : option action :=
  match events with
  | [] => None
  | QUIT :: _ => Some act_quit
  | KEYDOWN K_r :: _ => Some act_restart
  | KEYDOWN K_ESCAPE :: _ => Some act_quit
  | _ :: rest => show_game_over rest
  end.

(** ** [main] as a transition system *)

Inductive pstate : Type :=
| Playing (v : state) (r : rng)     (* at the head of the inner loop *)
| GameOver (v : state) (r : rng)    (* inside [show_game_over] *)
| Stopped                           (* [pygame.quit()], normal end *)
| Failed (e : exn).                 (* an exception left [main] *)

(** The first round, entered with [best_score = 0] and
    [best_size = START_LENGTH]. *)
Inductive main_start : pstate -> Prop :=
| start_ok fuel r now_ms v r' :
    new_round fuel r now_ms 0 START_LENGTH = Some (Ok (v, r')) ->
    main_start (Playing v r')
| start_raise fuel r now_ms e :
    new_round fuel r now_ms 0 START_LENGTH = Some (Raise e) ->
    main_start (Failed e).

Inductive main_step : pstate -> pstate -> Prop :=
| step_next fuel now_ms events v r v' r' :
    frame fuel r now_ms events v = Some (NextFrame v' r') ->
    main_step (Playing v r) (Playing v' r')
| step_over fuel now_ms events v r v' r' :
    frame fuel r now_ms events v = Some (RoundOver v' r') ->
    main_step (Playing v r) (GameOver v' r')
| step_raised fuel now_ms events v r e :
    frame fuel r now_ms events v = Some (Raised e) ->
    main_step (Playing v r) (Failed e)
| step_restart fuel now_ms events v r v1 r1 fuel' now_ms' v2 r2 :
    frame fuel r now_ms events v = Some (Restarting v1 r1) ->
    new_round fuel' r1 now_ms' (best_score v1) (best_size v1) = Some (Ok (v2, r2)) ->
    main_step (Playing v r) (Playing v2 r2)
| step_restart_raise fuel now_ms events v r v1 r1 fuel' now_ms' e :
    frame fuel r now_ms events v = Some (Restarting v1 r1) ->
    new_round fuel' r1 now_ms' (best_score v1) (best_size v1) = Some (Raise e) ->
    main_step (Playing v r) (Failed e)
| step_again events v r fuel' now_ms' v2 r2 :
    show_game_over events = Some act_restart ->
    new_round fuel' r now_ms' (best_score v) (best_size v) = Some (Ok (v2, r2)) ->
    main_step (GameOver v r) (Playing v2 r2)
| step_again_raise events v r fuel' now_ms' e :
    show_game_over events = Some act_restart ->
    new_round fuel' r now_ms' (best_score v) (best_size v) = Some (Raise e) ->
    main_step (GameOver v r) (Failed e)
| step_quit events v r :
    show_game_over events = Some act_quit ->
    main_step (GameOver v r) Stopped.

Inductive reachable : pstate -> Prop :=
| reach_start s : main_start s -> reachable s
| reach_step s s' : reachable s -> main_step s s' -> reachable s'.

(** The cell that the [k]-th iteration of [random_food_position] draws
    from the stream [r] (two raw values per iteration, [x] first). *)
Definition draw (r : rng) (k : nat) : cell :=
  (0 + r (2 * k)%nat mod (GRID_WIDTH - 1 - 0 + 1),
   0 + r (2 * k + 1)%nat mod (GRID_HEIGHT - 1 - 0 + 1)).

(** The snake covers the whole grid. *)
Definition grid_full (snake : list cell) : Prop :=
  forall c, in_bounds c = true -> In c snake.

(** A direction variable holds [None] or one of the four unit vectors. *)
Definition unit_vector (d : Z * Z) : Prop :=
  d = (0, -1) \/ d = (0, 1) \/ d = (-1, 0) \/ d = (1, 0).

Definition direction_ok (o : option (Z * Z)) : Prop :=
  match o with
  | None => True
  | Some d => unit_vector d
  end.

(** The shape of the snake and the food that every round keeps. *)
Record round_inv (v : state) : Prop := mkRoundInv {
  inv_nonempty : snake v <> [];
  inv_distinct : NoDup (snake v);
  inv_chain : chain (snake v);
  inv_food : ~ In (food v) (snake v);
  inv_snake_in : forall c, In c (snake v) -> in_bounds c = true;
  inv_food_in : in_bounds (food v) = true;
  inv_direction : direction_ok (direction v);
  inv_next_direction : direction_ok (next_direction v)
}.

(** The inner loop run over the inputs of consecutive frames, for as long
    as it goes on to a next frame. *)
Fixpoint run_frames (fuel : nat) (r : rng) (inputs : list (Z * list event))
    (v : state) : option outcome :=
  match inputs with
  | [] => Some (NextFrame v r)
  | (now_ms, events) :: rest =>
    match frame fuel r now_ms events v with
    | Some (NextFrame v' r') => run_frames fuel r' rest v'
    | o => o
    end
  end.

(** ** Vocabulary of the specification *)

(** The two things a step can do to the variables. *)
Definition collided (why : string) (v : state) : state :=
  set_running false (set_game_over_reason why v).

Definition moved (new_head : cell) (v : state) : state :=
  set_snake (removelast (new_head :: snake v)) (set_snake (new_head :: snake v) v).

(** The variables after a step that ate the food and placed the next one
    at [p]. *)
Definition grew (new_head p : cell) (v : state) : state :=
  mkState (Z.max (best_score v) (score v + 1))
          (Z.max (best_size v) (Z.of_nat (S (List.length (snake v)))))
          (new_head :: snake v) p (score v + 1)
          (paused v) (restart_requested v) (game_over_reason v) (level v)
          (direction v) (next_direction v) (show_help v) (show_debug v)
          (level_toast_remaining_ms v) 400
          (food_pop_effects v ++ [mkEffect (food v) 250 250])
          (last_tick_ms v) (running v).

(** What one event can write. *)
Inductive event_effect (v : state) : state -> Prop :=
| ee_none : event_effect v v
| ee_restart : event_effect v (set_restart_requested true v)
| ee_level l :
    event_effect v (set_level_toast_remaining_ms 1000 (set_level l v))
| ee_help : event_effect v (set_show_help (negb (show_help v)) v)
| ee_debug : event_effect v (set_show_debug (negb (show_debug v)) v)
| ee_pause : event_effect v (set_paused (negb (paused v)) v)
| ee_dir c : unit_vector c -> event_effect v (set_next_direction (Some c) v).

(** The variables that no event writes. *)
Record sim_frozen (v v' : state) : Prop := mkFrozen {
  fr_snake : snake v' = snake v;
  fr_food : food v' = food v;
  fr_score : score v' = score v;
  fr_direction : direction v' = direction v;
  fr_best_score : best_score v' = best_score v;
  fr_best_size : best_size v' = best_size v;
  fr_reason : game_over_reason v' = game_over_reason v;
  fr_size_anim : size_anim_remaining_ms v' = size_anim_remaining_ms v;
  fr_effects : food_pop_effects v' = food_pop_effects v;
  fr_toast : level_toast_remaining_ms v' = level_toast_remaining_ms v \/
             level_toast_remaining_ms v' = 1000
}.

Inductive tick_spec (r : rng) (d : Z * Z) (v : state) : outcome -> Prop :=
| ts_empty :
    snake v = [] -> tick_spec r d v (Raised IndexError)
| ts_wall hx hy body :
    snake v = (hx, hy) :: body ->
    hit_wall (hx + fst d, hy + snd d) = true ->
    tick_spec r d v (RoundOver (collided "wall" v) r)
| ts_self hx hy body :
    snake v = (hx, hy) :: body ->
    hit_wall (hx + fst d, hy + snd d) = false ->
    mem (hx + fst d, hy + snd d)
        (if cell_eqb (hx + fst d, hy + snd d) (food v)
         then snake v else removelast (snake v)) = true ->
    tick_spec r d v (RoundOver (collided "self" v) r)
| ts_move hx hy body :
    snake v = (hx, hy) :: body ->
    hit_wall (hx + fst d, hy + snd d) = false ->
    cell_eqb (hx + fst d, hy + snd d) (food v) = false ->
    mem (hx + fst d, hy + snd d) (removelast (snake v)) = false ->
    tick_spec r d v (NextFrame (moved (hx + fst d, hy + snd d) v) r)
| ts_grow hx hy body fuel p r' :
    snake v = (hx, hy) :: body ->
    hit_wall (hx + fst d, hy + snd d) = false ->
    cell_eqb (hx + fst d, hy + snd d) (food v) = true ->
    mem (hx + fst d, hy + snd d) (snake v) = false ->
    random_food_position fuel r ((hx + fst d, hy + snd d) :: snake v)
      = Some (Ok (p, r')) ->
    tick_spec r d v (NextFrame (grew (hx + fst d, hy + snd d) p v) r')
| ts_raise hx hy body fuel e :
    snake v = (hx, hy) :: body ->
    random_food_position fuel r ((hx + fst d, hy + snd d) :: snake v)
      = Some (Raise e) ->
    tick_spec r d v (Raised e).

(** The buffered direction becomes the active one. *)
Definition take_next_direction (v : state) : state :=
  match next_direction v with
  | Some nd => set_direction (Some nd) v
  | None => v
  end.

Inductive frame_spec (fuel : nat) (r : rng) (now_ms : Z) (events : list event)
    (v : state) : outcome -> Prop :=
| fs_raise e :
    handle_events events (set_last_tick_ms now_ms v) = Raise e ->
    frame_spec fuel r now_ms events v (Raised e)
| fs_restart v1 :
    handle_events events (set_last_tick_ms now_ms v) = Ok v1 ->
    restart_requested v1 = true ->
    frame_spec fuel r now_ms events v (Restarting v1 r)
| fs_paused v1 :
    handle_events events (set_last_tick_ms now_ms v) = Ok v1 ->
    restart_requested v1 = false -> paused v1 = true ->
    frame_spec fuel r now_ms events v (NextFrame v1 r)
| fs_idle v1 :
    handle_events events (set_last_tick_ms now_ms v) = Ok v1 ->
    restart_requested v1 = false -> paused v1 = false ->
    direction (take_next_direction v1) = None ->
    frame_spec fuel r now_ms events v (NextFrame (take_next_direction v1) r)
| fs_tick v1 d o :
    handle_events events (set_last_tick_ms now_ms v) = Ok v1 ->
    restart_requested v1 = false -> paused v1 = false ->
    direction (take_next_direction v1) = Some d ->
    tick fuel r d
      (update_timers (Z.max 0 (now_ms - last_tick_ms v)) (take_next_direction v1))
      = Some o ->
    frame_spec fuel r now_ms events v o.

(** The session bests dominate the start length and the current round. *)
Record session_inv (v : state) : Prop := mkSessionInv {
  si_best_size : START_LENGTH <= best_size v;
  si_best_score : 0 <= best_score v;
  si_score : 0 <= score v <= best_score v;
  si_size : Z.of_nat (List.length (snake v)) <= best_size v;
  si_length : Z.of_nat (List.length (snake v)) = START_LENGTH + score v
}.

Definition state_inv (v : state) : Prop := round_inv v /\ session_inv v.

Definition outcome_state (o : outcome) : option state :=
  match o with
  | NextFrame v _ | Restarting v _ | RoundOver v _ => Some v
  | Raised _ => None
  end.

Definition pstate_state (s : pstate) : option state :=
  match s with
  | Playing v _ | GameOver v _ => Some v
  | Stopped | Failed _ => None
  end.

(** What a frame does to the session bests: nothing, or the update of the
    step that ate the food. *)
Definition bests_kept (v v' : state) : Prop :=
  best_score v' = best_score v /\ best_size v' = best_size v.

Definition bests_on_eating (v v' : state) : Prop :=
  snake v' = food v :: snake v /\
  score v' = score v + 1 /\
  best_score v' = Z.max (best_score v) (score v') /\
  best_size v' = Z.max (best_size v) (Z.of_nat (List.length (snake v'))).

(** The horizontal snake of [n] cells with its head at [(x, y)]. *)
Definition row (x y : Z) (n : nat) : list cell :=
  map (fun i => (x - Z.of_nat i, y)) (seq 0 n).

(** A round in motion with "right" buffered. *)
Record cruising (x y : Z) (n : nat) (v : state) : Prop := mkCruising {
  cr_snake : snake v = row x y (S n);
  cr_next : next_direction v = Some (1, 0);
  cr_restart : restart_requested v = false;
  cr_paused : paused v = false
}.

Definition zrange (n : Z) : list Z := map Z.of_nat (seq 0 (Z.to_nat n)).

(** Every cell of the grid, row by row. *)
Definition all_cells : list cell :=
  flat_map (fun y => map (fun x => (x, y)) (zrange GRID_WIDTH)) (zrange GRID_HEIGHT).

Definition grid_fullb (snake : list cell) : bool :=
  forallb (fun c => mem c snake) all_cells.

Fixpoint distinctb (l : list cell) : bool :=
  match l with
  | [] => true
  | a :: t => negb (mem a t) && distinctb t
  end.

Fixpoint chainb (l : list cell) : bool :=
  match l with
  | a :: (b :: _) as t => (manhattan a b =? 1) && chainb t
  | _ => true
  end.

(** The buffered direction is one the next step may take: never the
    reverse of the active direction and, before the first move, a step
    that stays on the grid and off the snake. *)
Record steer_inv (v : state) : Prop := mkSteerInv {
  st_turn : forall d, direction v = Some d ->
            exists n, next_direction v = Some n /\ n <> (- fst d, - snd d);
  st_first : direction v = None ->
             forall c hx hy body,
               next_direction v = Some c -> snake v = (hx, hy) :: body ->
               in_bounds (hx + fst c, hy + snd c) = true /\
               ~ In (hx + fst c, hy + snd c) (snake v);
  st_running : running v = true;
  st_reason : game_over_reason v = "none"%string
}.

(** What the variables say on the game-over screen: the step that ended
    the round went off the grid ("wall") or onto the snake ("self"). *)
Definition over_inv (v : state) : Prop :=
  running v = false /\
  exists d hx hy body,
    direction v = Some d /\ snake v = (hx, hy) :: body /\
    ((game_over_reason v = "wall"%string /\
      in_bounds (hx + fst d, hy + snd d) = false) \/
     (game_over_reason v = "self"%string /\
      in_bounds (hx + fst d, hy + snd d) = true /\
      In (hx + fst d, hy + snd d) (snake v))).

(** The bounds that the transient timers keep. *)
Record timers_inv (v : state) : Prop := mkTimersInv {
  ti_toast : 0 <= level_toast_remaining_ms v <= 1000;
  ti_size : 0 <= size_anim_remaining_ms v <= 400;
  ti_effects : Forall (fun e => duration_ms e = 250 /\
                                0 < remaining_ms e <= 250 /\
                                in_bounds (pos e) = true)
                      (food_pop_effects v)
}.

(** ** Cells and lists *)

Lemma cell_eqb_eq (a b : cell) : cell_eqb a b = true <-> a = b.
Proof.
  destruct a as [ax ay], b as [bx by_]; unfold cell_eqb; simpl.
  rewrite andb_true_iff, !Z.eqb_eq. split.
  - intros [-> ->]; reflexivity.
  - intros H; injection H as -> ->; split; reflexivity.
Qed.

Lemma cell_eqb_neq (a b : cell) : cell_eqb a b = false <-> a <> b.
Proof.
  rewrite <- cell_eqb_eq. destruct (cell_eqb a b); split; congruence.
Qed.

Lemma mem_In (c : cell) (l : list cell) : mem c l = true <-> In c l.
Proof.
  unfold mem. rewrite existsb_exists. split.
  - intros [x [Hx He]]. apply cell_eqb_eq in He. subst; assumption.
  - intros H. exists c. split; [assumption | apply cell_eqb_eq; reflexivity].
Qed.

Lemma mem_not_In (c : cell) (l : list cell) : mem c l = false <-> ~ In c l.
Proof.
  rewrite <- mem_In. destruct (mem c l); split; congruence.
Qed.

Lemma in_bounds_iff (c : cell) :
  in_bounds c = true <->
  0 <= fst c < GRID_WIDTH /\ 0 <= snd c < GRID_HEIGHT.
Proof.
  unfold in_bounds. rewrite !andb_true_iff, !Z.leb_le, !Z.ltb_lt. lia.
Qed.

Lemma hit_wall_in_bounds (c : cell) : hit_wall c = negb (in_bounds c).
Proof.
  unfold hit_wall, in_bounds.
  rewrite !Z.geb_leb.
  destruct (Z.ltb_spec (fst c) 0), (Z.leb_spec 0 (fst c)); try lia;
  destruct (Z.leb_spec GRID_WIDTH (fst c)), (Z.ltb_spec (fst c) GRID_WIDTH); try lia;
  destruct (Z.ltb_spec (snd c) 0), (Z.leb_spec 0 (snd c)); try lia;
  destruct (Z.leb_spec GRID_HEIGHT (snd c)), (Z.ltb_spec (snd c) GRID_HEIGHT); try lia;
  reflexivity.
Qed.

Lemma hit_wall_false_iff (c : cell) :
  hit_wall c = false <-> in_bounds c = true.
Proof.
  rewrite hit_wall_in_bounds. destruct (in_bounds c); simpl; split; congruence.
Qed.

Lemma In_removelast (A : Type) (x : A) (l : list A) :
  In x (removelast l) -> In x l.
Proof.
  induction l as [|a [|b t] IH]; simpl; intros H; auto.
  destruct H as [H | H]; [left; assumption | right; apply IH; exact H].
Qed.

Lemma NoDup_removelast (A : Type) (l : list A) :
  NoDup l -> NoDup (removelast l).
Proof.
  induction l as [|a [|b t] IH]; intros H; simpl; auto.
  - constructor.
  - inversion H as [|? ? Hn Hd]; subst. constructor.
    + intros Hin. apply Hn. apply (In_removelast _ a (b :: t)). exact Hin.
    + apply IH; assumption.
Qed.

Lemma chain_removelast (l : list cell) : chain l -> chain (removelast l).
Proof.
  induction l as [|a [|b [|c t]] IH]; simpl; intros H; auto.
  destruct H as [Hab Hr]. split; [assumption | apply IH; exact Hr].
Qed.

Lemma removelast_app_last (A : Type) (l : list A) (d : A) :
  l <> [] -> l = removelast l ++ [last l d].
Proof. intros H. apply app_removelast_last. exact H. Qed.

Lemma NoDup_last_not_in_removelast (l : list cell) (d : cell) :
  l <> [] -> NoDup l -> ~ In (last l d) (removelast l).
Proof.
  intros Hne Hnd Hin.
  rewrite (removelast_app_last _ l d Hne) in Hnd.
  apply NoDup_remove_2 in Hnd. rewrite app_nil_r in Hnd. contradiction.
Qed.

Lemma length_removelast (A : Type) (l : list A) :
  l <> [] -> S (List.length (removelast l)) = List.length l.
Proof.
  destruct l as [|a t]; intros H; [congruence|].
  rewrite (removelast_app_last _ (a :: t) a H) at 2.
  rewrite length_app. simpl. lia.
Qed.

(** ** [create_initial_snake] *)

Lemma create_initial_snake_raises (length : Z) :
  create_initial_snake length = Raise ValueError <->
  length < 1 \/ length > GRID_WIDTH.
Proof.
  unfold create_initial_snake.
  destruct (length <? 1) eqn:E1; destruct (length >? GRID_WIDTH) eqn:E2; simpl;
    try apply Z.ltb_lt in E1; try apply Z.ltb_ge in E1;
    rewrite Z.gtb_ltb in E2;
    try apply Z.ltb_lt in E2; try apply Z.ltb_ge in E2;
    split; intros H; try reflexivity; try lia; try discriminate.
Qed.

Lemma create_initial_snake_ok (length : Z) (s : list cell) :
  create_initial_snake length = Ok s ->
  1 <= length <= GRID_WIDTH /\
  s = map (fun i => ((GRID_WIDTH - length) / 2 + length - 1 - Z.of_nat i,
                     GRID_HEIGHT / 2))
          (seq 0 (Z.to_nat length)).
Proof.
  unfold create_initial_snake.
  destruct (length <? 1) eqn:E1; destruct (length >? GRID_WIDTH) eqn:E2; simpl;
    try discriminate.
  apply Z.ltb_ge in E1. rewrite Z.gtb_ltb in E2. apply Z.ltb_ge in E2.
  intros H; injection H as <-. split; [lia | reflexivity].
Qed.

(** A horizontal run of [n] cells going left from [(x, y)]. *)
Lemma row_In (x y : Z) (start n : nat) (c : cell) :
  In c (map (fun i => (x - Z.of_nat i, y)) (seq start n)) <->
  snd c = y /\ x - Z.of_nat start - Z.of_nat n < fst c <= x - Z.of_nat start.
Proof.
  rewrite in_map_iff. split.
  - intros [i [<- Hi]]. apply in_seq in Hi. simpl. lia.
  - intros [Hy Hx]. exists (Z.to_nat (x - fst c)). split.
    + destruct c as [cx cy]; simpl in *. subst cy. f_equal. lia.
    + apply in_seq. lia.
Qed.

Lemma row_NoDup (x y : Z) (start n : nat) :
  NoDup (map (fun i => (x - Z.of_nat i, y)) (seq start n)).
Proof.
  revert start. induction n as [|n IH]; intros start; simpl.
  - constructor.
  - constructor; [| apply IH].
    intros Hin. apply row_In in Hin. simpl in Hin. lia.
Qed.

Lemma row_chain (x y : Z) (start n : nat) :
  chain (map (fun i => (x - Z.of_nat i, y)) (seq start n)).
Proof.
  revert start. induction n as [|n IH]; intros start; [exact I|].
  specialize (IH (S start)).
  destruct n as [|n]; [exact I|].
  simpl in *. split; [| exact IH].
  unfold manhattan; simpl. lia.
Qed.

(** ** [random_food_position] *)

Lemma randint_range (lo hi : Z) (r : rng) (x : Z) (r' : rng) :
  randint lo hi r = Ok (x, r') ->
  lo <= x <= hi /\ x = lo + r O mod (hi - lo + 1) /\ r' = rng_tail r.
Proof.
  unfold randint. destruct (Z.ltb_spec hi lo) as [Hlt|Hge]; [discriminate|].
  intros E; injection E as <- <-.
  pose proof (Z.mod_pos_bound (r O) (hi - lo + 1)).
  repeat split; lia.
Qed.

Lemma randint_raises (lo hi : Z) (r : rng) (e : exn) :
  randint lo hi r = Raise e -> hi < lo /\ e = ValueError.
Proof.
  unfold randint. destruct (Z.ltb_spec hi lo) as [Hlt|Hge]; [|discriminate].
  intros E; injection E as <-. split; [assumption | reflexivity].
Qed.

(** Whatever [random_food_position] returns lies on the grid and off the
    snake. *)
Lemma random_food_position_sound (fuel : nat) (r : rng) (snake : list cell)
    (p : cell) (r' : rng) :
  random_food_position fuel r snake = Some (Ok (p, r')) ->
  in_bounds p = true /\ ~ In p snake.
Proof.
  revert r. induction fuel as [|fuel IH]; intros r; simpl; [discriminate|].
  destruct (randint 0 (GRID_WIDTH - 1) r) as [[x r1]|e] eqn:Ex; [|discriminate].
  destruct (randint 0 (GRID_HEIGHT - 1) r1) as [[y r2]|e] eqn:Ey; [|discriminate].
  destruct (mem (x, y) snake) eqn:Em; simpl.
  - apply IH.
  - intros H; injection H as <- <-.
    apply randint_range in Ex. apply randint_range in Ey.
    split.
    + apply in_bounds_iff. simpl. lia.
    + apply mem_not_In. exact Em.
Qed.

(** It raises only when a grid dimension is not positive. *)
Lemma random_food_position_raises (fuel : nat) (r : rng) (snake : list cell)
    (e : exn) :
  random_food_position fuel r snake = Some (Raise e) ->
  (GRID_WIDTH <= 0 \/ GRID_HEIGHT <= 0) /\ e = ValueError.
Proof.
  revert r. induction fuel as [|fuel IH]; intros r; simpl; [discriminate|].
  destruct (randint 0 (GRID_WIDTH - 1) r) as [[x r1]|e1] eqn:Ex.
  - destruct (randint 0 (GRID_HEIGHT - 1) r1) as [[y r2]|e2] eqn:Ey.
    + destruct (mem (x, y) snake); simpl; [apply IH | discriminate].
    + intros H; injection H as <-. apply randint_raises in Ey. split; [lia | tauto].
  - intros H; injection H as <-. apply randint_raises in Ex. split; [lia | tauto].
Qed.

Lemma random_food_position_unfold (fuel : nat) (r : rng) (snake : list cell) :
  0 < GRID_WIDTH -> 0 < GRID_HEIGHT ->
  random_food_position (S fuel) r snake =
  if negb (mem (draw r 0) snake)
  then Some (Ok (draw r 0, rng_tail (rng_tail r)))
  else random_food_position fuel (rng_tail (rng_tail r)) snake.
Proof.
  intros HW HH. simpl. unfold randint.
  destruct (Z.ltb_spec (GRID_WIDTH - 1) 0); [lia|].
  destruct (Z.ltb_spec (GRID_HEIGHT - 1) 0); [lia|].
  reflexivity.
Qed.

Lemma draw_tail (r : rng) (k : nat) :
  draw (rng_tail (rng_tail r)) k = draw r (S k).
Proof.
  unfold draw, rng_tail.
  replace (2 * S k)%nat with (S (S (2 * k))) by lia.
  replace (S (S (2 * k)) + 1)%nat with (S (S (2 * k + 1))) by lia.
  reflexivity.
Qed.

Lemma draw_in_bounds (r : rng) (k : nat) :
  0 < GRID_WIDTH -> 0 < GRID_HEIGHT -> in_bounds (draw r k) = true.
Proof.
  intros HW HH. apply in_bounds_iff. unfold draw; cbn [fst snd].
  pose proof (Z.mod_pos_bound (r (2 * k)%nat) (GRID_WIDTH - 1 - 0 + 1)).
  pose proof (Z.mod_pos_bound (r (2 * k + 1)%nat) (GRID_HEIGHT - 1 - 0 + 1)).
  lia.
Qed.

(** On a covered grid the loop never ends: every draw is rejected. *)
Lemma random_food_position_full (fuel : nat) (r : rng) (snake : list cell) :
  0 < GRID_WIDTH -> 0 < GRID_HEIGHT -> grid_full snake ->
  random_food_position fuel r snake = None.
Proof.
  intros HW HH Hfull. revert r.
  induction fuel as [|fuel IH]; intros r; [reflexivity|].
  rewrite random_food_position_unfold by assumption.
  assert (Hm : mem (draw r 0) snake = true).
  { apply mem_In. apply Hfull. apply draw_in_bounds; assumption. }
  rewrite Hm. simpl. apply IH.
Qed.

(** As soon as some draw of the stream is a free cell, the loop returns the
    first such draw. *)
Lemma random_food_position_returns (k : nat) (r : rng) (snake : list cell) :
  0 < GRID_WIDTH -> 0 < GRID_HEIGHT ->
  ~ In (draw r k) snake ->
  exists p r', random_food_position (S k) r snake = Some (Ok (p, r')).
Proof.
  intros HW HH. revert r.
  induction k as [|k IH]; intros r Hfree;
    rewrite random_food_position_unfold by assumption.
  - apply mem_not_In in Hfree. rewrite Hfree. simpl. eauto.
  - destruct (mem (draw r 0) snake) eqn:Em; simpl; [|eauto].
    apply IH. rewrite draw_tail. exact Hfree.
Qed.

(** More fuel does not change a result. *)
Lemma random_food_position_mono (fuel fuel' : nat) (r : rng)
    (snake : list cell) (o : result (cell * rng)) :
  (fuel <= fuel')%nat ->
  random_food_position fuel r snake = Some o ->
  random_food_position fuel' r snake = Some o.
Proof.
  revert fuel' r. induction fuel as [|fuel IH]; intros fuel' r Hle; simpl;
    [discriminate|].
  destruct fuel' as [|fuel']; [lia|]. simpl.
  destruct (randint 0 (GRID_WIDTH - 1) r) as [[x r1]|e1]; [|auto].
  destruct (randint 0 (GRID_HEIGHT - 1) r1) as [[y r2]|e2]; [|auto].
  destruct (mem (x, y) snake); simpl; [|auto].
  apply IH. lia.
Qed.

(** Enough fuel: any number of iterations beyond the first free draw. *)
Lemma random_food_position_enough (k fuel : nat) (r : rng) (snake : list cell) :
  0 < GRID_WIDTH -> 0 < GRID_HEIGHT ->
  ~ In (draw r k) snake -> (k < fuel)%nat ->
  exists p r', random_food_position fuel r snake = Some (Ok (p, r')).
Proof.
  intros HW HH Hfree Hlt.
  destruct (random_food_position_returns k r snake HW HH Hfree) as (p & r' & E).
  exists p, r'. apply random_food_position_mono with (fuel := S k); [lia | exact E].
Qed.

(** Every free cell can be drawn. *)
Lemma draw_any (c : cell) :
  in_bounds c = true -> draw (fun n => if Nat.even n then fst c else snd c) 0 = c.
Proof.
  intros H. apply in_bounds_iff in H. unfold draw; simpl.
  destruct c as [x y]; simpl in *.
  rewrite !Z.mod_small by lia. reflexivity.
Qed.

Lemma row_nth_error (x y : Z) (n i : nat) :
  (i < n)%nat ->
  nth_error (map (fun i => (x - Z.of_nat i, y)) (seq 0 n)) i
  = Some (x - Z.of_nat i, y).
Proof.
  intros Hi.
  rewrite nth_error_map.
  rewrite nth_error_seq.
  destruct (Nat.ltb_spec i n); [reflexivity | lia].
Qed.

Lemma row_last (x y : Z) (n : nat) (d : cell) :
  last (map (fun i => (x - Z.of_nat i, y)) (seq 0 (S n))) d
  = (x - Z.of_nat n, y).
Proof.
  rewrite seq_S, map_app. simpl. apply last_last.
Qed.

(** C9. [create_initial_snake(L)] raises the configuration error exactly
    when [L < 1] or [L > GRID_WIDTH]; otherwise it returns [L] cells in the
    row [GRID_HEIGHT // 2], the [i]-th one [i] columns left of the head, with
    the tail in column [(GRID_WIDTH - L) // 2] and the head in column
    [tail_x + L - 1]. *)
Theorem C9_initial_placement (L : Z) :
  (create_initial_snake L = Raise ValueError <-> L < 1 \/ L > GRID_WIDTH) /\
  (~ (L < 1 \/ L > GRID_WIDTH) ->
   let tail_x := (GRID_WIDTH - L) / 2 in
   let head_x := tail_x + L - 1 in
   let y := GRID_HEIGHT / 2 in
   exists s,
     create_initial_snake L = Ok s /\
     Z.of_nat (List.length s) = L /\
     hd_error s = Some (head_x, y) /\
     last s (0, 0) = (tail_x, y) /\
     forall i, (i < List.length s)%nat ->
               nth_error s i = Some (head_x - Z.of_nat i, y)).
Proof.
  split; [apply create_initial_snake_raises|].
  intros Hfit tail_x head_x y.
  destruct (create_initial_snake L) as [s|e] eqn:E.
  - apply create_initial_snake_ok in E. destruct E as [HL Hs].
    exists s. split; [reflexivity|].
    fold tail_x in Hs. fold head_x in Hs. fold y in Hs.
    assert (Hlen : List.length s = Z.to_nat L).
    { rewrite Hs, length_map, length_seq. reflexivity. }
    split; [lia|].
    destruct (Z.to_nat L) as [|n] eqn:En; [lia|].
    repeat split.
    + rewrite Hs. simpl. repeat f_equal. lia.
    + rewrite Hs, row_last. f_equal. unfold head_x. lia.
    + intros i Hi. rewrite Hs. apply row_nth_error. lia.
  - exfalso. apply Hfit. apply create_initial_snake_raises.
    unfold create_initial_snake in *.
    destruct ((L <? 1) || (L >? GRID_WIDTH)); [reflexivity | discriminate].
Qed.

(** C8 (as the code has it).  [random_food_position] has no guard for a
    covered grid: on a snake that occupies every cell it rejects every draw
    and never returns, whatever the random stream.  Whenever it returns, the
    cell is on the grid and off the snake; and it does return as soon as the
    stream draws a free cell, which every free cell can be. *)
Theorem C8_food_placement (snake : list cell) :
  0 < GRID_WIDTH -> 0 < GRID_HEIGHT ->
  (grid_full snake ->
   forall fuel r, random_food_position fuel r snake = None) /\
  (forall fuel r p r',
     random_food_position fuel r snake = Some (Ok (p, r')) ->
     in_bounds p = true /\ ~ In p snake) /\
  (forall r k fuel, ~ In (draw r k) snake -> (k < fuel)%nat ->
     exists p r', random_food_position fuel r snake = Some (Ok (p, r'))) /\
  (forall c, in_bounds c = true -> ~ In c snake ->
     exists r fuel r', random_food_position fuel r snake = Some (Ok (c, r'))).
Proof.
  intros HW HH. repeat split.
  - intros Hfull fuel r. apply random_food_position_full; assumption.
  - eapply random_food_position_sound; eassumption.
  - eapply random_food_position_sound; eassumption.
  - intros r k fuel Hfree Hlt.
    apply random_food_position_enough with (k := k); assumption.
  - intros c Hc Hfree.
    exists (fun n => if Nat.even n then fst c else snd c), 1%nat.
    rewrite random_food_position_unfold by assumption.
    rewrite draw_any by assumption.
    apply mem_not_In in Hfree. rewrite Hfree. simpl. eauto.
Qed.

(** ** The simulation step *)

Lemma tick_wall fuel r d v hx hy body :
  snake v = (hx, hy) :: body ->
  hit_wall (hx + fst d, hy + snd d) = true ->
  tick fuel r d v = Some (RoundOver (collided "wall" v) r).
Proof.
  intros Hs Hw. unfold tick. rewrite Hs. destruct d as [dx dy]. simpl in *.
  rewrite Hw. reflexivity.
Qed.

Lemma tick_self fuel r d v hx hy body :
  snake v = (hx, hy) :: body ->
  hit_wall (hx + fst d, hy + snd d) = false ->
  mem (hx + fst d, hy + snd d)
      (if cell_eqb (hx + fst d, hy + snd d) (food v)
       then snake v else removelast (snake v)) = true ->
  tick fuel r d v = Some (RoundOver (collided "self" v) r).
Proof.
  intros Hs Hw Hm. unfold tick. destruct d as [dx dy]. simpl in *.
  rewrite Hs in *. rewrite Hw, Hm. reflexivity.
Qed.

Lemma tick_move fuel r d v hx hy body :
  snake v = (hx, hy) :: body ->
  hit_wall (hx + fst d, hy + snd d) = false ->
  cell_eqb (hx + fst d, hy + snd d) (food v) = false ->
  mem (hx + fst d, hy + snd d) (removelast (snake v)) = false ->
  tick fuel r d v = Some (NextFrame (moved (hx + fst d, hy + snd d) v) r).
Proof.
  intros Hs Hw Hf Hm. unfold tick, moved. destruct d as [dx dy]. simpl in *.
  rewrite Hs in *. rewrite Hw, Hf, Hm. reflexivity.
Qed.

Lemma tick_grow fuel r d v hx hy body :
  snake v = (hx, hy) :: body ->
  hit_wall (hx + fst d, hy + snd d) = false ->
  cell_eqb (hx + fst d, hy + snd d) (food v) = true ->
  mem (hx + fst d, hy + snd d) (snake v) = false ->
  tick fuel r d v =
  match random_food_position fuel r ((hx + fst d, hy + snd d) :: snake v) with
  | None => None
  | Some (Raise e) => Some (Raised e)
  | Some (Ok (p, r')) => Some (NextFrame (grew (hx + fst d, hy + snd d) p v) r')
  end.
Proof.
  intros Hs Hw Hf Hm. unfold tick, grew. destruct d as [dx dy]. simpl in *.
  rewrite Hs in *. rewrite Hw, Hf, Hm. simpl.
  destruct (random_food_position fuel r ((hx + dx, hy + dy) :: (hx, hy) :: body))
    as [[[p r']|e]|]; reflexivity.
Qed.

Lemma outside_hit_wall (c : cell) :
  fst c < 0 \/ fst c >= GRID_WIDTH \/ snd c < 0 \/ snd c >= GRID_HEIGHT <->
  hit_wall c = true.
Proof.
  rewrite hit_wall_in_bounds, negb_true_iff.
  destruct (in_bounds c) eqn:E.
  - apply in_bounds_iff in E. split; [lia | discriminate].
  - split; [reflexivity|]. intros _.
    destruct (Z.ltb_spec (fst c) 0); [lia|].
    destruct (Z.ltb_spec (fst c) GRID_WIDTH); [|lia].
    destruct (Z.ltb_spec (snd c) 0); [lia|].
    destruct (Z.ltb_spec (snd c) GRID_HEIGHT); [|lia].
    assert (in_bounds c = true) by (apply in_bounds_iff; lia). congruence.
Qed.

(** C4. A step whose new head is off the grid ends the round with reason
    "wall", also when the new head is on the body as well; a step whose new
    head is on the grid, is not the food and lies on the snake without its
    tail cell ends it with reason "self"; in both cases only
    [game_over_reason] and [running] are written: snake, score and food
    stay as they were. *)
Theorem C4_collision (fuel : nat) (r : rng) (d : Z * Z) (v : state)
    (hx hy : Z) (body : list cell) :
  snake v = (hx, hy) :: body ->
  let new_head := (hx + fst d, hy + snd d) in
  (fst new_head < 0 \/ fst new_head >= GRID_WIDTH \/
   snd new_head < 0 \/ snd new_head >= GRID_HEIGHT ->
   exists v', tick fuel r d v = Some (RoundOver v' r) /\
              v' = set_running false (set_game_over_reason "wall" v) /\
              game_over_reason v' = "wall"%string /\ running v' = false /\
              snake v' = snake v /\ score v' = score v /\ food v' = food v) /\
  (0 <= fst new_head < GRID_WIDTH /\ 0 <= snd new_head < GRID_HEIGHT ->
   new_head <> food v ->
   In new_head (removelast (snake v)) ->
   exists v', tick fuel r d v = Some (RoundOver v' r) /\
              v' = set_running false (set_game_over_reason "self" v) /\
              game_over_reason v' = "self"%string /\ running v' = false /\
              snake v' = snake v /\ score v' = score v /\ food v' = food v).
Proof.
  intros Hs new_head. split.
  - intros Hout. apply outside_hit_wall in Hout.
    exists (collided "wall" v). split; [|repeat split].
    eapply tick_wall; eassumption.
  - intros Hin Hfood Hbody.
    exists (collided "self" v). split; [|repeat split].
    eapply tick_self; [eassumption | |].
    + apply hit_wall_false_iff, in_bounds_iff. exact Hin.
    + apply cell_eqb_neq in Hfood. fold new_head. rewrite Hfood.
      apply mem_In. exact Hbody.
Qed.

(** C2. Not growing, the head may enter the cell of the snake's own tail:
    for a snake of at least two distinct cells whose tail is on the grid,
    such a step goes on to the next frame with the tail cell as the new head
    and the old tail dropped.  In general a step whose new head is on the
    grid ends the round exactly when the new head is on the whole snake
    (growing) or on the snake without its last cell (not growing). *)
Theorem C2_tail_follow (fuel : nat) (r : rng) (d : Z * Z) (v : state)
    (hx hy : Z) (body : list cell) :
  snake v = (hx, hy) :: body ->
  let new_head := (hx + fst d, hy + snd d) in
  in_bounds new_head = true ->
  ((2 <= List.length (snake v))%nat ->
   NoDup (snake v) ->
   new_head = last (snake v) (hx, hy) ->
   new_head <> food v ->
   exists v', tick fuel r d v = Some (NextFrame v' r) /\
              snake v' = new_head :: removelast (snake v) /\
              List.length (snake v') = List.length (snake v) /\
              score v' = score v /\ food v' = food v /\
              game_over_reason v' = game_over_reason v) /\
  ((exists v', tick fuel r d v = Some (RoundOver v' r)) <->
   In new_head (if cell_eqb new_head (food v)
                then snake v else removelast (snake v))).
Proof.
  intros Hs new_head Hin.
  assert (Hw : hit_wall new_head = false) by (apply hit_wall_false_iff; exact Hin).
  assert (Hne : snake v <> []) by (rewrite Hs; discriminate).
  split.
  - intros Hlen Hnd Htail Hfood.
    exists (moved new_head v).
    assert (Hm : mem new_head (removelast (snake v)) = false).
    { apply mem_not_In. rewrite Htail.
      apply NoDup_last_not_in_removelast; assumption. }
    split.
    + eapply tick_move; try eassumption. apply cell_eqb_neq. exact Hfood.
    + unfold moved; cbn [snake set_snake score food game_over_reason].
      repeat split.
      * rewrite Hs. reflexivity.
      * pose proof (length_removelast _ (new_head :: snake v)) as Hl.
        simpl List.length in Hl. apply eq_add_S, Hl. discriminate.
  - destruct (mem new_head (if cell_eqb new_head (food v)
                            then snake v else removelast (snake v))) eqn:Em.
    + split; intros _.
      * apply mem_In. exact Em.
      * eexists. eapply tick_self; eassumption.
    + split.
      * intros [v' Ht]. exfalso.
        destruct (cell_eqb new_head (food v)) eqn:Ef.
        -- rewrite (tick_grow _ _ _ _ _ _ _ Hs Hw Ef Em) in Ht.
           destruct (random_food_position fuel r ((hx + fst d, hy + snd d) :: snake v))
             as [[[p r']|e]|]; discriminate.
        -- rewrite (tick_move _ _ _ _ _ _ _ Hs Hw Ef Em) in Ht. discriminate.
      * intros Hc. apply mem_In in Hc. exfalso. exact (eq_true_false_abs _ Hc Em).
Qed.

(** C3 (as the code has it).  When the new head is the food cell and
    nothing is hit, the step prepends the head, adds one to the score and
    draws cells until one is off the grown snake.  It completes as soon as
    the random stream draws a free cell; whenever it completes, it goes on
    to the next frame with the snake one longer, the score one higher and
    the food on a grid cell that is not a cell of the grown snake.  When the
    grown snake covers the grid, the step never completes. *)
Theorem C3_growth (r : rng) (d : Z * Z) (v : state)
    (hx hy : Z) (body : list cell) :
  snake v = (hx, hy) :: body ->
  let new_head := (hx + fst d, hy + snd d) in
  new_head = food v ->
  in_bounds new_head = true ->
  ~ In new_head (snake v) ->
  let grown v' :=
    snake v' = new_head :: snake v /\
    List.length (snake v') = S (List.length (snake v)) /\
    score v' = score v + 1 /\
    in_bounds (food v') = true /\
    ~ In (food v') (snake v') in
  (forall k fuel, ~ In (draw r k) (new_head :: snake v) -> (k < fuel)%nat ->
     exists v' r', tick fuel r d v = Some (NextFrame v' r') /\ grown v') /\
  (forall fuel o, tick fuel r d v = Some o ->
     exists v' r', o = NextFrame v' r' /\ grown v') /\
  (grid_full (new_head :: snake v) -> forall fuel, tick fuel r d v = None).
Proof.
  intros Hs new_head Hfood Hin Hfree grown.
  assert (Hw : hit_wall new_head = false) by (apply hit_wall_false_iff; exact Hin).
  assert (Hf : cell_eqb new_head (food v) = true) by (apply cell_eqb_eq; exact Hfood).
  assert (Hm : mem new_head (snake v) = false) by (apply mem_not_In; exact Hfree).
  assert (Hdims : 0 < GRID_WIDTH /\ 0 < GRID_HEIGHT).
  { apply in_bounds_iff in Hin. lia. }
  assert (Hpart : forall fuel o, tick fuel r d v = Some o ->
                    exists v' r', o = NextFrame v' r' /\ grown v').
  { intros fuel o Ht.
    rewrite (tick_grow _ _ _ _ _ _ _ Hs Hw Hf Hm) in Ht.
    fold new_head in Ht.
    destruct (random_food_position fuel r (new_head :: snake v))
      as [[[p r']|e]|] eqn:Er; [| |discriminate].
    - injection Ht as <-. do 2 eexists. split; [reflexivity|].
      apply random_food_position_sound in Er. destruct Er as [Hp Hq].
      unfold grown; cbn [snake food score].
      repeat split; assumption.
    - apply random_food_position_raises in Er. lia. }
  split; [|split; [exact Hpart|]].
  - intros k fuel Hk Hlt.
    destruct (random_food_position_enough k fuel r (new_head :: snake v))
      as [p [r' Er]]; try tauto.
    destruct (tick fuel r d v) as [o|] eqn:Et.
    + destruct (Hpart _ _ Et) as [v' [r'' [-> Hg]]]. eauto.
    + rewrite (tick_grow _ _ _ _ _ _ _ Hs Hw Hf Hm) in Et.
      fold new_head in Et. rewrite Er in Et. discriminate.
  - intros Hfull fuel.
    rewrite (tick_grow _ _ _ _ _ _ _ Hs Hw Hf Hm). fold new_head.
    rewrite random_food_position_full; tauto.
Qed.

(** ** Event handling *)

Lemma key_to_dir_unit (k : key) (c : Z * Z) :
  key_to_dir k = Some c -> unit_vector c.
Proof.
  unfold unit_vector.
  destruct k; simpl; intros H; try discriminate; injection H as <-; auto.
Qed.

Lemma handle_event_effect (ev : event) (v v' : state) :
  handle_event ev v = Ok v' -> event_effect v v'.
Proof.
  destruct ev as [|k|]; simpl; [discriminate| |intros H; injection H as <-; constructor].
  destruct k; simpl; try discriminate;
    try (intros H; injection H as <-; constructor; fail).
  all: match goal with
       | |- context [Some ?c] => assert (Hu : unit_vector c) by (unfold unit_vector; auto)
       end.
  all: destruct (direction v) as [d|];
    [ match goal with |- context [if ?b then _ else _] => destruct b end;
      intros H; injection H as <-; constructor; assumption
    | destruct (snake v) as [|[hx hy] body]; [discriminate|];
      match goal with |- context [if ?b then _ else _] => destruct b end;
      intros H; injection H as <-; constructor; assumption ].
Qed.

Lemma sim_frozen_refl (v : state) : sim_frozen v v.
Proof. constructor; auto. Qed.

Lemma sim_frozen_trans (a b c : state) :
  sim_frozen a b -> sim_frozen b c -> sim_frozen a c.
Proof.
  intros [] []. constructor; try congruence.
  destruct fr_toast1 as [E|E]; [rewrite E; assumption | right; assumption].
Qed.

Lemma event_effect_frozen (v v' : state) :
  event_effect v v' -> sim_frozen v v'.
Proof. intros []; constructor; simpl; auto. Qed.

Lemma handle_events_frozen (evs : list event) (v v' : state) :
  handle_events evs v = Ok v' -> sim_frozen v v'.
Proof.
  revert v. induction evs as [|ev evs IH]; intros v; simpl.
  - intros H; injection H as <-. apply sim_frozen_refl.
  - destruct (handle_event ev v) as [v1|e] eqn:E; [|discriminate].
    intros H. eapply sim_frozen_trans.
    + apply event_effect_frozen, handle_event_effect with (1 := E).
    + apply IH. exact H.
Qed.

Lemma unit_vector_not_zero (hx hy : Z) (c : Z * Z) :
  unit_vector c -> (hx + fst c, hy + snd c) <> (hx, hy).
Proof.
  intros [-> | [-> | [-> | ->]]]; simpl; intros H; injection H; lia.
Qed.

(** The directional branch of the event handler, for a key that
    [key_to_dir] maps to [c]. *)
Lemma handle_event_direction (k : key) (c : Z * Z) (v : state) :
  key_to_dir k = Some c ->
  handle_event (KEYDOWN k) v =
    match direction v with
    | None =>
      match snake v with
      | [] => Raise IndexError
      | (hx, hy) :: _ =>
        if in_bounds (hx + fst c, hy + snd c)
           && negb (mem (hx + fst c, hy + snd c) (tl (snake v)))
        then Ok (set_next_direction (Some c) v) else Ok v
      end
    | Some d =>
      if negb (cell_eqb c (- fst d, - snd d))
      then Ok (set_next_direction (Some c) v) else Ok v
    end.
Proof.
  intros Hk.
  destruct k; simpl in Hk; try discriminate; injection Hk as <-; reflexivity.
Qed.


(** ** Frames *)

Lemma frame_paused (fuel : nat) (r : rng) (now_ms : Z) (events : list event)
    (v v1 : state) :
  handle_events events (set_last_tick_ms now_ms v) = Ok v1 ->
  restart_requested v1 = false -> paused v1 = true ->
  frame fuel r now_ms events v = Some (NextFrame v1 r).
Proof.
  intros He Hr Hp. unfold frame. rewrite He, Hr, Hp. reflexivity.
Qed.

Lemma frame_restart (fuel : nat) (r : rng) (now_ms : Z) (events : list event)
    (v v1 : state) :
  handle_events events (set_last_tick_ms now_ms v) = Ok v1 ->
  restart_requested v1 = true ->
  frame fuel r now_ms events v = Some (Restarting v1 r).
Proof.
  intros He Hr. unfold frame. rewrite He, Hr. reflexivity.
Qed.


(** ** Inversion of a step and of a frame *)

Lemma tick_inversion (fuel : nat) (r : rng) (d : Z * Z) (v : state) (o : outcome) :
  tick fuel r d v = Some o -> tick_spec r d v o.
Proof.
  destruct (snake v) as [|[hx hy] body] eqn:Hs.
  - unfold tick. rewrite Hs. intros H; injection H as <-. constructor. exact Hs.
  - destruct (hit_wall (hx + fst d, hy + snd d)) eqn:Hw.
    { rewrite (tick_wall _ _ _ _ _ _ _ Hs Hw). intros H; injection H as <-.
      econstructor; eassumption. }
    destruct (mem (hx + fst d, hy + snd d)
               (if cell_eqb (hx + fst d, hy + snd d) (food v)
                then snake v else removelast (snake v))) eqn:Hm.
    { rewrite (tick_self _ _ _ _ _ _ _ Hs Hw Hm). intros H; injection H as <-.
      econstructor; eassumption. }
    destruct (cell_eqb (hx + fst d, hy + snd d) (food v)) eqn:Hf.
    + rewrite (tick_grow _ _ _ _ _ _ _ Hs Hw Hf Hm).
      destruct (random_food_position fuel r ((hx + fst d, hy + snd d) :: snake v))
        as [[[p r']|e]|] eqn:Er; [| |discriminate];
        intros H; injection H as <-.
      * eapply ts_grow; eassumption.
      * eapply ts_raise; eassumption.
    + rewrite (tick_move _ _ _ _ _ _ _ Hs Hw Hf Hm). intros H; injection H as <-.
      econstructor; eassumption.
Qed.

Lemma frame_inversion (fuel : nat) (r : rng) (now_ms : Z) (events : list event)
    (v : state) (o : outcome) :
  frame fuel r now_ms events v = Some o -> frame_spec fuel r now_ms events v o.
Proof.
  unfold frame.
  destruct (handle_events events (set_last_tick_ms now_ms v)) as [v1|e] eqn:He.
  - destruct (restart_requested v1) eqn:Hr.
    { intros H; injection H as <-. apply fs_restart; assumption. }
    destruct (paused v1) eqn:Hp.
    { intros H; injection H as <-. apply fs_paused; assumption. }
    fold (take_next_direction v1).
    destruct (direction (take_next_direction v1)) as [d|] eqn:Hd.
    + intros H. eapply fs_tick; eassumption.
    + intros H; injection H as <-. apply fs_idle; assumption.
  - intros H; injection H as <-. apply fs_raise; assumption.
Qed.

(** ** Invariants *)

Lemma round_inv_ext (v v' : state) :
  snake v' = snake v -> food v' = food v ->
  direction_ok (direction v') -> direction_ok (next_direction v') ->
  round_inv v -> round_inv v'.
Proof.
  intros Hs Hf Hd Hn [].
  constructor; rewrite ?Hs, ?Hf; assumption.
Qed.

Lemma session_inv_ext (v v' : state) :
  snake v' = snake v -> score v' = score v ->
  best_score v' = best_score v -> best_size v' = best_size v ->
  session_inv v -> session_inv v'.
Proof.
  intros Hs Hc Hb Hz [].
  constructor; rewrite ?Hs, ?Hc, ?Hb, ?Hz; assumption.
Qed.

Lemma event_effect_inv (v v' : state) :
  event_effect v v' -> state_inv v -> state_inv v'.
Proof.
  intros He [Hr Hs]. split.
  - destruct Hr. destruct He; constructor; simpl; assumption.
  - destruct Hs. destruct He; constructor; simpl; assumption.
Qed.

Lemma handle_events_inv (evs : list event) (v v' : state) :
  handle_events evs v = Ok v' -> state_inv v -> state_inv v'.
Proof.
  revert v. induction evs as [|ev evs IH]; intros v; simpl.
  - intros H; injection H as <-. auto.
  - destruct (handle_event ev v) as [v1|e] eqn:E; [|discriminate].
    intros H Hi. apply (IH _ H).
    eapply event_effect_inv; [eapply handle_event_effect; exact E | exact Hi].
Qed.

Lemma take_next_direction_inv (v : state) :
  state_inv v -> state_inv (take_next_direction v).
Proof.
  intros [Hr Hs]. unfold take_next_direction.
  destruct (next_direction v) as [nd|] eqn:E; [|split; assumption].
  split.
  - destruct Hr. constructor; simpl; try assumption.
    rewrite E in inv_next_direction0. exact inv_next_direction0.
  - destruct Hs. constructor; simpl; assumption.
Qed.

Lemma update_timers_fields (dt_ms : Z) (v : state) :
  snake (update_timers dt_ms v) = snake v /\
  food (update_timers dt_ms v) = food v /\
  score (update_timers dt_ms v) = score v /\
  direction (update_timers dt_ms v) = direction v /\
  next_direction (update_timers dt_ms v) = next_direction v /\
  best_score (update_timers dt_ms v) = best_score v /\
  best_size (update_timers dt_ms v) = best_size v.
Proof.
  unfold update_timers.
  destruct (level_toast_remaining_ms v >? 0);
    cbn [size_anim_remaining_ms set_level_toast_remaining_ms];
    destruct (size_anim_remaining_ms v >? 0); simpl; repeat split.
Qed.

Lemma update_timers_inv (dt_ms : Z) (v : state) :
  state_inv v -> state_inv (update_timers dt_ms v).
Proof.
  intros [Hr Hs].
  destruct (update_timers_fields dt_ms v) as (E1 & E2 & E3 & E4 & E5 & E6 & E7).
  split.
  - eapply round_inv_ext; [exact E1 | exact E2 | | | exact Hr].
    + rewrite E4. apply Hr.
    + rewrite E5. apply Hr.
  - eapply session_inv_ext; [exact E1 | exact E3 | exact E6 | exact E7 | exact Hs].
Qed.

Lemma unit_vector_manhattan (hx hy : Z) (d : Z * Z) :
  unit_vector d -> manhattan (hx + fst d, hy + snd d) (hx, hy) = 1.
Proof.
  intros [-> | [-> | [-> | ->]]]; unfold manhattan; simpl; lia.
Qed.

Lemma tick_spec_inv (r : rng) (d : Z * Z) (v : state) (o : outcome) (v' : state) :
  tick_spec r d v o -> unit_vector d -> state_inv v ->
  outcome_state o = Some v' -> state_inv v'.
Proof.
  intros Ht Hd [Hr Hs] Ho.
  destruct Ht as [ | hx hy body Hsn Hw | hx hy body Hsn Hw Hm
                  | hx hy body Hsn Hw Hf Hm
                  | hx hy body fuel p r' Hsn Hw Hf Hm Hp
                  | hx hy body fuel e Hsn Hp ];
    simpl in Ho; try discriminate; injection Ho as <-.
  - split.
    + eapply round_inv_ext; [ | | | | exact Hr]; try reflexivity; apply Hr.
    + eapply session_inv_ext; [ | | | | exact Hs]; reflexivity.
  - split.
    + eapply round_inv_ext; [ | | | | exact Hr]; try reflexivity; apply Hr.
    + eapply session_inv_ext; [ | | | | exact Hs]; reflexivity.
  - (* moved *)
    set (nh := (hx + fst d, hy + snd d)) in *.
    assert (Hnh : in_bounds nh = true) by (apply hit_wall_false_iff; exact Hw).
    apply cell_eqb_neq in Hf. apply mem_not_In in Hm.
    destruct Hr as [Hne Hnd Hch Hfo Hin Hfi Hdi Hnx].
    split.
    + constructor; unfold moved; cbn [snake set_snake food direction next_direction];
        try assumption.
      * rewrite Hsn. discriminate.
      * change (removelast (nh :: snake v)) with
          (match snake v with [] => [] | _ :: _ => nh :: removelast (snake v) end).
        rewrite Hsn. rewrite <- Hsn.
        constructor; [exact Hm | apply NoDup_removelast; exact Hnd].
      * apply chain_removelast. rewrite Hsn. split.
        -- apply unit_vector_manhattan. exact Hd.
        -- rewrite <- Hsn. exact Hch.
      * intros Hc. apply In_removelast in Hc. destruct Hc as [Hc | Hc].
        -- apply Hf. exact Hc.
        -- apply Hfo. exact Hc.
      * intros c Hc. apply In_removelast in Hc. destruct Hc as [<- | Hc].
        -- exact Hnh.
        -- apply Hin. exact Hc.
    + destruct Hs as [H1 H2 H3 H4 H5].
      pose proof (length_removelast _ (nh :: snake v)) as Hl.
      simpl List.length in Hl.
      assert (Hlen : List.length (removelast (nh :: snake v)) = List.length (snake v))
        by (apply eq_add_S, Hl; discriminate).
      assert (Hlen' : Z.of_nat (List.length (removelast (nh :: snake v)))
                      = Z.of_nat (List.length (snake v)))
        by (f_equal; exact Hlen).
      constructor; unfold moved; cbn [snake set_snake best_size best_score score];
        try assumption.
      * apply Z.le_trans with (2 := H4). apply Z.eq_le_incl. exact Hlen'.
      * apply eq_trans with (2 := H5). exact Hlen'.
  - (* grew *)
    set (nh := (hx + fst d, hy + snd d)) in *.
    assert (Hnh : in_bounds nh = true) by (apply hit_wall_false_iff; exact Hw).
    apply mem_not_In in Hm.
    apply random_food_position_sound in Hp. destruct Hp as [Hp1 Hp2].
    destruct Hr as [Hne Hnd Hch Hfo Hin Hfi Hdi Hnx].
    split.
    + constructor; unfold grew; cbn [snake food direction next_direction];
        try assumption.
      * discriminate.
      * constructor; assumption.
      * rewrite Hsn. split.
        -- apply unit_vector_manhattan. exact Hd.
        -- rewrite <- Hsn. exact Hch.
      * intros c [<- | Hc]; [exact Hnh | apply Hin; exact Hc].
    + destruct Hs as [H1 H2 H3 H4 H5].
      constructor; unfold grew; cbn [snake best_size best_score score List.length];
        lia.
Qed.

Lemma frame_inv (fuel : nat) (r : rng) (now_ms : Z) (events : list event)
    (v : state) (o : outcome) (v' : state) :
  frame fuel r now_ms events v = Some o -> state_inv v ->
  outcome_state o = Some v' -> state_inv v'.
Proof.
  intros Hf Hi Ho.
  assert (Hi0 : state_inv (set_last_tick_ms now_ms v)).
  { destruct Hi as [[] []]. split; constructor; simpl; assumption. }
  apply frame_inversion in Hf.
  destruct Hf as [e He | v1 He Hr | v1 He Hr Hp | v1 He Hr Hp Hd
                 | v1 d o He Hr Hp Hd Ht]; simpl in Ho; try discriminate.
  - injection Ho as <-. eapply handle_events_inv; eassumption.
  - injection Ho as <-. eapply handle_events_inv; eassumption.
  - injection Ho as <-. apply take_next_direction_inv.
    eapply handle_events_inv; eassumption.
  - assert (Hi1 : state_inv (take_next_direction v1)).
    { apply take_next_direction_inv. eapply handle_events_inv; eassumption. }
    apply tick_inversion in Ht.
    eapply tick_spec_inv; [exact Ht | | apply update_timers_inv; exact Hi1 | exact Ho].
    destruct Hi1 as [Hr1 _]. pose proof (inv_direction _ Hr1) as Hu.
    rewrite Hd in Hu. exact Hu.
Qed.

Lemma new_round_fields (fuel : nat) (r : rng) (now_ms bscore bsize : Z)
    (v : state) (r' : rng) :
  new_round fuel r now_ms bscore bsize = Some (Ok (v, r')) ->
  create_initial_snake START_LENGTH = Ok (snake v) /\
  random_food_position fuel r (snake v) = Some (Ok (food v, r')) /\
  best_score v = bscore /\ best_size v = bsize /\ score v = 0 /\
  direction v = None /\ next_direction v = None /\
  paused v = false /\ restart_requested v = false.
Proof.
  unfold new_round.
  destruct (create_initial_snake START_LENGTH) as [s0|e]; [|discriminate].
  destruct (random_food_position fuel r s0) as [[[p r1]|e]|] eqn:Er;
    try discriminate.
  intros H; injection H as <- <-. simpl. repeat split. exact Er.
Qed.

Lemma new_round_inv (fuel : nat) (r : rng) (now_ms bscore bsize : Z)
    (v : state) (r' : rng) :
  new_round fuel r now_ms bscore bsize = Some (Ok (v, r')) ->
  START_LENGTH <= bsize -> 0 <= bscore ->
  state_inv v.
Proof.
  intros Hn Hz Hb.
  destruct (new_round_fields _ _ _ _ _ _ _ Hn)
    as (Hs & Hf & Ebs & Ebz & Esc & Ed & End_ & _).
  apply create_initial_snake_ok in Hs. destruct Hs as [HL Hs].
  apply random_food_position_sound in Hf. destruct Hf as [Hfi Hfo].
  pose proof Hfi as Hdims. apply in_bounds_iff in Hdims.
  split.
  - constructor.
    + rewrite Hs. destruct (Z.to_nat START_LENGTH) eqn:E; [lia | discriminate].
    + rewrite Hs. apply row_NoDup.
    + rewrite Hs. apply row_chain.
    + exact Hfo.
    + intros c Hc. rewrite Hs in Hc. apply row_In in Hc.
      apply in_bounds_iff.
      pose proof (Z.div_mod (GRID_WIDTH - START_LENGTH) 2 ltac:(lia)).
      pose proof (Z.mod_pos_bound (GRID_WIDTH - START_LENGTH) 2 ltac:(lia)).
      pose proof (Z.div_mod GRID_HEIGHT 2 ltac:(lia)).
      pose proof (Z.mod_pos_bound GRID_HEIGHT 2 ltac:(lia)).
      lia.
    + exact Hfi.
    + rewrite Ed. exact I.
    + rewrite End_. exact I.
  - assert (Hlen : Z.of_nat (List.length (snake v)) = START_LENGTH)
      by (rewrite Hs, length_map, length_seq; lia).
    constructor; rewrite ?Ebs, ?Ebz, ?Esc, ?Hlen; lia.
Qed.

Lemma main_start_inv (s : pstate) (v : state) :
  main_start s -> pstate_state s = Some v ->
  state_inv v /\ best_score v = 0 /\ best_size v = START_LENGTH.
Proof.
  intros [fuel r now_ms v0 r' Hn | fuel r now_ms e Hn]; simpl; [|discriminate].
  intros H; injection H as <-.
  destruct (new_round_fields _ _ _ _ _ _ _ Hn) as (_ & _ & Ebs & Ebz & _).
  split; [|split; assumption].
  eapply new_round_inv; [exact Hn | lia | lia].
Qed.

Lemma main_step_inv (s s' : pstate) :
  main_step s s' ->
  (forall v, pstate_state s = Some v -> state_inv v) ->
  forall v', pstate_state s' = Some v' -> state_inv v'.
Proof.
  intros Hstep Hs.
  destruct Hstep as
    [ fuel now_ms events v r v1 r1 Hf
    | fuel now_ms events v r v1 r1 Hf
    | fuel now_ms events v r e Hf
    | fuel now_ms events v r v1 r1 fuel' now_ms' v2 r2 Hf Hn
    | fuel now_ms events v r v1 r1 fuel' now_ms' e Hf Hn
    | events v r fuel' now_ms' v2 r2 Ha Hn
    | events v r fuel' now_ms' e Ha Hn
    | events v r Ha ];
    simpl; intros v' Hv'; try discriminate; injection Hv' as <-;
    specialize (Hs v eq_refl).
  - eapply frame_inv; [exact Hf | exact Hs | reflexivity].
  - eapply frame_inv; [exact Hf | exact Hs | reflexivity].
  - assert (H1 : state_inv v1)
      by (eapply frame_inv; [exact Hf | exact Hs | reflexivity]).
    eapply new_round_inv; [exact Hn | apply H1 | apply H1].
  - eapply new_round_inv; [exact Hn | apply Hs | apply Hs].
Qed.

Lemma reachable_inv (s : pstate) :
  reachable s -> forall v, pstate_state s = Some v -> state_inv v.
Proof.
  induction 1 as [s Hs | s s' Hr IH Hstep].
  - intros v Hv. eapply main_start_inv; eassumption.
  - eapply main_step_inv; eassumption.
Qed.

(** C1. In every state that [main] reaches, at the head of a frame and on
    the game-over screen alike, the cells of the snake are pairwise
    distinct, consecutive cells are at Manhattan distance 1, and the food
    is not a cell of the snake. *)
Theorem C1_round_invariant (s : pstate) (v : state) :
  reachable s -> pstate_state s = Some v ->
  NoDup (snake v) /\ chain (snake v) /\ ~ In (food v) (snake v).
Proof.
  intros Hr Hv. destruct (reachable_inv s Hr v Hv) as [[] _]. auto.
Qed.

(** ** Session bests *)

Lemma tick_spec_bests (r : rng) (d : Z * Z) (v : state) (o : outcome) (v' : state) :
  tick_spec r d v o -> outcome_state o = Some v' ->
  bests_kept v v' \/ bests_on_eating v v'.
Proof.
  intros Ht Ho.
  destruct Ht as [ | hx hy body Hsn Hw | hx hy body Hsn Hw Hm
                  | hx hy body Hsn Hw Hf Hm
                  | hx hy body fuel p r' Hsn Hw Hf Hm Hp
                  | hx hy body fuel e Hsn Hp ];
    simpl in Ho; try discriminate; injection Ho as <-;
    try (left; split; reflexivity).
  right. apply cell_eqb_eq in Hf.
  unfold bests_on_eating, grew; cbn [snake score best_score best_size].
  rewrite <- Hf. repeat split.
Qed.

Lemma frame_bests (fuel : nat) (r : rng) (now_ms : Z) (events : list event)
    (v : state) (o : outcome) (v' : state) :
  frame fuel r now_ms events v = Some o -> outcome_state o = Some v' ->
  bests_kept v v' \/ bests_on_eating v v'.
Proof.
  intros Hf Ho. apply frame_inversion in Hf.
  assert (Hev : forall v1,
            handle_events events (set_last_tick_ms now_ms v) = Ok v1 ->
            sim_frozen v v1).
  { intros v1 He. apply handle_events_frozen in He.
    destruct He. constructor; assumption. }
  assert (Htk : forall v1, sim_frozen v v1 ->
            sim_frozen v v1 /\
            snake (take_next_direction v1) = snake v /\
            food (take_next_direction v1) = food v /\
            score (take_next_direction v1) = score v /\
            best_score (take_next_direction v1) = best_score v /\
            best_size (take_next_direction v1) = best_size v).
  { intros v1 Hz. split; [exact Hz|]. destruct Hz. unfold take_next_direction.
    destruct (next_direction v1); simpl; repeat split; assumption. }
  destruct Hf as [e He | v1 He Hr | v1 He Hr Hp | v1 He Hr Hp Hd
                 | v1 d o He Hr Hp Hd Ht]; simpl in Ho; try discriminate.
  - injection Ho as <-. left. destruct (Hev _ He). split; assumption.
  - injection Ho as <-. left. destruct (Hev _ He). split; assumption.
  - injection Ho as <-. left.
    destruct (Htk _ (Hev _ He)) as (_ & _ & _ & _ & H1 & H2). split; assumption.
  - destruct (Htk _ (Hev _ He)) as (_ & E1 & E2 & E3 & E4 & E5).
    set (v2 := take_next_direction v1) in *.
    destruct (update_timers_fields (Z.max 0 (now_ms - last_tick_ms v)) v2)
      as (U1 & U2 & U3 & _ & _ & U6 & U7).
    apply tick_inversion in Ht.
    destruct (tick_spec_bests _ _ _ _ _ Ht Ho) as [[K1 K2] | (K1 & K2 & K3 & K4)].
    + left. split; congruence.
    + right. unfold bests_on_eating.
      rewrite K1, K2, K3, K4, K1, K2, U1, U2, U3, U6, U7, E1, E2, E3, E4, E5.
      repeat split.
Qed.

Lemma bests_grow (v v' : state) :
  bests_kept v v' \/ bests_on_eating v v' ->
  best_score v <= best_score v' /\ best_size v <= best_size v'.
Proof.
  intros [[E1 E2] | (_ & _ & E1 & E2)]; rewrite E1, E2; lia.
Qed.


(** ** A straight run to the right *)

Lemma row_removelast (x y : Z) (n : nat) :
  removelast (row x y (S n)) = row x y n.
Proof.
  unfold row. rewrite seq_S, map_app. apply removelast_last.
Qed.

Lemma row_shift (x y : Z) (n : nat) :
  (x + 1, y) :: removelast (row x y (S n)) = row (x + 1) y (S n).
Proof.
  rewrite row_removelast. unfold row.
  change (seq 0 (S n)) with (0%nat :: seq 1 n). cbn [map].
  rewrite <- seq_shift, map_map. f_equal; [simpl; f_equal; lia|].
  apply map_ext. intros i. f_equal. lia.
Qed.

Lemma row_not_ahead (x y : Z) (n : nat) : ~ In (x + 1, y) (row x y n).
Proof.
  unfold row. intros H. apply row_In in H. simpl in H. lia.
Qed.

Lemma update_timers_flags (dt_ms : Z) (v : state) :
  paused (update_timers dt_ms v) = paused v /\
  restart_requested (update_timers dt_ms v) = restart_requested v /\
  game_over_reason (update_timers dt_ms v) = game_over_reason v.
Proof.
  unfold update_timers.
  destruct (level_toast_remaining_ms v >? 0);
    cbn [size_anim_remaining_ms set_level_toast_remaining_ms];
    destruct (size_anim_remaining_ms v >? 0); simpl; repeat split.
Qed.

(** The frame after the events, for a round that is neither paused nor
    restarting and has a direction buffered. *)
Lemma frame_tick (fuel : nat) (r : rng) (now_ms : Z) (events : list event)
    (v v1 : state) (d : Z * Z) :
  handle_events events (set_last_tick_ms now_ms v) = Ok v1 ->
  restart_requested v1 = false -> paused v1 = false ->
  next_direction v1 = Some d ->
  frame fuel r now_ms events v =
  tick fuel r d (update_timers (Z.max 0 (now_ms - last_tick_ms v))
                               (set_direction (Some d) v1)).
Proof.
  intros He Hr Hp Hn. unfold frame. rewrite He, Hr, Hp, Hn. reflexivity.
Qed.

Lemma tick_right (fuel : nat) (r : rng) (x y : Z) (n : nat) (v : state) :
  cruising x y n v ->
  (in_bounds (x + 1, y) = true -> food v <> (x + 1, y) ->
   exists v', tick fuel r (1, 0) v = Some (NextFrame v' r) /\
              cruising (x + 1) y n v' /\ food v' = food v) /\
  (in_bounds (x + 1, y) = false ->
   exists v', tick fuel r (1, 0) v = Some (RoundOver v' r) /\
              game_over_reason v' = "wall"%string /\ snake v' = snake v).
Proof.
  intros [Hs Hn Hr Hp].
  assert (Hs' : snake v = (x, y) :: tl (snake v)).
  { rewrite Hs. unfold row. simpl. repeat f_equal. lia. }
  split.
  - intros Hb Hf. exists (moved (x + 1, y) v). split; [|split].
    + rewrite (tick_move fuel r (1, 0) v x y _ Hs'); cbn [fst snd].
      * replace (y + 0) with y by lia. reflexivity.
      * replace (y + 0) with y by lia. apply hit_wall_false_iff. exact Hb.
      * replace (y + 0) with y by lia. apply cell_eqb_neq. congruence.
      * replace (y + 0) with y by lia. apply mem_not_In.
        intros Hin. apply In_removelast in Hin. rewrite Hs in Hin.
        revert Hin. apply row_not_ahead.
    + constructor; unfold moved; cbn [snake set_snake next_direction
                                       restart_requested paused]; try assumption.
      rewrite Hs. change (removelast ((x + 1, y) :: row x y (S n)))
        with ((x + 1, y) :: removelast (row x y (S n))).
      apply row_shift.
    + reflexivity.
  - intros Hb. exists (collided "wall" v). split; [|split; reflexivity].
    rewrite (tick_wall fuel r (1, 0) v x y _ Hs'); [reflexivity|].
    cbn [fst snd]. replace (y + 0) with y by lia.
    rewrite hit_wall_in_bounds, Hb. reflexivity.
Qed.

Lemma cruising_timers (x y : Z) (n : nat) (d : option (Z * Z)) (dt_ms : Z)
    (v : state) :
  cruising x y n v ->
  cruising x y n (update_timers dt_ms (set_direction d v)).
Proof.
  intros [Hs Hn Hr Hp].
  destruct (update_timers_fields dt_ms (set_direction d v))
    as (U1 & _ & _ & _ & U5 & _).
  destruct (update_timers_flags dt_ms (set_direction d v)) as (F1 & F2 & _).
  constructor; rewrite ?U1, ?U5, ?F1, ?F2; assumption.
Qed.

Lemma cruising_clock (x y : Z) (n : nat) (now_ms : Z) (v : state) :
  cruising x y n v -> cruising x y n (set_last_tick_ms now_ms v).
Proof. intros []. constructor; assumption. Qed.

Lemma frame_right (fuel : nat) (r : rng) (now_ms : Z) (x y : Z) (n : nat)
    (v : state) :
  cruising x y n v ->
  (in_bounds (x + 1, y) = true -> food v <> (x + 1, y) ->
   exists v', frame fuel r now_ms [] v = Some (NextFrame v' r) /\
              cruising (x + 1) y n v' /\ food v' = food v) /\
  (in_bounds (x + 1, y) = false ->
   exists v', frame fuel r now_ms [] v = Some (RoundOver v' r) /\
              game_over_reason v' = "wall"%string /\ snake v' = snake v).
Proof.
  intros Hc.
  pose proof (cruising_clock x y n now_ms v Hc) as Hc0.
  pose proof (cruising_timers x y n (Some (1, 0))
                (Z.max 0 (now_ms - last_tick_ms v)) _ Hc0) as Hc1.
  destruct Hc0 as [_ Hn Hr Hp].
  rewrite (frame_tick fuel r now_ms [] v _ (1, 0) eq_refl Hr Hp Hn).
  destruct (tick_right fuel r x y n _ Hc1) as [Hgo Hstop].
  destruct (update_timers_fields (Z.max 0 (now_ms - last_tick_ms v))
              (set_direction (Some (1, 0)) (set_last_tick_ms now_ms v)))
    as (U1 & U2 & _).
  destruct (update_timers_flags (Z.max 0 (now_ms - last_tick_ms v))
              (set_direction (Some (1, 0)) (set_last_tick_ms now_ms v)))
    as (_ & _ & F3).
  cbn [snake food set_direction set_last_tick_ms] in U1, U2.
  split.
  - intros Hb Hf. rewrite <- U2 in Hf.
    destruct (Hgo Hb Hf) as (v' & Ht & Hc' & Hfood).
    exists v'. split; [exact Ht|]. split; [exact Hc'|].
    rewrite Hfood. exact U2.
  - intros Hb. destruct (Hstop Hb) as (v' & Ht & Hwhy & Hsn).
    exists v'. split; [exact Ht|]. split; [exact Hwhy|].
    rewrite Hsn. exact U1.
Qed.

(** The first frame of the run: "right" is pressed while the round idles. *)
Lemma frame_right_first (fuel : nat) (r : rng) (now_ms : Z) (x y : Z) (n : nat)
    (v : state) :
  snake v = row x y (S n) -> direction v = None ->
  restart_requested v = false -> paused v = false ->
  in_bounds (x + 1, y) = true -> food v <> (x + 1, y) ->
  exists v', frame fuel r now_ms [KEYDOWN K_RIGHT] v = Some (NextFrame v' r) /\
             cruising (x + 1) y n v' /\ food v' = food v.
Proof.
  intros Hs Hd Hr Hp Hb Hf.
  assert (Hs' : snake v = (x, y) :: tl (snake v)).
  { rewrite Hs. unfold row. simpl. repeat f_equal. lia. }
  assert (He : handle_events [KEYDOWN K_RIGHT] (set_last_tick_ms now_ms v)
               = Ok (set_next_direction (Some (1, 0)) (set_last_tick_ms now_ms v))).
  { cbn [handle_events].
    rewrite (handle_event_direction K_RIGHT (1, 0) _ eq_refl).
    cbn [direction snake set_last_tick_ms]. rewrite Hd. rewrite Hs' at 1.
    cbn [fst snd]. replace (y + 0) with y by lia. rewrite Hb.
    assert (Hm : mem (x + 1, y) (tl (snake v)) = false).
    { apply mem_not_In. intros Hin. apply (row_not_ahead x y (S n)).
      rewrite <- Hs, Hs'. right. exact Hin. }
    rewrite Hm. reflexivity. }
  rewrite (frame_tick fuel r now_ms _ v _ (1, 0) He Hr Hp eq_refl).
  set (v2 := update_timers _ _).
  assert (Hc : cruising x y n v2).
  { apply cruising_timers. constructor; simpl; try assumption. reflexivity. }
  assert (Hf2 : food v2 = food v).
  { unfold v2. destruct (update_timers_fields (Z.max 0 (now_ms - last_tick_ms v))
      (set_direction (Some (1, 0))
         (set_next_direction (Some (1, 0)) (set_last_tick_ms now_ms v))))
      as (_ & U2 & _). exact U2. }
  cbn [food set_direction set_next_direction set_last_tick_ms] in Hf2.
  destruct (tick_right fuel r x y n v2 Hc) as [Hgo _].
  rewrite <- Hf2 in Hf.
  destruct (Hgo Hb Hf) as (v' & Ht & Hc' & Hfood).
  exists v'. split; [exact Ht|]. split; [exact Hc'|]. congruence.
Qed.

(** [k] further frames without events. *)
Lemma run_frames_right (fuel : nat) (r : rng) (y : Z) (n : nat)
    (ts : list Z) (x : Z) (v : state) :
  cruising x y n v ->
  (forall i, 1 <= i <= Z.of_nat (List.length ts) ->
             in_bounds (x + i, y) = true /\ food v <> (x + i, y)) ->
  exists v', run_frames fuel r (map (fun t => (t, [])) ts) v
               = Some (NextFrame v' r) /\
             cruising (x + Z.of_nat (List.length ts)) y n v' /\
             food v' = food v.
Proof.
  revert x v. induction ts as [|t ts IH]; intros x v Hc Hfree.
  - exists v. simpl. replace (x + 0) with x by lia. auto.
  - destruct (frame_right fuel r t x y n v Hc) as [Hgo _].
    destruct (Hfree 1) as [Hb Hf]; [simpl List.length; lia|].
    destruct (Hgo Hb Hf) as (v1 & Hfr & Hc1 & Hf1).
    destruct (IH (x + 1) v1 Hc1) as (v' & Hrun & Hc' & Hf').
    { intros i Hi. rewrite Hf1. replace (x + 1 + i) with (x + (1 + i)) by lia.
      apply Hfree. simpl List.length. lia. }
    exists v'. split; [|split].
    + simpl. rewrite Hfr. exact Hrun.
    + replace (x + Z.of_nat (List.length (t :: ts)))
        with (x + 1 + Z.of_nat (List.length ts)) by (simpl List.length; lia).
      exact Hc'.
    + congruence.
Qed.

(** ** Deciding the shape of a concrete snake *)

Lemma zrange_In (n x : Z) : 0 <= x < n -> In x (zrange n).
Proof.
  intros H. unfold zrange. apply in_map_iff. exists (Z.to_nat x).
  split; [lia | apply in_seq; lia].
Qed.

Lemma all_cells_In (c : cell) : in_bounds c = true -> In c all_cells.
Proof.
  intros H. apply in_bounds_iff in H. destruct c as [x y]; simpl in H.
  unfold all_cells. apply in_flat_map. exists y. split.
  - apply zrange_In. lia.
  - apply (in_map (fun x0 => (x0, y))). apply zrange_In. lia.
Qed.

Lemma grid_fullb_sound (snake : list cell) :
  grid_fullb snake = true -> grid_full snake.
Proof.
  unfold grid_fullb, grid_full. rewrite forallb_forall.
  intros H c Hc. apply mem_In. apply H. apply all_cells_In. exact Hc.
Qed.

Lemma distinctb_sound (l : list cell) : distinctb l = true -> NoDup l.
Proof.
  induction l as [|a t IH]; simpl; intros H; constructor;
    apply andb_true_iff in H; destruct H as [Ha Ht].
  - apply mem_not_In. apply negb_true_iff. exact Ha.
  - apply IH. exact Ht.
Qed.

Lemma chainb_sound (l : list cell) : chainb l = true -> chain l.
Proof.
  induction l as [|a [|b t] IH]; simpl; intros H; auto.
  apply andb_true_iff in H. destruct H as [Hab Ht]. split.
  - apply Z.eqb_eq. exact Hab.
  - apply IH. exact Ht.
Qed.

(** ** Further properties of reachable states *)

Lemma handle_event_raise (ev : event) (v : state) (e : exn) :
  snake v <> [] -> handle_event ev v = Raise e ->
  e = SystemExit /\ (ev = QUIT \/ ev = KEYDOWN K_ESCAPE).
Proof.
  intros Hne.
  destruct ev as [|k|]; simpl; [intros H; injection H as <-; auto | | discriminate].
  destruct k; simpl; try discriminate;
    try (intros H; injection H as <-; auto; fail);
    destruct (direction v);
    try (match goal with |- context [if ?b then _ else _] => destruct b end;
         discriminate);
    destruct (snake v) as [|[hx hy] body]; try congruence;
    match goal with |- context [if ?b then _ else _] => destruct b end;
    discriminate.
Qed.

Lemma handle_events_raise (evs : list event) (v : state) (e : exn) :
  state_inv v -> handle_events evs v = Raise e ->
  e = SystemExit /\ (In QUIT evs \/ In (KEYDOWN K_ESCAPE) evs).
Proof.
  revert v. induction evs as [|ev evs IH]; intros v Hi; simpl; [discriminate|].
  destruct (handle_event ev v) as [v1|e1] eqn:E.
  - intros H. destruct (IH v1) with (2 := H) as [He Hin].
    + eapply event_effect_inv; [eapply handle_event_effect; exact E | exact Hi].
    + split; [exact He | tauto].
  - intros H; injection H as <-.
    destruct (handle_event_raise ev v e1) with (2 := E) as [He [-> | ->]].
    + apply Hi.
    + auto.
    + auto.
Qed.

(** X1. In every state that [main] reaches the snake is not empty, the
    snake and the food lie on the grid, both direction variables hold
    [None] or a unit vector, the score is the number of cells gained since
    the start length, and the session bests dominate the current score and
    length. *)
Theorem X1_state_invariant (s : pstate) (v : state) :
  reachable s -> pstate_state s = Some v ->
  snake v <> [] /\
  (forall c, In c (snake v) -> in_bounds c = true) /\
  in_bounds (food v) = true /\
  direction_ok (direction v) /\ direction_ok (next_direction v) /\
  Z.of_nat (List.length (snake v)) = START_LENGTH + score v /\
  0 <= score v <= best_score v /\
  Z.of_nat (List.length (snake v)) <= best_size v.
Proof.
  intros Hr Hv. destruct (reachable_inv s Hr v Hv) as [[] []].
  repeat split; try assumption; lia.
Qed.

(** X2. From a reachable state the only exception a frame can raise is
    [SystemExit], and only when the window is closed or Escape is pressed:
    [snake[0]] never fails and [random.randint] is never given an empty
    range. *)
Theorem X2_only_exit (fuel : nat) (r r' : rng) (now_ms : Z)
    (events : list event) (v : state) (e : exn) :
  reachable (Playing v r) ->
  frame fuel r' now_ms events v = Some (Raised e) ->
  e = SystemExit /\ (In QUIT events \/ In (KEYDOWN K_ESCAPE) events).
Proof.
  intros Hr Hf.
  assert (Hi : state_inv v) by (apply (reachable_inv _ Hr); reflexivity).
  assert (Hi0 : state_inv (set_last_tick_ms now_ms v)).
  { destruct Hi as [[] []]. split; constructor; simpl; assumption. }
  apply frame_inversion in Hf.
  inversion Hf as [e0 He | | | | v1 d o He Hrq Hp Hd Ht]; subst.
  - eapply handle_events_raise; eassumption.
  - exfalso.
    assert (Hi2 : state_inv (update_timers (Z.max 0 (now_ms - last_tick_ms v))
                               (take_next_direction v1))).
    { apply update_timers_inv, take_next_direction_inv.
      eapply handle_events_inv; eassumption. }
    destruct Hi2 as [Hr2 _].
    apply tick_inversion in Ht.
    inversion Ht as [Hs | | | | | hx hy body fuel0 e0 Hs Hp0]; subst.
    + apply (inv_nonempty _ Hr2). exact Hs.
    + apply random_food_position_raises in Hp0.
      pose proof (inv_food_in _ Hr2) as Hfood.
      apply in_bounds_iff in Hfood. lia.
Qed.

(** ** Invariants of the round, in general *)

(** An invariant of [main]: [P] for the states at the head of a frame, [Q]
    for those on the game-over screen. *)
Lemma reachable_invariant (P Q : state -> Prop) :
  (forall fuel r now_ms bscore bsize v r',
     new_round fuel r now_ms bscore bsize = Some (Ok (v, r')) -> P v) ->
  (forall fuel r now_ms events v v' r',
     state_inv v -> P v ->
     frame fuel r now_ms events v = Some (NextFrame v' r') -> P v') ->
  (forall fuel r now_ms events v v' r',
     state_inv v -> P v ->
     frame fuel r now_ms events v = Some (RoundOver v' r') -> Q v') ->
  forall s, reachable s ->
    match s with
    | Playing v _ => P v
    | GameOver v _ => Q v
    | _ => True
    end.
Proof.
  intros Hnew Hnext Hover s Hr.
  induction Hr as [s Hs | s s' Hr IH Hstep].
  - destruct Hs; [eapply Hnew; eassumption | exact I].
  - pose proof (reachable_inv s Hr) as Hinv.
    destruct Hstep; simpl in *; try exact I.
    + eapply Hnext; [apply Hinv; reflexivity | exact IH | eassumption].
    + eapply Hover; [apply Hinv; reflexivity | exact IH | eassumption].
    + eapply Hnew; eassumption.
    + eapply Hnew; eassumption.
Qed.

Lemma reachable_playing (P : state -> Prop) :
  (forall fuel r now_ms bscore bsize v r',
     new_round fuel r now_ms bscore bsize = Some (Ok (v, r')) -> P v) ->
  (forall fuel r now_ms events v o v',
     state_inv v -> P v ->
     frame fuel r now_ms events v = Some o ->
     outcome_state o = Some v' -> P v') ->
  forall s v, reachable s -> pstate_state s = Some v -> P v.
Proof.
  intros Hnew Hframe s v Hr Hv.
  pose proof (reachable_invariant P P Hnew) as H.
  specialize (H (fun fuel r now_ms events v v' r' Hi Hp Hf =>
                   Hframe fuel r now_ms events v _ v' Hi Hp Hf eq_refl)).
  specialize (H (fun fuel r now_ms events v v' r' Hi Hp Hf =>
                   Hframe fuel r now_ms events v _ v' Hi Hp Hf eq_refl)).
  specialize (H s Hr).
  destruct s; simpl in Hv; try discriminate; injection Hv as <-; exact H.
Qed.

(** ** Steering *)

Lemma steer_inv_ext (v v' : state) :
  direction v' = direction v -> next_direction v' = next_direction v ->
  snake v' = snake v -> running v' = running v ->
  game_over_reason v' = game_over_reason v ->
  steer_inv v -> steer_inv v'.
Proof.
  intros Ed En Es Er Eg [H1 H2 H3 H4].
  constructor; rewrite ?Ed, ?En, ?Es, ?Er, ?Eg; assumption.
Qed.

Lemma handle_event_plain (k : key) (v v' : state) :
  key_to_dir k = None -> handle_event (KEYDOWN k) v = Ok v' ->
  direction v' = direction v /\ next_direction v' = next_direction v /\
  snake v' = snake v /\ running v' = running v /\
  game_over_reason v' = game_over_reason v.
Proof.
  destruct k; simpl; try discriminate; intros _ H; injection H as <-;
    repeat split.
Qed.

Lemma unit_vector_not_opposite (d : Z * Z) :
  unit_vector d -> d <> (- fst d, - snd d).
Proof.
  intros [-> | [-> | [-> | ->]]]; simpl; discriminate.
Qed.

Lemma handle_event_steer (ev : event) (v v' : state) :
  steer_inv v -> handle_event ev v = Ok v' -> steer_inv v'.
Proof.
  intros Hst He.
  destruct ev as [|k|];
    [simpl in He; discriminate | | simpl in He; injection He as <-; exact Hst].
  destruct (key_to_dir k) as [c|] eqn:Ek.
  - rewrite (handle_event_direction k c v Ek) in He.
    pose proof (key_to_dir_unit k c Ek) as Hu.
    destruct Hst as [H1 H2 H3 H4].
    destruct (direction v) as [d|] eqn:Ed.
    + destruct (cell_eqb c (- fst d, - snd d)) eqn:Ec; simpl in He;
        injection He as <-.
      * constructor; simpl; rewrite ?Ed; assumption.
      * apply cell_eqb_neq in Ec.
        constructor; simpl; rewrite ?Ed; try assumption.
        -- intros d0 E0; injection E0 as <-. eauto.
        -- discriminate.
    + destruct (snake v) as [|[hx hy] body] eqn:Es; [discriminate|].
      simpl tl in He.
      destruct (in_bounds (hx + fst c, hy + snd c)) eqn:Eb; simpl in He.
      * destruct (mem (hx + fst c, hy + snd c) body) eqn:Em; simpl in He;
          injection He as <-.
        -- constructor; simpl; rewrite ?Ed, ?Es; assumption.
        -- constructor; simpl; rewrite ?Ed, ?Es; try assumption.
           ++ discriminate.
           ++ intros _ c0 hx0 hy0 body0 Ec0 Es0.
              injection Ec0 as <-. injection Es0 as <- <- <-.
              split; [exact Eb|].
              intros [Hh | Hb].
              ** symmetry in Hh. revert Hh. apply unit_vector_not_zero. exact Hu.
              ** apply mem_not_In in Em. contradiction.
      * injection He as <-. constructor; simpl; rewrite ?Ed, ?Es; assumption.
  - destruct (handle_event_plain k v v' Ek He) as (E1 & E2 & E3 & E4 & E5).
    eapply steer_inv_ext; eassumption.
Qed.

Lemma handle_events_steer (evs : list event) (v v' : state) :
  steer_inv v -> handle_events evs v = Ok v' -> steer_inv v'.
Proof.
  revert v. induction evs as [|ev evs IH]; intros v Hst; simpl.
  - intros H; injection H as <-. exact Hst.
  - destruct (handle_event ev v) as [v1|e] eqn:E; [|discriminate].
    apply IH. eapply handle_event_steer; eassumption.
Qed.

Lemma take_next_direction_steer (v : state) :
  direction_ok (next_direction v) -> steer_inv v ->
  steer_inv (take_next_direction v) /\
  direction (take_next_direction v) =
    match next_direction v with Some n => Some n | None => direction v end.
Proof.
  intros Hu [H1 H2 H3 H4]. unfold take_next_direction.
  destruct (next_direction v) as [n|] eqn:En.
  2:{ split; [|reflexivity]. constructor; rewrite ?En; assumption. }
  split; [|reflexivity].
  constructor; simpl; try assumption.
  - intros d E; injection E as <-. exists n. split; [exact En|].
    apply unit_vector_not_opposite. exact Hu.
  - discriminate.
Qed.

Lemma update_timers_running (dt_ms : Z) (v : state) :
  running (update_timers dt_ms v) = running v /\
  level (update_timers dt_ms v) = level v.
Proof.
  unfold update_timers.
  destruct (level_toast_remaining_ms v >? 0);
    cbn [size_anim_remaining_ms set_level_toast_remaining_ms];
    destruct (size_anim_remaining_ms v >? 0); simpl; repeat split.
Qed.

Lemma update_timers_steer (dt_ms : Z) (v : state) :
  steer_inv v -> steer_inv (update_timers dt_ms v).
Proof.
  destruct (update_timers_fields dt_ms v) as (E1 & _ & _ & E4 & E5 & _).
  destruct (update_timers_flags dt_ms v) as (_ & _ & F3).
  destruct (update_timers_running dt_ms v) as (R1 & _).
  apply steer_inv_ext; assumption.
Qed.

(** How the active direction of a frame's outcome relates to the one the
    frame began with. *)
Lemma frame_direction (fuel : nat) (r : rng) (now_ms : Z) (events : list event)
    (v : state) (o : outcome) (v' : state) :
  state_inv v -> steer_inv v ->
  frame fuel r now_ms events v = Some o -> outcome_state o = Some v' ->
  forall d, direction v = Some d ->
    exists d', direction v' = Some d' /\ unit_vector d' /\
               d' <> (- fst d, - snd d).
Proof.
  intros Hi Hst Hf Ho d Hd.
  assert (Hi0 : state_inv (set_last_tick_ms now_ms v)).
  { destruct Hi as [[] []]. split; constructor; simpl; assumption. }
  assert (Hst0 : steer_inv (set_last_tick_ms now_ms v)).
  { eapply steer_inv_ext; [ | | | | | exact Hst]; reflexivity. }
  assert (Hu : unit_vector d).
  { destruct Hi as [Hr _]. pose proof (inv_direction _ Hr) as H.
    rewrite Hd in H. exact H. }
  assert (Hkeep : forall v1,
            handle_events events (set_last_tick_ms now_ms v) = Ok v1 ->
            state_inv v1 /\ steer_inv v1 /\ direction v1 = Some d).
  { intros v1 He. split; [eapply handle_events_inv; eassumption|].
    split; [eapply handle_events_steer; eassumption|].
    apply handle_events_frozen in He. rewrite (fr_direction _ _ He). exact Hd. }
  apply frame_inversion in Hf.
  destruct Hf as [e He | v1 He Hr | v1 He Hr Hp | v1 He Hr Hp Hn
                 | v1 d1 o He Hr Hp Hn Ht]; simpl in Ho; try discriminate.
  - injection Ho as <-. destruct (Hkeep _ He) as (_ & _ & E).
    exists d. split; [exact E|]. split; [exact Hu|].
    apply unit_vector_not_opposite; exact Hu.
  - injection Ho as <-. destruct (Hkeep _ He) as (_ & _ & E).
    exists d. split; [exact E|]. split; [exact Hu|].
    apply unit_vector_not_opposite; exact Hu.
  - exfalso. destruct (Hkeep _ He) as (Hi1 & Hst1 & E).
    unfold take_next_direction in Hn.
    destruct (next_direction v1); simpl in Hn; congruence.
  - destruct (Hkeep _ He) as (Hi1 & Hst1 & E).
    destruct (st_turn _ Hst1 d E) as (n & En & Hne).
    assert (Ed1 : d1 = n).
    { unfold take_next_direction in Hn. rewrite En in Hn. simpl in Hn. congruence. }
    subst d1.
    assert (Hun : unit_vector n).
    { destruct Hi1 as [Hr1 _]. pose proof (inv_next_direction _ Hr1) as H.
      rewrite En in H. exact H. }
    assert (Hdir : direction v' = Some n).
    { apply tick_inversion in Ht.
      destruct (update_timers_fields (Z.max 0 (now_ms - last_tick_ms v))
                  (take_next_direction v1)) as (_ & _ & _ & U4 & _).
      rewrite Hn in U4.
      destruct Ht; simpl in Ho; try discriminate; injection Ho as <-;
        simpl; exact U4. }
    exists n. auto.
Qed.

Lemma tick_steer (r : rng) (d : Z * Z) (v : state) (o : outcome) :
  tick_spec r d v o -> direction v = Some d -> steer_inv v ->
  restart_requested v = false ->
  match o with
  | NextFrame v' _ => steer_inv v' /\ restart_requested v' = false
  | RoundOver v' _ => over_inv v'
  | _ => True
  end.
Proof.
  intros Ht Hd Hst Hrq.
  destruct Ht as [ | hx hy body Hsn Hw | hx hy body Hsn Hw Hm
                  | hx hy body Hsn Hw Hf Hm
                  | hx hy body fuel p r' Hsn Hw Hf Hm Hp
                  | hx hy body fuel e Hsn Hp ]; try exact I.
  - split; [reflexivity|]. exists d, hx, hy, body.
    split; [exact Hd|]. split; [exact Hsn|]. left. split; [reflexivity|].
    rewrite hit_wall_in_bounds in Hw. apply negb_true_iff. exact Hw.
  - split; [reflexivity|]. exists d, hx, hy, body.
    split; [exact Hd|]. split; [exact Hsn|]. right. split; [reflexivity|].
    split; [apply hit_wall_false_iff; exact Hw|].
    apply mem_In in Hm.
    destruct (cell_eqb (hx + fst d, hy + snd d) (food v));
      [exact Hm | apply In_removelast; exact Hm].
  - split; [|exact Hrq]. destruct Hst as [H1 H2 H3 H4].
    constructor; unfold moved; simpl; try assumption.
    rewrite Hd. discriminate.
  - split; [|exact Hrq]. destruct Hst as [H1 H2 H3 H4].
    constructor; unfold grew; simpl; try assumption.
    rewrite Hd. discriminate.
Qed.

Lemma frame_steer (fuel : nat) (r : rng) (now_ms : Z) (events : list event)
    (v : state) (o : outcome) :
  state_inv v -> steer_inv v ->
  frame fuel r now_ms events v = Some o ->
  match o with
  | NextFrame v' _ => steer_inv v' /\ restart_requested v' = false
  | RoundOver v' _ => over_inv v'
  | _ => True
  end.
Proof.
  intros Hi Hst Hf.
  assert (Hi0 : state_inv (set_last_tick_ms now_ms v)).
  { destruct Hi as [[] []]. split; constructor; simpl; assumption. }
  assert (Hst0 : steer_inv (set_last_tick_ms now_ms v)).
  { eapply steer_inv_ext; [ | | | | | exact Hst]; reflexivity. }
  apply frame_inversion in Hf.
  destruct Hf as [e He | v1 He Hr | v1 He Hr Hp | v1 He Hr Hp Hn
                 | v1 d1 o He Hr Hp Hn Ht]; try exact I.
  - split; [eapply handle_events_steer; eassumption | exact Hr].
  - assert (Hi1 : state_inv v1) by (eapply handle_events_inv; eassumption).
    split.
    + apply take_next_direction_steer; [apply Hi1|].
      eapply handle_events_steer; eassumption.
    + unfold take_next_direction. destruct (next_direction v1); exact Hr.
  - assert (Hi1 : state_inv v1) by (eapply handle_events_inv; eassumption).
    assert (Hst2 : steer_inv (take_next_direction v1)).
    { apply take_next_direction_steer; [apply Hi1|].
      eapply handle_events_steer; eassumption. }
    assert (Hr2 : restart_requested (take_next_direction v1) = false).
    { unfold take_next_direction. destruct (next_direction v1); exact Hr. }
    apply tick_inversion in Ht.
    eapply tick_steer; [exact Ht | | apply update_timers_steer; exact Hst2 |].
    + destruct (update_timers_fields (Z.max 0 (now_ms - last_tick_ms v))
                  (take_next_direction v1)) as (_ & _ & _ & U4 & _).
      rewrite U4. exact Hn.
    + destruct (update_timers_flags (Z.max 0 (now_ms - last_tick_ms v))
                  (take_next_direction v1)) as (_ & F2 & _).
      rewrite F2. exact Hr2.
Qed.

Lemma new_round_steer (fuel : nat) (r : rng) (now_ms bscore bsize : Z)
    (v : state) (r' : rng) :
  new_round fuel r now_ms bscore bsize = Some (Ok (v, r')) ->
  steer_inv v /\ restart_requested v = false /\ level v = 2 /\
  level_toast_remaining_ms v = 0 /\ size_anim_remaining_ms v = 0 /\
  food_pop_effects v = [].
Proof.
  unfold new_round.
  destruct (create_initial_snake START_LENGTH) as [s0|e]; [|discriminate].
  destruct (random_food_position fuel r s0) as [[[p r1]|e]|]; try discriminate.
  intros H; injection H as <- <-.
  split; [|repeat split].
  constructor; simpl; try reflexivity; discriminate.
Qed.

Lemma reachable_steer (s : pstate) :
  reachable s ->
  match s with
  | Playing v _ => steer_inv v /\ restart_requested v = false
  | GameOver v _ => over_inv v
  | _ => True
  end.
Proof.
  apply (reachable_invariant
           (fun v => steer_inv v /\ restart_requested v = false) over_inv).
  - intros fuel r now_ms bscore bsize v r' Hn.
    destruct (new_round_steer _ _ _ _ _ _ _ Hn) as (H1 & H2 & _). auto.
  - intros fuel r now_ms events v v' r' Hi [Hst _] Hf.
    exact (frame_steer _ _ _ _ _ _ Hi Hst Hf).
  - intros fuel r now_ms events v v' r' Hi [Hst _] Hf.
    exact (frame_steer _ _ _ _ _ _ Hi Hst Hf).
Qed.

(** X3. The snake never turns back on itself: whatever keys are pressed,
    in whatever frames and also while paused, the active direction after a
    frame is a unit vector that is not the reverse of the active direction
    before it; once set, the direction is never unset within the round. *)
Theorem X3_no_reversal (fuel : nat) (r r' : rng) (now_ms : Z)
    (events : list event) (v : state) (o : outcome) (v' : state) (d : Z * Z) :
  reachable (Playing v r) ->
  frame fuel r' now_ms events v = Some o -> outcome_state o = Some v' ->
  direction v = Some d ->
  exists d', direction v' = Some d' /\ unit_vector d' /\
             d' <> (- fst d, - snd d).
Proof.
  intros Hr Hf Ho Hd.
  assert (Hi : state_inv v) by (apply (reachable_inv _ Hr); reflexivity).
  destruct (reachable_steer _ Hr) as [Hst _].
  eapply frame_direction; eassumption.
Qed.

(** X4. The first move of a round is never fatal: from a state in which no
    direction is active yet, no frame ends the round, whatever keys it
    polls. *)
Theorem X4_first_move_safe (fuel : nat) (r r' : rng) (now_ms : Z)
    (events : list event) (v : state) (o : outcome) :
  reachable (Playing v r) -> direction v = None ->
  frame fuel r' now_ms events v = Some o ->
  forall v' r'', o <> RoundOver v' r''.
Proof.
  intros Hr Hd Hf v' r'' ->.
  assert (Hi : state_inv v) by (apply (reachable_inv _ Hr); reflexivity).
  destruct (reachable_steer _ Hr) as [Hst _].
  assert (Hi0 : state_inv (set_last_tick_ms now_ms v)).
  { destruct Hi as [[] []]. split; constructor; simpl; assumption. }
  assert (Hst0 : steer_inv (set_last_tick_ms now_ms v)).
  { eapply steer_inv_ext; [ | | | | | exact Hst]; reflexivity. }
  apply frame_inversion in Hf.
  inversion Hf as [ | | | | v1 d1 o He Hrq Hp Hn Ht]; subst.
  assert (Hi1 : state_inv v1) by (eapply handle_events_inv; eassumption).
  assert (Hst1 : steer_inv v1) by (eapply handle_events_steer; eassumption).
  assert (Hd1 : direction v1 = None).
  { apply handle_events_frozen in He. rewrite (fr_direction _ _ He). exact Hd. }
  assert (Hn1 : next_direction v1 = Some d1).
  { unfold take_next_direction in Hn.
    destruct (next_direction v1); simpl in Hn; congruence. }
  destruct (update_timers_fields (Z.max 0 (now_ms - last_tick_ms v))
              (take_next_direction v1)) as (U1 & U2 & _).
  assert (Hs2 : snake (take_next_direction v1) = snake v1).
  { unfold take_next_direction. rewrite Hn1. reflexivity. }
  apply tick_inversion in Ht.
  inversion Ht as [ | hx hy body Hsn Hw | hx hy body Hsn Hw Hm | | | ]; subst.
  - rewrite U1, Hs2 in Hsn.
    destruct (st_first _ Hst1 Hd1 d1 hx hy body Hn1 Hsn) as [Hb _].
    rewrite hit_wall_in_bounds, Hb in Hw. discriminate.
  - rewrite U1, Hs2 in Hsn. rewrite U1, Hs2 in Hm.
    destruct (st_first _ Hst1 Hd1 d1 hx hy body Hn1 Hsn) as [_ Hfree].
    apply Hfree. apply mem_In in Hm.
    destruct (cell_eqb _ _) in Hm; [exact Hm | apply In_removelast; exact Hm].
Qed.

(** X5. While a round runs, [running] is set, [game_over_reason] is "none"
    and no restart request is pending at the head of a frame.  The
    game-over screen is entered only with [running] cleared and a truthful
    reason: "wall" when the cell ahead of the head is off the grid, "self"
    when it is on the grid and on the snake. *)
Theorem X5_round_phase (s : pstate) :
  reachable s ->
  match s with
  | Playing v _ =>
      running v = true /\ game_over_reason v = "none"%string /\
      restart_requested v = false
  | GameOver v _ => over_inv v
  | _ => True
  end.
Proof.
  intros Hr. pose proof (reachable_steer s Hr) as H.
  destruct s; try exact I; [|exact H].
  destruct H as [[_ _ H3 H4] H5]. auto.
Qed.

(** ** Levels and timers *)

Lemma handle_event_level (ev : event) (v v' : state) :
  handle_event ev v = Ok v' ->
  level v' = match level_keys [ev] with l :: _ => l | [] => level v end.
Proof.
  destruct ev as [|k|]; simpl; [discriminate| |intros H; injection H as <-; reflexivity].
  destruct k; simpl; try discriminate;
    try (intros H; injection H as <-; reflexivity);
    repeat match goal with
           | |- context [match ?x with _ => _ end] => destruct x
           end;
    try discriminate; intros H; injection H as <-; reflexivity.
Qed.

Lemma level_keys_cons (ev : event) (evs : list event) :
  level_keys (ev :: evs) = level_keys [ev] ++ level_keys evs.
Proof.
  destruct ev as [|k|]; simpl; try reflexivity.
  destruct (key_to_level k); reflexivity.
Qed.

Lemma last_default (A : Type) (l : list A) (d d' : A) :
  l <> [] -> last l d = last l d'.
Proof.
  induction l as [|a [|b t] IH]; intros H; simpl; [congruence | reflexivity |].
  apply IH. discriminate.
Qed.

Lemma last_In (A : Type) (l : list A) (d : A) :
  l <> [] -> In (last l d) l.
Proof.
  induction l as [|a [|b t] IH]; intros H; [congruence | left; reflexivity |].
  right. apply IH. discriminate.
Qed.

Lemma handle_events_level (evs : list event) (v v' : state) :
  handle_events evs v = Ok v' ->
  level v' = last (level_keys evs) (level v).
Proof.
  revert v. induction evs as [|ev evs IH]; intros v; simpl handle_events.
  - intros H; injection H as <-. reflexivity.
  - destruct (handle_event ev v) as [v1|e] eqn:E; [|discriminate].
    intros H. rewrite (IH _ H), (handle_event_level _ _ _ E).
    rewrite (level_keys_cons ev evs).
    destruct (level_keys [ev]) as [|l t] eqn:Ek; [reflexivity|].
    assert (t = []) as ->.
    { destruct ev as [|k|]; simpl in Ek; try discriminate.
      destruct (key_to_level k); simpl in Ek; [|discriminate].
      injection Ek as _ <-. reflexivity. }
    simpl app. destruct (level_keys evs) as [|z l0]; [reflexivity|].
    change (last (l :: z :: l0) (level v)) with (last (z :: l0) (level v)).
    apply last_default. discriminate.
Qed.

Lemma level_keys_range (evs : list event) (l : Z) :
  In l (level_keys evs) -> l = 1 \/ l = 2 \/ l = 3.
Proof.
  induction evs as [|ev evs IH]; simpl; [tauto|].
  destruct ev as [|k|]; try exact IH.
  destruct k; simpl; try exact IH; intros [<- | H]; auto.
Qed.

Lemma tick_spec_level (r : rng) (d : Z * Z) (v : state) (o : outcome) (v' : state) :
  tick_spec r d v o -> outcome_state o = Some v' -> level v' = level v.
Proof.
  intros Ht Ho.
  destruct Ht; simpl in Ho; try discriminate; injection Ho as <-; reflexivity.
Qed.

Lemma frame_level (fuel : nat) (r : rng) (now_ms : Z) (events : list event)
    (v : state) (o : outcome) (v' : state) :
  frame fuel r now_ms events v = Some o -> outcome_state o = Some v' ->
  level v' = last (level_keys events) (level v).
Proof.
  intros Hf Ho. apply frame_inversion in Hf.
  assert (Htake : forall v1, level (take_next_direction v1) = level v1).
  { intros v1. unfold take_next_direction. destruct (next_direction v1); reflexivity. }
  destruct Hf as [e He | v1 He Hr | v1 He Hr Hp | v1 He Hr Hp Hn
                 | v1 d1 o He Hr Hp Hn Ht]; simpl in Ho; try discriminate.
  - injection Ho as <-. apply (handle_events_level _ _ _ He).
  - injection Ho as <-. apply (handle_events_level _ _ _ He).
  - injection Ho as <-. rewrite Htake. apply (handle_events_level _ _ _ He).
  - apply tick_inversion in Ht.
    rewrite (tick_spec_level _ _ _ _ _ Ht Ho).
    destruct (update_timers_running (Z.max 0 (now_ms - last_tick_ms v))
                (take_next_direction v1)) as (_ & L).
    rewrite L, Htake. apply (handle_events_level _ _ _ He).
Qed.

Lemma level_step (evs : list event) (l : Z) :
  (l = 1 \/ l = 2 \/ l = 3) ->
  last (level_keys evs) l = 1 \/ last (level_keys evs) l = 2 \/
  last (level_keys evs) l = 3.
Proof.
  intros Hl. destruct (level_keys evs) as [|a t] eqn:E; [exact Hl|].
  apply (level_keys_range evs). rewrite E. apply last_In. discriminate.
Qed.

Lemma reachable_level (s : pstate) (v : state) :
  reachable s -> pstate_state s = Some v ->
  level v = 1 \/ level v = 2 \/ level v = 3.
Proof.
  apply (reachable_playing (fun v => level v = 1 \/ level v = 2 \/ level v = 3)).
  - intros fuel r now_ms bscore bsize v0 r' Hn.
    destruct (new_round_steer _ _ _ _ _ _ _ Hn) as (_ & _ & L & _). auto.
  - intros fuel r now_ms events v0 o v' _ Hl Hf Ho.
    rewrite (frame_level _ _ _ _ _ _ _ Hf Ho). apply level_step. exact Hl.
Qed.

(** X6. The level is always 1, 2 or 3, so that [LEVELS[level]] never
    misses and the speed is one of 6, 10 and 14 steps per second.  After a
    frame the level is the one of the last level key the frame polled, or
    unchanged when it polled none, whether the round is paused or not. *)
Theorem X6_levels (s : pstate) (v : state) :
  reachable s -> pstate_state s = Some v ->
  (level v = 1 \/ level v = 2 \/ level v = 3) /\
  (exists name speed,
     dict_get LEVELS (level v) = Some (name, speed) /\
     (speed = 6 \/ speed = 10 \/ speed = 14)) /\
  (forall fuel r now_ms events o v',
     frame fuel r now_ms events v = Some o -> outcome_state o = Some v' ->
     level v' = last (level_keys events) (level v)).
Proof.
  intros Hr Hv. pose proof (reachable_level s v Hr Hv) as Hl.
  split; [exact Hl|]. split.
  - destruct Hl as [-> | [-> | ->]]; simpl; eauto 6.
  - intros fuel r now_ms events o v'. apply frame_level.
Qed.

(** *** Timers *)

Lemma effects_aged (dt_ms : Z) (l : list effect) :
  0 <= dt_ms ->
  Forall (fun e => duration_ms e = 250 /\ 0 < remaining_ms e <= 250 /\
                   in_bounds (pos e) = true) l ->
  Forall (fun e => duration_ms e = 250 /\ 0 < remaining_ms e <= 250 /\
                   in_bounds (pos e) = true)
    (filter (fun e => remaining_ms e >? 0)
       (map (fun e => mkEffect (pos e) (duration_ms e)
                               (Z.max 0 (remaining_ms e - dt_ms))) l)).
Proof.
  intros Hdt Hl. apply Forall_forall. intros e He.
  apply filter_In in He. destruct He as [He Hpos].
  apply in_map_iff in He. destruct He as (e0 & <- & He0).
  rewrite Forall_forall in Hl. destruct (Hl e0 He0) as (Hd & Hrem & Hb).
  simpl in *. rewrite Z.gtb_ltb in Hpos. apply Z.ltb_lt in Hpos.
  repeat split; try assumption; lia.
Qed.

Lemma update_timers_timers (dt_ms : Z) (v : state) :
  0 <= dt_ms -> timers_inv v -> timers_inv (update_timers dt_ms v).
Proof.
  intros Hdt [H1 H2 H3]. unfold update_timers.
  destruct (level_toast_remaining_ms v >? 0);
    cbn [size_anim_remaining_ms set_level_toast_remaining_ms];
    destruct (size_anim_remaining_ms v >? 0);
    constructor; simpl; try lia; apply effects_aged; assumption.
Qed.

Lemma event_effect_timers (v v' : state) :
  event_effect v v' -> timers_inv v -> timers_inv v'.
Proof.
  intros He [H1 H2 H3]. destruct He; constructor; simpl; try assumption; lia.
Qed.

Lemma handle_events_timers (evs : list event) (v v' : state) :
  handle_events evs v = Ok v' -> timers_inv v -> timers_inv v'.
Proof.
  revert v. induction evs as [|ev evs IH]; intros v; simpl.
  - intros H; injection H as <-. auto.
  - destruct (handle_event ev v) as [v1|e] eqn:E; [|discriminate].
    intros H Hi. apply (IH _ H).
    eapply event_effect_timers; [eapply handle_event_effect; exact E | exact Hi].
Qed.

Lemma tick_spec_timers (r : rng) (d : Z * Z) (v : state) (o : outcome) (v' : state) :
  tick_spec r d v o -> outcome_state o = Some v' ->
  in_bounds (food v) = true -> timers_inv v -> timers_inv v'.
Proof.
  intros Ht Ho Hfood [H1 H2 H3].
  destruct Ht; simpl in Ho; try discriminate; injection Ho as <-;
    constructor; simpl; try assumption; try lia.
  apply Forall_app. split; [assumption|].
  constructor; [|constructor]. simpl. repeat split; try lia. exact Hfood.
Qed.

Lemma frame_timers (fuel : nat) (r : rng) (now_ms : Z) (events : list event)
    (v : state) (o : outcome) (v' : state) :
  state_inv v -> timers_inv v ->
  frame fuel r now_ms events v = Some o -> outcome_state o = Some v' ->
  timers_inv v'.
Proof.
  intros Hi Hti Hf Ho.
  assert (Hi0 : state_inv (set_last_tick_ms now_ms v)).
  { destruct Hi as [[] []]. split; constructor; simpl; assumption. }
  assert (Hti0 : timers_inv (set_last_tick_ms now_ms v)).
  { destruct Hti. constructor; simpl; assumption. }
  assert (Htake : forall v1, timers_inv v1 -> timers_inv (take_next_direction v1)).
  { intros v1 [H1 H2 H3]. unfold take_next_direction.
    destruct (next_direction v1); constructor; simpl; assumption. }
  apply frame_inversion in Hf.
  destruct Hf as [e He | v1 He Hr | v1 He Hr Hp | v1 He Hr Hp Hn
                 | v1 d1 o He Hr Hp Hn Ht]; simpl in Ho; try discriminate.
  - injection Ho as <-. eapply handle_events_timers; eassumption.
  - injection Ho as <-. eapply handle_events_timers; eassumption.
  - injection Ho as <-. apply Htake. eapply handle_events_timers; eassumption.
  - apply tick_inversion in Ht.
    eapply tick_spec_timers; [exact Ht | exact Ho | |].
    + assert (Hi2 : state_inv (update_timers (Z.max 0 (now_ms - last_tick_ms v))
                                 (take_next_direction v1))).
      { apply update_timers_inv, take_next_direction_inv.
        eapply handle_events_inv; eassumption. }
      destruct Hi2 as [Hr2 _]. apply (inv_food_in _ Hr2).
    + apply update_timers_timers; [lia|]. apply Htake.
      eapply handle_events_timers; eassumption.
Qed.

Lemma reachable_timers (s : pstate) (v : state) :
  reachable s -> pstate_state s = Some v -> timers_inv v.
Proof.
  apply (reachable_playing timers_inv).
  - intros fuel r now_ms bscore bsize v0 r' Hn.
    destruct (new_round_steer _ _ _ _ _ _ _ Hn) as (_ & _ & _ & T1 & T2 & T3).
    constructor; rewrite ?T1, ?T2, ?T3; try lia. constructor.
  - intros fuel r now_ms events v0 o v' Hi Hti Hf Ho.
    eapply frame_timers; eassumption.
Qed.

(** X7. In every state that [main] reaches, the level toast holds between
    0 and 1000 ms, the size pulse between 0 and 400 ms, and every food-pop
    effect has duration 250 ms, a remaining time that is positive and at
    most its duration, and a position on the grid: the ratio
    [remaining_ms / duration_ms] that the renderer takes never divides by
    zero and lies in (0, 1]. *)
Theorem X7_timers (s : pstate) (v : state) :
  reachable s -> pstate_state s = Some v ->
  0 <= level_toast_remaining_ms v <= 1000 /\
  0 <= size_anim_remaining_ms v <= 400 /\
  forall e, In e (food_pop_effects v) ->
    duration_ms e = 250 /\ 0 < remaining_ms e <= duration_ms e /\
    in_bounds (pos e) = true.
Proof.
  intros Hr Hv. destruct (reachable_timers s v Hr Hv) as [H1 H2 H3].
  split; [exact H1|]. split; [exact H2|].
  intros e He. rewrite Forall_forall in H3.
  destruct (H3 e He) as (Hd & Hrem & Hb). rewrite Hd. auto.
Qed.

Lemma effects_age_add (a b : Z) (l : list effect) :
  0 <= a -> 0 <= b ->
  filter (fun e => remaining_ms e >? 0)
    (map (fun e => mkEffect (pos e) (duration_ms e) (Z.max 0 (remaining_ms e - b)))
       (filter (fun e => remaining_ms e >? 0)
          (map (fun e => mkEffect (pos e) (duration_ms e)
                                  (Z.max 0 (remaining_ms e - a))) l)))
  = filter (fun e => remaining_ms e >? 0)
      (map (fun e => mkEffect (pos e) (duration_ms e)
                              (Z.max 0 (remaining_ms e - (a + b)))) l).
Proof.
  intros Ha Hb. induction l as [|e l IH]; [reflexivity|].
  cbn [map filter remaining_ms].
  rewrite !Z.gtb_ltb.
  destruct (Z.ltb_spec 0 (Z.max 0 (remaining_ms e - a))) as [H1|H1];
    destruct (Z.ltb_spec 0 (Z.max 0 (remaining_ms e - (a + b)))) as [H2|H2].
  - cbn [map filter remaining_ms pos duration_ms]. rewrite Z.gtb_ltb.
    destruct (Z.ltb_spec 0 (Z.max 0 (Z.max 0 (remaining_ms e - a) - b))) as [H3|H3];
      [|lia].
    rewrite IH. f_equal. f_equal. lia.
  - cbn [map filter remaining_ms pos duration_ms]. rewrite Z.gtb_ltb.
    destruct (Z.ltb_spec 0 (Z.max 0 (Z.max 0 (remaining_ms e - a) - b))) as [H3|H3];
      [lia|].
    exact IH.
  - lia.
  - exact IH.
Qed.

Lemma timer_age_add (a b t : Z) :
  0 <= a -> 0 <= b ->
  (let t1 := if t >? 0 then Z.max 0 (t - a) else t in
   if t1 >? 0 then Z.max 0 (t1 - b) else t1)
  = if t >? 0 then Z.max 0 (t - (a + b)) else t.
Proof.
  intros Ha Hb. cbv zeta. rewrite !Z.gtb_ltb.
  destruct (Z.ltb_spec 0 t) as [H|H].
  - destruct (Z.ltb_spec 0 (Z.max 0 (t - a))); lia.
  - destruct (Z.ltb_spec 0 t); lia.
Qed.

Lemma update_timers_eq (dt_ms : Z) (v : state) :
  update_timers dt_ms v =
  mkState (best_score v) (best_size v) (snake v) (food v) (score v) (paused v)
    (restart_requested v) (game_over_reason v) (level v) (direction v)
    (next_direction v) (show_help v) (show_debug v)
    (if level_toast_remaining_ms v >? 0
     then Z.max 0 (level_toast_remaining_ms v - dt_ms)
     else level_toast_remaining_ms v)
    (if size_anim_remaining_ms v >? 0
     then Z.max 0 (size_anim_remaining_ms v - dt_ms)
     else size_anim_remaining_ms v)
    (filter (fun e => remaining_ms e >? 0)
       (map (fun e => mkEffect (pos e) (duration_ms e)
                               (Z.max 0 (remaining_ms e - dt_ms)))
            (food_pop_effects v)))
    (last_tick_ms v) (running v).
Proof.
  unfold update_timers.
  destruct (level_toast_remaining_ms v >? 0) eqn:E1;
    cbn [size_anim_remaining_ms set_level_toast_remaining_ms];
    destruct (size_anim_remaining_ms v >? 0) eqn:E2;
    destruct v; reflexivity.
Qed.

(** X8. Elapsed time adds up: counting the timers down by [a] and then by
    [b] milliseconds leaves exactly the state that counting them down by
    [a + b] leaves, so what the timers show does not depend on how the
    elapsed time is cut into frames. *)
Theorem X8_timers_add (a b : Z) (v : state) :
  0 <= a -> 0 <= b ->
  update_timers b (update_timers a v) = update_timers (a + b) v.
Proof.
  intros Ha Hb.
  rewrite (update_timers_eq b), (update_timers_eq a), (update_timers_eq (a + b)).
  cbn [best_score best_size snake food score paused restart_requested
       game_over_reason level direction next_direction show_help show_debug
       level_toast_remaining_ms size_anim_remaining_ms food_pop_effects
       last_tick_ms running].
  f_equal.
  - exact (timer_age_add a b (level_toast_remaining_ms v) Ha Hb).
  - exact (timer_age_add a b (size_anim_remaining_ms v) Ha Hb).
  - exact (effects_age_add a b (food_pop_effects v) Ha Hb).
Qed.

(** ** Size of the snake *)

Lemma length_flat_map_const (A B : Type) (f : A -> list B) (l : list A) (n : nat) :
  (forall a, List.length (f a) = n) ->
  List.length (flat_map f l) = (List.length l * n)%nat.
Proof.
  intros Hf. induction l as [|a l IH]; simpl; [reflexivity|].
  rewrite length_app, Hf, IH. reflexivity.
Qed.

Lemma length_all_cells :
  List.length all_cells = (Z.to_nat GRID_HEIGHT * Z.to_nat GRID_WIDTH)%nat.
Proof.
  unfold all_cells.
  rewrite (length_flat_map_const _ _ _ _ (Z.to_nat GRID_WIDTH)).
  - unfold zrange. rewrite length_map, length_seq. reflexivity.
  - intros y. unfold zrange. rewrite !length_map, length_seq. reflexivity.
Qed.

(** X9. The snake never has more cells than the grid: in every state that
    [main] reaches, its length is between the start length and
    width x height, and the score is at most width x height minus the
    start length. *)
Theorem X9_snake_fits (s : pstate) (v : state) :
  reachable s -> pstate_state s = Some v ->
  START_LENGTH <= Z.of_nat (List.length (snake v)) <= GRID_WIDTH * GRID_HEIGHT /\
  0 <= score v <= GRID_WIDTH * GRID_HEIGHT - START_LENGTH.
Proof.
  intros Hr Hv. destruct (reachable_inv s Hr v Hv) as [Hround Hsess].
  destruct Hround as [_ Hnd _ _ Hin Hfood _ _].
  destruct Hsess as [_ _ Hsc _ Hlen].
  apply in_bounds_iff in Hfood.
  assert (Hle : (List.length (snake v) <= List.length all_cells)%nat).
  { apply NoDup_incl_length; [exact Hnd|].
    intros c Hc. apply all_cells_In. apply Hin. exact Hc. }
  rewrite length_all_cells in Hle.
  assert (Hz : Z.of_nat (List.length (snake v)) <= GRID_WIDTH * GRID_HEIGHT).
  { apply Nat2Z.inj_le in Hle. rewrite Nat2Z.inj_mul, !Z2Nat.id in Hle by lia.
    lia. }
  lia.
Qed.

(** ** The food is the first free draw *)

Lemma random_food_position_first (fuel : nat) (r : rng) (snake : list cell)
    (p : cell) (r' : rng) :
  random_food_position fuel r snake = Some (Ok (p, r')) ->
  exists k, (k < fuel)%nat /\ p = draw r k /\
            (forall j, (j < k)%nat -> In (draw r j) snake) /\
            (forall n, r' n = r (2 * S k + n)%nat).
Proof.
  revert r. induction fuel as [|fuel IH]; intros r; [discriminate|].
  cbn [random_food_position].
  destruct (randint 0 (GRID_WIDTH - 1) r) as [[x r1]|e] eqn:Ex; [|discriminate].
  destruct (randint 0 (GRID_HEIGHT - 1) r1) as [[y r2]|e] eqn:Ey; [|discriminate].
  apply randint_range in Ex. destruct Ex as (_ & Ex & ->).
  apply randint_range in Ey. destruct Ey as (_ & Ey & ->).
  assert (Hd : (x, y) = draw r 0).
  { unfold draw. rewrite Ex, Ey. unfold rng_tail. reflexivity. }
  destruct (mem (x, y) snake) eqn:Em; simpl.
  - intros H. destruct (IH _ H) as (k & Hk & Hp & Hbefore & Hrest).
    exists (S k). split; [lia|]. split; [|split].
    + rewrite Hp. apply draw_tail.
    + intros j Hj. destruct j as [|j].
      * rewrite <- Hd. apply mem_In. exact Em.
      * rewrite <- draw_tail. apply Hbefore. lia.
    + intros n. rewrite Hrest. unfold rng_tail. f_equal. lia.
  - intros H; injection H as <- <-.
    exists 0%nat. split; [lia|]. split; [exact Hd|]. split.
    + intros j Hj. lia.
    + intros n. unfold rng_tail. f_equal.
Qed.

(** X10. Food placement is rejection sampling: what it returns is the first
    cell drawn from the random stream that is not on the snake, every
    earlier draw having been a snake cell, and it consumes exactly the raw
    values of the draws it made, two per draw. *)
Theorem X10_first_free_draw (fuel : nat) (r : rng) (snake : list cell)
    (p : cell) (r' : rng) :
  random_food_position fuel r snake = Some (Ok (p, r')) ->
  exists k, (k < fuel)%nat /\ p = draw r k /\
            ~ In (draw r k) snake /\
            (forall j, (j < k)%nat -> In (draw r j) snake) /\
            (forall n, r' n = r (2 * S k + n)%nat).
Proof.
  intros H.
  destruct (random_food_position_first _ _ _ _ _ H) as (k & Hk & Hp & Hb & Hr).
  apply random_food_position_sound in H. destruct H as [_ Hfree].
  exists k. rewrite <- Hp. auto.
Qed.

(** ** Debug labels *)

(** X11. [direction_to_text] names the values a direction variable holds
    without loss: [None] and the four unit vectors get the labels "none",
    "up", "down", "left" and "right", distinct values get distinct labels,
    and "unknown" is the label of exactly the other vectors; no reachable
    state is labelled "unknown". *)
Theorem X11_direction_labels :
  (forall a, direction_ok a ->
     In (direction_to_text a) ["none"; "up"; "down"; "left"; "right"]%string) /\
  (forall a b, direction_ok a -> direction_ok b ->
     direction_to_text a = direction_to_text b -> a = b) /\
  (forall d, direction_to_text (Some d) = "unknown"%string <-> ~ unit_vector d) /\
  (forall s v, reachable s -> pstate_state s = Some v ->
     direction_to_text (direction v) <> "unknown"%string /\
     direction_to_text (next_direction v) <> "unknown"%string).
Proof.
  assert (Hlab : forall a, direction_ok a ->
            In (direction_to_text a) ["none"; "up"; "down"; "left"; "right"]%string).
  { intros [d|] H; simpl in H; [|left; reflexivity].
    destruct H as [-> | [-> | [-> | ->]]]; cbv; auto 6. }
  split; [exact Hlab|]. split; [|split].
  - intros [a|] [b|] Ha Hb; simpl in Ha, Hb;
      repeat match goal with
             | H : unit_vector _ |- _ => destruct H as [-> | [-> | [-> | ->]]]
             end;
      cbv; intros H; try reflexivity; discriminate H.
  - intros [x y]. unfold direction_to_text, mapping_get, direction_eqb, unit_vector.
    destruct (cell_eqb (x, y) (0, -1)) eqn:E1;
      [apply cell_eqb_eq in E1; split; [discriminate | tauto]|].
    destruct (cell_eqb (x, y) (0, 1)) eqn:E2;
      [apply cell_eqb_eq in E2; split; [discriminate | tauto]|].
    destruct (cell_eqb (x, y) (-1, 0)) eqn:E3;
      [apply cell_eqb_eq in E3; split; [discriminate | tauto]|].
    destruct (cell_eqb (x, y) (1, 0)) eqn:E4;
      [apply cell_eqb_eq in E4; split; [discriminate | tauto]|].
    apply cell_eqb_neq in E1, E2, E3, E4. tauto.
  - intros s v Hr Hv. destruct (reachable_inv s Hr v Hv) as [Hround _].
    pose proof (Hlab _ (inv_direction _ Hround)) as H1.
    pose proof (Hlab _ (inv_next_direction _ Hround)) as H2.
    split; intros E; [rewrite E in H1 | rewrite E in H2];
      simpl in *; intuition discriminate.
Qed.

(** ** The game-over screen and the frame as a whole *)

Lemma show_game_over_app (pre post : list event) :
  show_game_over (pre ++ post) =
  match show_game_over pre with
  | Some a => Some a
  | None => show_game_over post
  end.
Proof.
  induction pre as [|ev pre IH]; [reflexivity|].
  destruct ev as [|k|]; simpl; try exact IH; try reflexivity.
  destruct k; simpl; try exact IH; reflexivity.
Qed.

Lemma show_game_over_none (evs : list event) :
  show_game_over evs = None <->
  ~ In QUIT evs /\ ~ In (KEYDOWN K_r) evs /\ ~ In (KEYDOWN K_ESCAPE) evs.
Proof.
  induction evs as [|ev evs IH]; simpl; [tauto|].
  destruct ev as [|k|]; [| destruct k |];
    try (rewrite IH; split;
         [ intros (H1 & H2 & H3); repeat split; intros [E | E];
           try discriminate E; tauto
         | intros (H1 & H2 & H3); tauto ]);
    split; try discriminate; intros (H1 & H2 & H3); exfalso; tauto.
Qed.

(** X15. On the game-over screen only three events count: nothing is
    decided as long as the window is not closed and neither R nor Escape
    is pressed, whatever else is polled, and the first of these three
    events decides, later ones being ignored; a restart is decided only by
    a press of R. *)
Theorem X15_game_over_keys :
  (forall evs,
     show_game_over evs = None <->
     ~ In QUIT evs /\ ~ In (KEYDOWN K_r) evs /\ ~ In (KEYDOWN K_ESCAPE) evs) /\
  (forall pre post,
     show_game_over pre = None ->
     show_game_over (pre ++ post) = show_game_over post) /\
  (forall pre post a,
     show_game_over pre = Some a -> show_game_over (pre ++ post) = Some a) /\
  (forall evs,
     show_game_over evs = Some act_restart -> In (KEYDOWN K_r) evs).
Proof.
  split; [exact show_game_over_none|]. split; [|split].
  - intros pre post H. rewrite show_game_over_app, H. reflexivity.
  - intros pre post a H. rewrite show_game_over_app, H. reflexivity.
  - induction evs as [|ev evs IH]; simpl; [discriminate|].
    destruct ev as [|k|]; [discriminate | destruct k | ]; auto; discriminate.
Qed.

(** X16. A frame moves the snake by at most one cell, in the direction
    that is active when it ends: whenever a frame goes on to a next frame,
    either snake, food and score are as before, or the new head is the old
    head plus the active direction and the snake is the new head followed
    by the old snake without its tail (score and food as before), or the
    new head is the old food cell and the snake is that cell followed by
    the whole old snake, with the score one higher. *)
Theorem X16_one_step (fuel : nat) (r r' : rng) (now_ms : Z)
    (events : list event) (v v' : state) :
  frame fuel r now_ms events v = Some (NextFrame v' r') ->
  (snake v' = snake v /\ food v' = food v /\ score v' = score v) \/
  exists d hx hy body,
    direction v' = Some d /\ snake v = (hx, hy) :: body /\
    ((snake v' = (hx + fst d, hy + snd d) :: removelast (snake v) /\
      (hx + fst d, hy + snd d) <> food v /\
      food v' = food v /\ score v' = score v) \/
     (snake v' = food v :: snake v /\
      food v = (hx + fst d, hy + snd d) /\
      score v' = score v + 1)).
Proof.
  intros Hf. apply frame_inversion in Hf.
  assert (Hev : forall v1,
            handle_events events (set_last_tick_ms now_ms v) = Ok v1 ->
            snake v1 = snake v /\ food v1 = food v /\ score v1 = score v).
  { intros v1 He. apply handle_events_frozen in He. destruct He. auto. }
  assert (Htake : forall v1,
            snake (take_next_direction v1) = snake v1 /\
            food (take_next_direction v1) = food v1 /\
            score (take_next_direction v1) = score v1).
  { intros v1. unfold take_next_direction.
    destruct (next_direction v1); auto. }
  inversion Hf as [ | | v1 He Hr Hp | v1 He Hr Hp Hn
                  | v1 d1 o He Hr Hp Hn Ht]; subst.
  - left. apply Hev. exact He.
  - left. destruct (Hev _ He) as (E1 & E2 & E3).
    destruct (Htake v1) as (T1 & T2 & T3). repeat split; congruence.
  - right.
    destruct (Hev _ He) as (E1 & E2 & E3).
    destruct (Htake v1) as (T1 & T2 & T3).
    destruct (update_timers_fields (Z.max 0 (now_ms - last_tick_ms v))
                (take_next_direction v1)) as (U1 & U2 & U3 & U4 & _).
    set (v2 := update_timers _ _) in *.
    assert (S2 : snake v2 = snake v) by congruence.
    assert (F2 : food v2 = food v) by congruence.
    assert (C2 : score v2 = score v) by congruence.
    assert (D2 : direction v2 = Some d1) by congruence.
    apply tick_inversion in Ht.
    inversion Ht as [ | | | hx hy body Hsn Hw Hfd Hm
                    | hx hy body fuel0 p r0 Hsn Hw Hfd Hm Hp0 | ]; subst.
    + assert (Hsn' : snake v = (hx, hy) :: body) by congruence.
      exists d1, hx, hy, body. split; [exact D2|].
      split; [exact Hsn'|]. left.
      apply cell_eqb_neq in Hfd. rewrite F2 in Hfd.
      unfold moved; cbn [snake set_snake food score].
      split; [rewrite S2, Hsn'; reflexivity|].
      split; [exact Hfd|]. split; assumption.
    + assert (Hsn' : snake v = (hx, hy) :: body) by congruence.
      exists d1, hx, hy, body. split; [exact D2|].
      split; [exact Hsn'|]. right.
      apply cell_eqb_eq in Hfd. rewrite F2 in Hfd.
      unfold grew; cbn [snake food score].
      split; [rewrite S2, Hfd; reflexivity|].
      split; [symmetry; exact Hfd | rewrite C2; reflexivity].
Qed.

(** ** Which events decide a frame *)

Lemma handle_event_flags (ev : event) (v v1 : state) :
  handle_event ev v = Ok v1 ->
  restart_requested v1 = restart_requested v || is_restart ev /\
  paused v1 = xorb (paused v) (is_pause ev).
Proof.
  assert (Hsame : restart_requested v = restart_requested v || false /\
                  paused v = xorb (paused v) false)
    by (now rewrite orb_false_r, xorb_false_r).
  destruct ev as [|k|]; cbn [handle_event is_restart is_pause];
    [discriminate| |intros H; injection H as <-; exact Hsame].
  destruct k; cbn [key_to_level key_to_dir]; try discriminate;
    try (intros H; injection H as <-; cbn; try exact Hsame;
         now rewrite ?orb_true_r, ?xorb_true_r, ?orb_false_r, ?xorb_false_r).
  all: destruct (direction v) as [d|];
    [ match goal with |- context [if ?b then _ else _] => destruct b end;
      intros H; injection H as <-; exact Hsame
    | destruct (snake v) as [|[hx hy] body]; [discriminate|];
      match goal with |- context [if ?b then _ else _] => destruct b end;
      intros H; injection H as <-; exact Hsame ].
Qed.

Lemma handle_event_exit (ev : event) (v : state) :
  is_exit ev = true -> handle_event ev v = Raise SystemExit.
Proof. destruct ev as [|[]|]; try discriminate; reflexivity. Qed.

Lemma handle_event_ok (ev : event) (v : state) :
  snake v <> [] -> is_exit ev = false -> exists v1, handle_event ev v = Ok v1.
Proof.
  intros Hne Hx. destruct (handle_event ev v) as [v1|e] eqn:E; [eauto|].
  destruct (handle_event_raise ev v e Hne E) as [_ [-> | ->]]; discriminate.
Qed.

Lemma handle_events_exit (evs : list event) :
  forall v, state_inv v -> existsb is_exit evs = true ->
            handle_events evs v = Raise SystemExit.
Proof.
  induction evs as [|ev evs IH]; intros v Hi; cbn [existsb handle_events];
    [discriminate|].
  destruct (is_exit ev) eqn:Hx.
  - intros _. now rewrite handle_event_exit.
  - cbn [orb]. intros Hex.
    destruct (handle_event_ok ev v) as [v1 E]; [apply Hi | exact Hx |].
    rewrite E. apply IH; [|exact Hex].
    eapply event_effect_inv; [eapply handle_event_effect; exact E | exact Hi].
Qed.

Lemma handle_events_flags (evs : list event) :
  forall v, state_inv v -> existsb is_exit evs = false ->
    exists v1,
      handle_events evs v = Ok v1 /\
      restart_requested v1 = restart_requested v || existsb is_restart evs /\
      paused v1 = xorb (paused v) (Nat.odd (List.length (filter is_pause evs))).
Proof.
  induction evs as [|ev evs IH]; intros v Hi; cbn [existsb handle_events filter].
  - intros _. exists v. now rewrite orb_false_r, xorb_false_r.
  - intros Hex. apply orb_false_iff in Hex as [Hx Hex].
    destruct (handle_event_ok ev v) as [v1 E]; [apply Hi | exact Hx |].
    rewrite E.
    destruct (IH v1) as (v2 & E2 & Hr & Hp); [|exact Hex|].
    { eapply event_effect_inv; [eapply handle_event_effect; exact E | exact Hi]. }
    destruct (handle_event_flags _ _ _ E) as [Hr1 Hp1].
    exists v2. split; [exact E2|]. split.
    + rewrite Hr, Hr1. symmetry. apply orb_assoc.
    + rewrite Hp, Hp1.
      destruct (is_pause ev); cbn [List.length];
        [rewrite Nat.odd_succ, <- Nat.negb_odd|];
        destruct (paused v), (Nat.odd (List.length (filter is_pause evs)));
        reflexivity.
Qed.

(** X20 ([main], lines 481-555).  What a frame does is decided by its
    events in a fixed order of precedence.  From a reachable state, a frame
    that polls QUIT or Escape anywhere among its events exits, even after
    a press of R.  Otherwise the events are all handled; the frame
    restarts the round exactly when R was pressed, also while paused and
    without a random draw; and the pause flag is flipped once for every
    press of P, a frame that ends up paused with no restart going on to
    the next frame with the state the events left. *)
Theorem X20_frame_precedence (fuel : nat) (r r0 : rng) (now_ms : Z)
    (events : list event) (v : state) :
  reachable (Playing v r0) ->
  (existsb is_exit events = true ->
   frame fuel r now_ms events v = Some (Raised SystemExit)) /\
  (existsb is_exit events = false ->
   exists v1,
     handle_events events (set_last_tick_ms now_ms v) = Ok v1 /\
     restart_requested v1 = existsb is_restart events /\
     paused v1 = xorb (paused v) (Nat.odd (List.length (filter is_pause events))) /\
     (existsb is_restart events = true ->
      frame fuel r now_ms events v = Some (Restarting v1 r)) /\
     (existsb is_restart events = false ->
      (forall o, frame fuel r now_ms events v = Some o ->
                 forall v' r', o <> Restarting v' r') /\
      (paused v1 = true ->
       frame fuel r now_ms events v = Some (NextFrame v1 r)))).
Proof.
  intros Hr.
  assert (Hi : state_inv v) by (apply (reachable_inv _ Hr); reflexivity).
  assert (Hi0 : state_inv (set_last_tick_ms now_ms v)).
  { destruct Hi as [[] []]. split; constructor; simpl; assumption. }
  pose proof (reachable_steer _ Hr) as [_ Hrq]. cbn beta iota in Hrq.
  split.
  - intros Hex. unfold frame.
    now rewrite (handle_events_exit events _ Hi0 Hex).
  - intros Hex.
    destruct (handle_events_flags events _ Hi0 Hex) as (v1 & E & Hr1 & Hp1).
    cbn [restart_requested paused set_last_tick_ms] in Hr1, Hp1.
    rewrite Hrq in Hr1. cbn [orb] in Hr1.
    exists v1. split; [exact E|]. split; [exact Hr1|]. split; [exact Hp1|].
    split.
    + intros Hre. apply frame_restart; [exact E | congruence].
    + intros Hre. rewrite Hre in Hr1. split.
      * intros o Ho v' r' ->. apply frame_inversion in Ho.
        inversion Ho as [|v2 E2 Hr2| | |v2 d o E2 Hr2 Hp2 Hd Ht]; subst.
        -- congruence.
        -- apply tick_inversion in Ht. inversion Ht.
      * intros Hp. apply frame_paused; assumption.
Qed.

End Grid.

(** * Drawing *)

Lemma pixel_cell (CELL_SIZE x px : Z) :
  x * CELL_SIZE <= px < x * CELL_SIZE + CELL_SIZE -> px / CELL_SIZE = x.
Proof.
  intros H. symmetry. apply Z.div_unique with (r := px - x * CELL_SIZE); lia.
Qed.

Lemma grid_rect_cell (CELL_SIZE : Z) (c : cell) (padding px py : Z) :
  0 <= padding ->
  in_rect (grid_rect CELL_SIZE c padding) px py ->
  (px / CELL_SIZE, py / CELL_SIZE) = c.
Proof.
  intros Hp. destruct c as [x y]. unfold in_rect, grid_rect; simpl.
  intros [Hx Hy]. f_equal; apply pixel_cell; lia.
Qed.

Lemma cell_in_window (CELL_SIZE W x px : Z) :
  0 < CELL_SIZE ->
  0 <= x < W / CELL_SIZE -> px / CELL_SIZE = x -> 0 <= px < W.
Proof.
  intros Hc Hx Hpx.
  pose proof (Z.div_mod px CELL_SIZE ltac:(lia)) as Hdm.
  pose proof (Z.mod_pos_bound px CELL_SIZE Hc) as Hm.
  pose proof (Z.mul_div_le W CELL_SIZE Hc) as Hw.
  rewrite Hpx in Hdm.
  assert (CELL_SIZE * (x + 1) <= CELL_SIZE * (W / CELL_SIZE))
    by (apply Z.mul_le_mono_nonneg_l; lia).
  nia.
Qed.


Lemma box_in_cell (CELL_SIZE : Z) (c : cell) (sh : shape) :
  fst c * CELL_SIZE <= left (shape_box sh) ->
  left (shape_box sh) + width (shape_box sh) <= fst c * CELL_SIZE + CELL_SIZE ->
  snd c * CELL_SIZE <= top (shape_box sh) ->
  top (shape_box sh) + height (shape_box sh) <= snd c * CELL_SIZE + CELL_SIZE ->
  shape_in_cell CELL_SIZE c sh.
Proof.
  intros H1 H2 H3 H4 px py [Hx Hy]. destruct c as [x y]; simpl in *.
  f_equal; apply pixel_cell; lia.
Qed.

Lemma draw_segments_cells (CELL_SIZE : Z) (i : nat) (snake : list cell) :
  0 < CELL_SIZE ->
  Forall2 (shape_in_cell CELL_SIZE) snake (draw_segments CELL_SIZE i snake).
Proof.
  intros Hc. revert i. induction snake as [|seg rest IH]; intros i; simpl.
  - constructor.
  - constructor; [|apply IH].
    intros px py Hin. apply (grid_rect_cell CELL_SIZE seg 1 px py); [lia|exact Hin].
Qed.


(** ** The grid lines *)

Lemma range_step_in (stop step x : Z) (xs : list Z) :
  0 < step -> range_step stop step = Ok xs ->
  (In x xs <-> 0 <= x < stop /\ x mod step = 0).
Proof.
  intros Hs. unfold range_step.
  destruct (Z.eqb_spec step 0) as [?|_]; [lia|].
  destruct (Z.gtb_spec step 0) as [_|?]; [|lia].
  intros H; injection H as <-.
  rewrite in_map_iff. split.
  - intros (k & <- & Hk). apply in_seq in Hk.
    rewrite Z_mod_mult. split; [|reflexivity].
    assert (Hq : Z.of_nat k + 1 <= (stop + step - 1) / step) by lia.
    pose proof (Z.mul_div_le (stop + step - 1) step Hs). nia.
  - intros [Hx Hm]. exists (Z.to_nat (x / step)).
    pose proof (Z.div_mod x step ltac:(lia)) as Hdm. rewrite Hm in Hdm.
    assert (0 <= x / step) by (apply Z.div_pos; lia).
    split; [rewrite Z2Nat.id by lia; lia|].
    apply in_seq. split; [lia|].
    assert (x / step + 1 <= (stop + step - 1) / step)
      by (apply Z.div_le_lower_bound; lia).
    lia.
Qed.

Lemma off_line_mod (CELL_SIZE x px : Z) :
  x * CELL_SIZE < px < x * CELL_SIZE + CELL_SIZE -> px mod CELL_SIZE <> 0.
Proof.
  intros H Hm.
  pose proof (Z.div_mod px CELL_SIZE ltac:(lia)) as Hdm. rewrite Hm in Hdm.
  assert (x < px / CELL_SIZE) by nia.
  assert (px / CELL_SIZE < x + 1) by nia.
  lia.
Qed.

Lemma draw_grid_lines_ok (W H C : Z) :
  0 < C ->
  exists xs ys,
    range_step W C = Ok xs /\ range_step H C = Ok ys /\
    draw_grid_lines W H C
    = Ok (map (fun x => mkLine GRID_LINE (x, 0) (x, H)) xs
          ++ map (fun y => mkLine GRID_LINE (0, y) (W, y)) ys).
Proof.
  intros Hc. unfold draw_grid_lines, range_step.
  destruct (Z.eqb_spec C 0) as [?|_]; [lia|].
  eexists; eexists. repeat split.
Qed.

Lemma on_grid_line (W H : Z) (xs ys : list Z) (l : line) (px py : Z) :
  In l (map (fun x => mkLine GRID_LINE (x, 0) (x, H)) xs
        ++ map (fun y => mkLine GRID_LINE (0, y) (W, y)) ys) ->
  on_line l px py -> In px xs \/ In py ys.
Proof.
  intros Hin Hon. apply in_app_or in Hin as [Hin|Hin];
    apply in_map_iff in Hin as (z & <- & Hz);
    unfold on_line in Hon; cbn [line_start line_end fst snd] in Hon.
  - left. destruct Hon as [(_ & -> & _) | (_ & _ & Hon)]; [exact Hz|].
    replace px with z by lia. exact Hz.
  - right. destruct Hon as [(_ & _ & Hon) | (_ & -> & _)]; [|exact Hz].
    replace py with z by lia. exact Hz.
Qed.

Lemma box_inside_clear (W H C : Z) (xs ys : list Z) (c : cell) (sh : shape) :
  0 < C -> range_step W C = Ok xs -> range_step H C = Ok ys ->
  box_inside C c sh ->
  clear_of (map (fun x => mkLine GRID_LINE (x, 0) (x, H)) xs
            ++ map (fun y => mkLine GRID_LINE (0, y) (W, y)) ys) sh.
Proof.
  intros Hc Hxs Hys (H1 & H2 & H3 & H4) px py l [Hx Hy] Hin Hon.
  destruct (on_grid_line _ _ _ _ _ _ _ Hin Hon) as [Hpx|Hpy].
  - apply (range_step_in W C px xs Hc Hxs) in Hpx as [_ Hm].
    apply (off_line_mod C (fst c) px); [lia | exact Hm].
  - apply (range_step_in H C py ys Hc Hys) in Hpy as [_ Hm].
    apply (off_line_mod C (snd c) py); [lia | exact Hm].
Qed.

Lemma draw_segments_inside (CELL_SIZE : Z) (snake : list cell) :
  2 < CELL_SIZE ->
  forall i sh, In sh (draw_segments CELL_SIZE i snake) ->
               exists seg, box_inside CELL_SIZE seg sh.
Proof.
  intros Hc. induction snake as [|[x y] rest IH]; intros i sh; cbn [draw_segments];
    [intros []|].
  intros [<-|Hin]; [|exact (IH _ _ Hin)].
  exists (x, y). unfold box_inside.
  cbn [shape_box grid_rect left top width height fst snd]. lia.
Qed.


(** * The font size of the HUD *)

Lemma hud_scan_range (WINDOW_WIDTH : Z) (wl wm wsv wr : Z -> Z)
    (n : nat) (start chosen : Z) :
  let fits := hud_fits WINDOW_WIDTH wl wm wsv wr in
  let s := hud_scan WINDOW_WIDTH wl wm wsv wr
             (map (fun i => start - Z.of_nat i) (seq 0 n)) chosen in
  (fits s = true /\ start - Z.of_nat n < s <= start /\
   forall t, s < t <= start -> fits t = false) \/
  ((forall t, start - Z.of_nat n < t <= start -> fits t = false) /\
   s = match n with O => chosen | S _ => start - Z.of_nat n + 1 end).
Proof.
  intros fits. revert start chosen.
  induction n as [|n IH]; intros start chosen s.
  - right. split; [intros t Ht; simpl in Ht; lia | reflexivity].
  - subst s. change (seq 0 (S n)) with (0%nat :: seq 1 n). cbn [map].
    rewrite <- seq_shift, map_map. cbn [hud_scan].
    replace (start - Z.of_nat 0) with start by (simpl; lia).
    fold fits. destruct (fits start) eqn:Ef.
    + left. split; [exact Ef|]. split; [lia|]. intros t Ht. lia.
    + rewrite (map_ext (fun i => start - Z.of_nat (S i))
                       (fun i => (start - 1) - Z.of_nat i)) by (intros i; lia).
      destruct (IH (start - 1) start) as [(Hf & Hr & Hbig) | (Hall & Hs)].
      * left. split; [exact Hf|]. split; [lia|].
        intros t Ht. destruct (Z.eq_dec t start) as [-> | Hne]; [exact Ef|].
        apply Hbig. lia.
      * right. split.
        -- intros t Ht. destruct (Z.eq_dec t start) as [-> | Hne]; [exact Ef|].
           apply Hall. lia.
        -- rewrite Hs. destruct n; lia.
Qed.

(** X14. The HUD takes the largest font size that fits: when the minimum
    size is at most the base size, the loop of [draw_hud] ends with a size
    between the two; if the three slots fit at that size, with at least 10
    pixels between them, they fit at no larger size up to the base size;
    and if they do not fit at it, it is the minimum size and no size in the
    range fits. *)
Theorem X14_hud_font_size (WINDOW_WIDTH HUD_BASE_SIZE HUD_MIN_SIZE : Z)
    (wl wm wsv wr : Z -> Z) :
  HUD_MIN_SIZE <= HUD_BASE_SIZE ->
  let fits := hud_fits WINDOW_WIDTH wl wm wsv wr in
  let s := hud_font_size WINDOW_WIDTH HUD_BASE_SIZE HUD_MIN_SIZE wl wm wsv wr in
  HUD_MIN_SIZE <= s <= HUD_BASE_SIZE /\
  (fits s = true ->
   hud_left_end WINDOW_WIDTH wl s + 10 <= hud_mid_x WINDOW_WIDTH wm wsv s /\
   hud_mid_end WINDOW_WIDTH wm wsv s + 10 <= hud_right_x WINDOW_WIDTH wr s /\
   forall t, s < t <= HUD_BASE_SIZE -> fits t = false) /\
  (fits s = false ->
   s = HUD_MIN_SIZE /\
   forall t, HUD_MIN_SIZE <= t <= HUD_BASE_SIZE -> fits t = false).
Proof.
  intros Hle fits s.
  pose proof (hud_scan_range WINDOW_WIDTH wl wm wsv wr
                (Z.to_nat (HUD_BASE_SIZE - (HUD_MIN_SIZE - 1)))
                HUD_BASE_SIZE HUD_BASE_SIZE) as H.
  cbv zeta in H. fold fits in H.
  change (hud_scan WINDOW_WIDTH wl wm wsv wr _ HUD_BASE_SIZE) with s in H.
  rewrite Z2Nat.id in H by lia.
  destruct H as [(Hf & Hr & Hbig) | (Hall & Hs)].
  - split; [lia|]. split.
    + intros _. split; [|split; [|exact Hbig]].
      * unfold fits, hud_fits in Hf. apply andb_true_iff in Hf.
        destruct Hf as [Hf _]. rewrite Z.geb_leb in Hf. apply Z.leb_le in Hf.
        exact Hf.
      * unfold fits, hud_fits in Hf. apply andb_true_iff in Hf.
        destruct Hf as [_ Hf]. apply Z.leb_le in Hf. lia.
    + intros Hn. congruence.
  - assert (Es : s = HUD_MIN_SIZE).
    { rewrite Hs. destruct (Z.to_nat (HUD_BASE_SIZE - (HUD_MIN_SIZE - 1))) eqn:E; lia. }
    split; [lia|]. split.
    + intros Hf. rewrite (Hall s) in Hf by lia. discriminate.
    + intros _. split; [exact Es|]. intros t Ht. apply Hall. lia.
Qed.

(** * Text wrapping *)

(** ** Strings *)

Lemma append_nil_r (s : string) : (s ++ "")%string = s.
Proof. induction s as [|c s IH]; simpl; [reflexivity | now rewrite IH]. Qed.

Lemma append_assoc (a b c : string) :
  ((a ++ b) ++ c)%string = (a ++ b ++ c)%string.
Proof. induction a as [|x a IH]; simpl; [reflexivity | now rewrite IH]. Qed.

Lemma length_append (a b : string) :
  String.length (a ++ b) = (String.length a + String.length b)%nat.
Proof. induction a as [|x a IH]; simpl; [reflexivity | now rewrite IH]. Qed.

Lemma drop_last_snoc (x : string) (c : ascii) :
  drop_last (x ++ String c "") = x.
Proof.
  induction x as [|a x IH]; [reflexivity|].
  cbn [append drop_last]. rewrite IH.
  destruct x; reflexivity.
Qed.

Lemma snoc_drop_last (s : string) :
  s <> ""%string -> exists c, s = (drop_last s ++ String c "")%string.
Proof.
  induction s as [|a s IH]; [congruence|]. intros _.
  destruct s as [|b s].
  - exists a. reflexivity.
  - destruct IH as [c Hc]; [discriminate|].
    exists c. cbn [drop_last append]. cbn [drop_last] in Hc.
    now rewrite <- Hc.
Qed.

Lemma length_drop_last (s : string) :
  String.length (drop_last s) = pred (String.length s).
Proof.
  induction s as [|a s IH]; [reflexivity|].
  destruct s as [|b s]; [reflexivity|].
  cbn [drop_last String.length] in *. now rewrite IH.
Qed.

(** ** [split] and [join] *)

Lemma split_nonempty (sep : ascii) (s : string) : split sep s <> [].
Proof.
  destruct s as [|c s]; simpl; [discriminate|].
  destruct (Ascii.eqb c sep); [discriminate|].
  destruct (split sep s); discriminate.
Qed.

Lemma split_app (sep : ascii) (a b : string) :
  split sep (a ++ String sep b) = split sep a ++ split sep b.
Proof.
  induction a as [|c a IH].
  - cbn [append split]. now rewrite Ascii.eqb_refl.
  - cbn [append split]. rewrite IH.
    destruct (Ascii.eqb c sep); [reflexivity|].
    pose proof (split_nonempty sep a) as Hne.
    destruct (split sep a); [congruence | reflexivity].
Qed.

Lemma split_word (w : string) : no_space w = true -> split " " w = [w].
Proof.
  induction w as [|c w IH]; [reflexivity|].
  cbn [no_space split]. intros H. apply andb_prop in H as [Hc Hw].
  apply negb_true_iff in Hc. rewrite Hc, (IH Hw). reflexivity.
Qed.

Lemma split_no_space (s : string) :
  Forall (fun w => no_space w = true) (split " " s).
Proof.
  induction s as [|c s IH]; cbn [split].
  - repeat constructor.
  - destruct (Ascii.eqb c " ") eqn:E.
    + constructor; [reflexivity | exact IH].
    + destruct (split " " s) as [|w ws].
      * repeat constructor. cbn [no_space]. now rewrite E.
      * inversion IH; subst. constructor; [|assumption].
        cbn [no_space]. rewrite E. assumption.
Qed.

Lemma join_cons (l : string) (ls : list string) :
  ls <> [] -> join (l :: ls) = (l ++ " " ++ join ls)%string.
Proof. destruct ls; [congruence | reflexivity]. Qed.

Lemma join_app (l1 l2 : list string) :
  l1 <> [] -> l2 <> [] ->
  join (l1 ++ l2) = (join l1 ++ " " ++ join l2)%string.
Proof.
  intros H1 H2. induction l1 as [|a l1 IH]; [congruence|].
  destruct l1 as [|b l1].
  - cbn [app]. now rewrite join_cons.
  - change ((a :: b :: l1) ++ l2) with (a :: ((b :: l1) ++ l2)).
    rewrite join_cons by discriminate.
    rewrite IH by discriminate.
    rewrite (join_cons a (b :: l1)) by discriminate.
    now rewrite !append_assoc.
Qed.

Lemma join_split (s : string) : join (split " " s) = s.
Proof.
  induction s as [|c s IH]; [reflexivity|].
  cbn [split]. destruct (Ascii.eqb_spec c " ") as [->|Hc].
  - rewrite join_cons by apply split_nonempty. now rewrite IH.
  - pose proof (split_nonempty " " s) as Hne.
    destruct (split " " s) as [|w ws]; [congruence|].
    rewrite <- IH. destruct ws; reflexivity.
Qed.

Lemma split_join (lines : list string) :
  lines <> [] -> split " " (join lines) = flat_map (split " ") lines.
Proof.
  intros Hne. induction lines as [|l ls IH]; [congruence|].
  destruct ls as [|l' ls].
  - cbn [join String.concat flat_map]. now rewrite app_nil_r.
  - rewrite join_cons by discriminate.
    change (l ++ " " ++ join (l' :: ls))%string
      with (l ++ String " " (join (l' :: ls)))%string.
    rewrite split_app, IH by discriminate. reflexivity.
Qed.

Lemma hd_split_app (a b : string) :
  hd ""%string (split " " (a ++ String " " b)) = hd ""%string (split " " a).
Proof.
  rewrite split_app. pose proof (split_nonempty " " a).
  destruct (split " " a); [congruence | reflexivity].
Qed.

Section WrapFacts.

Variable font_size : string -> Z.
Variables max_width max_lines : Z.

Local Abbreviation line_fits := (line_fits font_size max_width).
Local Abbreviation breaks_forced := (breaks_forced font_size max_width).
Local Abbreviation wrap_words := (wrap_words font_size max_width max_lines).
Local Abbreviation shrink := (shrink font_size max_width).
Local Abbreviation wrap_text_to_width := (wrap_text_to_width font_size max_width max_lines).

Lemma breaks_forced_last (lines : list string) (c c' : string) :
  hd ""%string (split " " c') = hd ""%string (split " " c) ->
  breaks_forced (lines ++ [c]) -> breaks_forced (lines ++ [c']).
Proof.
  intros Hhd. induction lines as [|a lines IH]; [intros _; exact I|].
  destruct lines as [|b lines].
  - cbn [app breaks_forced]. rewrite Hhd. tauto.
  - change ((a :: b :: lines) ++ [c]) with (a :: b :: (lines ++ [c])).
    change ((a :: b :: lines) ++ [c']) with (a :: b :: (lines ++ [c'])).
    intros [H1 H2]. split; [exact H1 | exact (IH H2)].
Qed.

Lemma breaks_forced_snoc (lines : list string) (c w : string) :
  font_size (c ++ " " ++ hd ""%string (split " " w))%string > max_width ->
  breaks_forced (lines ++ [c]) -> breaks_forced ((lines ++ [c]) ++ [w]).
Proof.
  intros Hw. induction lines as [|a lines IH].
  - intros _. cbn [app breaks_forced]. tauto.
  - destruct lines as [|b lines].
    + cbn [app breaks_forced]. tauto.
    + change ((a :: b :: lines) ++ [c]) with (a :: b :: (lines ++ [c])).
      change ((a :: b :: lines ++ [c]) ++ [w])
        with (a :: b :: ((lines ++ [c]) ++ [w])).
      intros [H1 H2]. split; [exact H1 | exact (IH H2)].
Qed.

Lemma breaks_forced_removelast (lines : list string) (c : string) :
  breaks_forced (lines ++ [c]) -> breaks_forced lines.
Proof.
  induction lines as [|a lines IH]; [intros _; exact I|].
  destruct lines as [|b lines]; [intros _; exact I|].
  change ((a :: b :: lines) ++ [c]) with (a :: b :: (lines ++ [c])).
  intros [H1 H2]. split; [exact H1 | exact (IH H2)].
Qed.

(** What the loop over the words leaves behind: the words are those of the
    lines, of [current] and the words [rem] not looked at. *)
Lemma wrap_words_spec (ws : list string) :
  forall lines current lines' current',
    Forall (fun w => no_space w = true) ws ->
    wrap_words ws lines current = (lines', current') ->
    Forall line_fits lines -> line_fits current ->
    breaks_forced (lines ++ [current]) ->
    exists rem,
      flat_map (split " ") lines ++ split " " current ++ ws
      = flat_map (split " ") lines' ++ split " " current' ++ rem
      /\ Forall (fun w => no_space w = true) rem
      /\ Forall line_fits lines' /\ line_fits current'
      /\ breaks_forced (lines' ++ [current'])
      /\ (rem <> [] ->
          no_space current' = true
          /\ Z.of_nat (List.length lines') >= max_lines - 1
          /\ (List.length lines < List.length lines')%nat)
      /\ (List.length lines <= List.length lines')%nat
      /\ ((List.length lines < List.length lines')%nat ->
          Z.of_nat (List.length lines')
          <= Z.max (Z.of_nat (List.length lines) + 1) (max_lines - 1)).
Proof.
  induction ws as [|word ws IH]; intros lines current lines' current' Hws E Hl Hc Hf.
  - cbn [wrap_words] in E. inversion E; subst. exists [].
    repeat split; auto; try lia; congruence.
  - inversion Hws as [|? ? Hword Hws']; subst.
    cbn [wrap_words] in E.
    destruct (Z.leb_spec (font_size (current ++ " " ++ word)) max_width) as [Hfit|Hover].
    + apply IH in E; auto.
      * destruct E as (rem & E1 & E2). exists rem. split; [|exact E2].
        rewrite <- E1.
        change (current ++ " " ++ word)%string with (current ++ String " " word)%string.
        rewrite split_app, (split_word _ Hword), <- app_assoc. reflexivity.
      * left. exact Hfit.
      * apply (breaks_forced_last lines current); [|exact Hf].
        apply hd_split_app.
    + assert (Hf' : breaks_forced ((lines ++ [current]) ++ [word])).
      { apply breaks_forced_snoc; [|exact Hf].
        rewrite (split_word _ Hword). cbn [hd]. lia. }
      assert (Hl' : Forall line_fits (lines ++ [current])).
      { apply Forall_app. split; [exact Hl | constructor; [exact Hc | constructor]]. }
      assert (Hlen : List.length (lines ++ [current]) = S (List.length lines)).
      { rewrite length_app. cbn. lia. }
      destruct (Z.geb_spec (Z.of_nat (List.length (lines ++ [current]))) (max_lines - 1))
        as [Hge|Hlt].
      * inversion E; subst. exists ws.
        rewrite flat_map_app. cbn [flat_map]. rewrite app_nil_r, <- app_assoc.
        rewrite (split_word _ Hword).
        repeat split; auto; try lia.
        right. exact Hword.
      * apply IH in E; auto.
        -- destruct E as (rem & E1 & E2 & E3 & E4 & E5 & E6 & E7 & E8).
           exists rem. rewrite <- E1.
           rewrite flat_map_app. cbn [flat_map]. rewrite app_nil_r, <- app_assoc.
           rewrite (split_word _ Hword).
           repeat split; auto; try lia.
           ++ apply E6. assumption.
           ++ apply E6. assumption.
        -- right. exact Hword.
Qed.

(** The shortening loop ends, on the longest beginning of the line behind
    which the ellipsis fits, or on the empty string. *)
Lemma shrink_spec (turns : nat) :
  forall s, (String.length s <= turns)%nat ->
    (exists t, s = (shrink turns s ++ t)%string)
    /\ (font_size (shrink turns s ++ "...") <= max_width
        \/ shrink turns s = ""%string)
    /\ (forall q t, s = (q ++ t)%string ->
          (String.length (shrink turns s) < String.length q)%nat ->
          font_size (q ++ "...") > max_width).
Proof.
  induction turns as [|turns IH]; intros s Hlen.
  - destruct s; [|cbn in Hlen; lia]. cbn [shrink].
    split; [exists ""%string; reflexivity|]. split; [right; reflexivity|].
    intros q t Hq Hlt. destruct q; [cbn in Hlt; lia | discriminate].
  - cbn [shrink].
    destruct (Z.gtb_spec (font_size (s ++ "...")) max_width) as [Hover|Hfit];
      [destruct (String.eqb_spec s "") as [He|Hne]|]; cbn [andb negb].
    + subst s. split; [exists ""%string; reflexivity|]. split; [right; reflexivity|].
      intros q t Hq Hlt. destruct q; [cbn in Hlt; lia | discriminate].
    + destruct (snoc_drop_last s Hne) as [c Hc].
      assert (Hd : (String.length (drop_last s) <= turns)%nat).
      { rewrite length_drop_last. lia. }
      destruct (IH _ Hd) as ((t & Ht) & Hstop & Hmax).
      split; [|split; [exact Hstop|]].
      * exists (t ++ String c "")%string.
        rewrite <- append_assoc, <- Ht. exact Hc.
      * intros q t' Hq Hlt.
        destruct (string_dec t' "") as [->|Hne'].
        -- rewrite append_nil_r in Hq. subst q. lia.
        -- destruct (snoc_drop_last t' Hne') as [c' Hc'].
           apply (Hmax q (drop_last t')); [|exact Hlt].
           rewrite Hq, Hc', <- append_assoc at 1.
           apply drop_last_snoc.
    + split; [exists ""%string; now rewrite append_nil_r|].
      split; [left; lia|].
      intros q t Hq Hlt. rewrite Hq, length_append in Hlt. lia.
Qed.

(** The whole function in terms of the lines [lines ++ [w]] that the loop
    made and the words [rem] it did not look at. *)
Lemma wrap_text_spec (text : string) :
  exists lines w rem,
    text = join (lines ++ w :: rem)
    /\ Forall (fun x => no_space x = true) rem
    /\ Forall line_fits (lines ++ [w])
    /\ breaks_forced (lines ++ [w])
    /\ (rem <> [] ->
        no_space w = true /\ Z.of_nat (List.length lines) >= max_lines - 1
        /\ lines <> [])
    /\ (lines <> [] -> Z.of_nat (List.length lines) <= Z.max 1 (max_lines - 1))
    /\ wrap_text_to_width text
       = slice_to
           (if negb (is_nil rem)
               && (Z.of_nat (List.length (lines ++ [w])) =? max_lines)
            then lines ++ [(rstrip (shrink (String.length w) w) ++ "...")%string]
            else lines ++ [w])
           max_lines.
Proof.
  unfold wrap_text_to_width.
  pose proof (split_no_space text) as Hns.
  pose proof (join_split text) as Hjs.
  destruct (split " " text) as [|w0 rest] eqn:Es;
    [exfalso; exact (split_nonempty _ _ Es)|].
  apply Forall_cons_iff in Hns as [Hw0 Hrest].
  destruct (wrap_words rest [] w0) as [lines current] eqn:Ew.
  apply wrap_words_spec in Ew; [|exact Hrest|constructor|right; exact Hw0|exact I].
  destruct Ew as (rem & E1 & E2 & E3 & E4 & E5 & E6 & E7 & E8).
  cbn [flat_map app] in E1. rewrite (split_word _ Hw0) in E1. cbn [app] in E1.
  assert (Hsj : split " " (join (lines ++ [current]))
                = flat_map (split " ") lines ++ split " " current).
  { rewrite split_join by (destruct lines; discriminate).
    rewrite flat_map_app. cbn [flat_map]. now rewrite app_nil_r. }
  exists lines, current, rem.
  split; [|split; [exact E2|split; [|split; [exact E5|split; [|split]]]]].
  - rewrite <- Hjs, E1, app_assoc, <- Hsj.
    destruct rem as [|x rem].
    + rewrite app_nil_r. apply join_split.
    + rewrite join_app by (try apply split_nonempty; discriminate).
      rewrite join_split.
      change (lines ++ current :: x :: rem) with (lines ++ [current] ++ x :: rem).
      rewrite app_assoc.
      rewrite (join_app (lines ++ [current])); [reflexivity| |discriminate].
      destruct lines; discriminate.
  - apply Forall_app. split; [exact E3 | constructor; [exact E4 | constructor]].
  - intros Hrem. destruct (E6 Hrem) as (H1 & H2 & H3).
    repeat split; auto. destruct lines; [cbn in H3; lia | discriminate].
  - intros Hne. cbn [List.length] in E8.
    apply E8. destruct lines; [congruence | cbn; lia].
  - rewrite Hsj, E1, app_assoc.
    rewrite skipn_app, skipn_all, Nat.sub_diag. cbn [skipn app].
    rewrite last_last, removelast_last. reflexivity.
Qed.

(** X17 ([wrap_text_to_width], lines 304-331).  With room for at least two
    lines nothing is lost silently: either the lines joined by single
    spaces are the text again, or the result has exactly [max_lines] lines
    and its last line is the single word [w] that follows the lines before
    it, cut to its longest beginning [p] behind which the ellipsis fits
    (or to nothing), stripped on the right and followed by the ellipsis;
    the words after [w] are dropped. *)
Theorem X17_wrap_keeps_text (text : string) :
  2 <= max_lines ->
  join (wrap_text_to_width text) = text
  \/ exists lines w rem p t,
       wrap_text_to_width text = lines ++ [(rstrip p ++ "...")%string]
       /\ Z.of_nat (List.length (wrap_text_to_width text)) = max_lines
       /\ text = join (lines ++ w :: rem)
       /\ rem <> [] /\ no_space w = true
       /\ w = (p ++ t)%string
       /\ (font_size (p ++ "...") <= max_width \/ p = ""%string)
       /\ (forall q t', w = (q ++ t')%string ->
             (String.length p < String.length q)%nat ->
             font_size (q ++ "...") > max_width).
Proof.
  intros Hml.
  destruct (wrap_text_spec text) as (lines & w & rem & Ht & _ & _ & _ & Hrem & Hlen & ->).
  assert (Hlw : List.length (lines ++ [w]) = S (List.length lines))
    by (rewrite length_app; cbn; lia).
  destruct rem as [|x rem].
  - left. cbn [is_nil negb andb]. unfold slice_to.
    destruct (Z.ltb_spec max_lines 0) as [?|_]; [lia|].
    rewrite firstn_all2; [now rewrite Ht|].
    rewrite Hlw. destruct lines as [|l lines]; [cbn; lia|].
    specialize (Hlen ltac:(discriminate)). lia.
  - right. destruct Hrem as (Hw & Hge & Hne); [discriminate|].
    specialize (Hlen Hne).
    assert (Hn : Z.of_nat (List.length (lines ++ [w])) = max_lines) by lia.
    cbn [is_nil negb andb]. rewrite Hn, Z.eqb_refl.
    destruct (shrink_spec (String.length w) w (Nat.le_refl _)) as ((t & Hp) & Hstop & Hmax).
    assert (Hsl : forall l : list string,
               Z.of_nat (List.length l) = max_lines -> slice_to l max_lines = l).
    { intros l Hl. unfold slice_to.
      destruct (Z.ltb_spec max_lines 0) as [?|_]; [lia|].
      apply firstn_all2. lia. }
    assert (Hn' : Z.of_nat (List.length
                    (lines ++ [(rstrip (shrink (String.length w) w) ++ "...")%string]))
                  = max_lines).
    { rewrite length_app in *. cbn [List.length] in *. lia. }
    rewrite (Hsl _ Hn').
    exists lines, w, (x :: rem), (shrink (String.length w) w), t.
    repeat split; auto. discriminate.
Qed.

(** X18 ([wrap_text_to_width], lines 304-331).  The layout is greedy: for
    [max_lines >= 1] the result has between one and [max_lines] lines, and
    up to its last line, which may have been cut, it consists of lines
    [ls] that spell a beginning of the text, each of which fits the width
    or is a single word, and whose every break is forced (the first word
    of a line did not fit at the end of the line before). *)
Theorem X18_wrap_greedy (text : string) :
  1 <= max_lines ->
  1 <= Z.of_nat (List.length (wrap_text_to_width text)) <= max_lines
  /\ exists last_line rem,
       let ls := removelast (wrap_text_to_width text) ++ [last_line] in
       text = join (ls ++ rem)
       /\ Forall line_fits ls
       /\ breaks_forced ls.
Proof.
  intros Hml.
  destruct (wrap_text_spec text) as (lines & w & rem & Ht & _ & Hfit & Hforced & Hrem & Hlen & ->).
  assert (Hlw : forall x, List.length (lines ++ [x]) = S (List.length lines))
    by (intros; rewrite length_app; cbn; lia).
  unfold slice_to. destruct (Z.ltb_spec max_lines 0) as [?|_]; [lia|].
  destruct (Z.le_gt_cases (Z.of_nat (S (List.length lines))) max_lines) as [Hle|Hgt].
  - (* nothing is sliced off *)
    assert (Hcut : forall x, firstn (Z.to_nat max_lines) (lines ++ [x]) = lines ++ [x]).
    { intros x. apply firstn_all2. rewrite Hlw. lia. }
    destruct (negb (is_nil rem) && _); rewrite Hcut, Hlw.
    + split; [lia|]. exists w, rem. cbn zeta. rewrite removelast_last.
      repeat split; auto. now rewrite <- app_assoc.
    + split; [lia|]. exists w, rem. cbn zeta. rewrite removelast_last.
      repeat split; auto. now rewrite <- app_assoc.
  - (* only with [max_lines = 1] and two lines *)
    destruct lines as [|l lines]; [cbn in Hgt; lia|].
    specialize (Hlen ltac:(discriminate)).
    assert (max_lines = 1) by (cbn [List.length] in *; lia). subst max_lines.
    destruct lines as [|l' lines]; [|cbn [List.length] in Hlen; lia].
    replace (Z.of_nat (List.length ([l] ++ [w])) =? 1) with false by reflexivity.
    rewrite andb_false_r. change (Z.to_nat 1) with 1%nat.
    cbn [app firstn removelast List.length].
    split; [lia|]. exists l, (w :: rem).
    repeat split.
    + exact Ht.
    + inversion Hfit; subst. constructor; [assumption | constructor].
Qed.

(** X19 ([wrap_text_to_width], lines 304-331).  With [max_lines = 1] the
    text is cut without a mark: the result is one line, the words taken
    up to the first one that does not fit, never followed by an ellipsis,
    whether words are left over or not. *)
Theorem X19_wrap_one_line (text : string) :
  max_lines = 1 ->
  exists l rest,
    wrap_text_to_width text = [l]
    /\ text = join (l :: rest)
    /\ line_fits l
    /\ Forall (fun w => no_space w = true) rest
    /\ (forall w rest', rest = w :: rest' ->
          font_size (l ++ " " ++ w) > max_width).
Proof.
  intros Hml.
  destruct (wrap_text_spec text) as (lines & w & rem & Ht & Hns & Hfit & Hforced & Hrem & Hlen & ->).
  rewrite Hml in *. unfold slice_to.
  change (1 <? 0) with false. change (Z.to_nat 1) with 1%nat. cbn iota.
  destruct lines as [|l lines].
  - assert (rem = []) as ->.
    { destruct rem; [reflexivity|].
      destruct Hrem as (_ & _ & H); [discriminate | congruence]. }
    cbn. exists w, []. repeat split; auto.
    + inversion Hfit; assumption.
    + intros; discriminate.
  - specialize (Hlen ltac:(discriminate)).
    destruct lines as [|l' lines]; [|cbn [List.length] in Hlen; lia].
    replace (Z.of_nat (List.length ([l] ++ [w])) =? 1) with false by reflexivity.
    rewrite andb_false_r. cbn [app firstn].
    exists l, (split " " w ++ rem).
    pose proof (split_nonempty " " w) as Hne.
    repeat split.
    + assert (Hj : join (w :: rem) = join (split " " w ++ rem)).
      { destruct rem as [|x rem].
        - rewrite app_nil_r. symmetry. apply join_split.
        - rewrite join_app, join_split by (assumption || discriminate).
          now rewrite join_cons by discriminate. }
      rewrite Ht. cbn [app].
      rewrite (join_cons l (w :: rem)) by discriminate.
      rewrite (join_cons l (split " " w ++ rem)).
      * now rewrite Hj.
      * destruct (split " " w); [congruence | discriminate].
    + inversion Hfit; assumption.
    + apply Forall_app. split; [apply split_no_space | exact Hns].
    + intros x rest' Hx. destruct Hforced as [Hf _].
      destruct (split " " w) as [|y ys]; [congruence|].
      cbn [hd] in Hf. cbn [app] in Hx. inversion Hx; subst. exact Hf.
Qed.

End WrapFacts.

(** * The properties on the program as shipped *)

Import Shipped.

Lemma grid_dimensions : GRID_WIDTH = 30 /\ GRID_HEIGHT = 20.
Proof. split; reflexivity. Qed.

Lemma first_round_start :
  new_round GRID_WIDTH GRID_HEIGHT START_LENGTH 1 still_rng 0 0 START_LENGTH
  = Some (Ok (first_round, still_rng)).
Proof. reflexivity. Qed.

(** ** C9 and C7: the initial snake and the run to the right wall *)

(** C9 at the shipped constants: length 5 fits, length 31 does not. *)
Lemma C9_initial_placement_shipped :
  create_initial_snake GRID_WIDTH GRID_HEIGHT 31 = Raise ValueError /\
  exists s,
    create_initial_snake GRID_WIDTH GRID_HEIGHT 5 = Ok s /\
    Z.of_nat (List.length s) = 5 /\
    hd_error s = Some (16, 10) /\
    last s (0, 0) = (12, 10) /\
    forall i, (i < List.length s)%nat -> nth_error s i = Some (16 - Z.of_nat i, 10).
Proof.
  split.
  - apply (proj1 (C9_initial_placement GRID_WIDTH GRID_HEIGHT 31)).
    right. reflexivity.
  - apply (proj2 (C9_initial_placement GRID_WIDTH GRID_HEIGHT 5)).
    intros [H | H]; discriminate H.
Defined.

(** C7, the scenario as the specification has it, fails on the code: the
    initial snake is not [(17,10) .. (13,10)]; from the snake the code builds, twelve
    steps to the right leave the head at [(28,10)], and the thirteenth step
    moves it to [(29,10)] without ending the round. *)
Lemma C7_counterexample :
  create_initial_snake GRID_WIDTH GRID_HEIGHT START_LENGTH
    <> Ok [(17, 10); (16, 10); (15, 10); (14, 10); (13, 10)] /\
  create_initial_snake GRID_WIDTH GRID_HEIGHT START_LENGTH
    = Ok [(16, 10); (15, 10); (14, 10); (13, 10); (12, 10)] /\
  exists v12 v13,
    run_frames GRID_WIDTH GRID_HEIGHT 1 still_rng
      ((0, [KEYDOWN K_RIGHT]) :: repeat (0, []) 11) first_round
      = Some (NextFrame v12 still_rng) /\
    hd_error (snake v12) = Some (28, 10) /\
    frame GRID_WIDTH GRID_HEIGHT 1 still_rng 0 [] v12
      = Some (NextFrame v13 still_rng) /\
    hd_error (snake v13) = Some (29, 10) /\
    game_over_reason v13 = "none"%string.
Proof.
  split; [discriminate|].
  split; [reflexivity|].
  eexists. eexists.
  split; [vm_compute; reflexivity|].
  split; [reflexivity|].
  split; [vm_compute; reflexivity|].
  split; reflexivity.
Qed.

(** C7 (as the code has it).  On the 30x20 grid with start length 5 a round
    begins with the snake on [(16,10) .. (12,10)]; when no food lies on the
    cells [(17,10) .. (29,10)], pressing "right" and running thirteen frames
    leaves the head at [(29,10)], and the fourteenth step, to [(30,10)], ends
    the round with reason "wall". *)
Theorem C7_straight_run (fuel fuel' : nat) (r r' : rng)
    (now_ms bscore bsize : Z) (v : state) (t1 : Z) (ts : list Z) (t14 : Z) :
  new_round GRID_WIDTH GRID_HEIGHT START_LENGTH fuel r now_ms bscore bsize
    = Some (Ok (v, r')) ->
  (forall x, 17 <= x <= 29 -> food v <> (x, 10)) ->
  List.length ts = 12%nat ->
  snake v = [(16, 10); (15, 10); (14, 10); (13, 10); (12, 10)] /\
  exists v13,
    run_frames GRID_WIDTH GRID_HEIGHT fuel' r'
      ((t1, [KEYDOWN K_RIGHT]) :: map (fun t => (t, [])) ts) v
      = Some (NextFrame v13 r') /\
    snake v13 = [(29, 10); (28, 10); (27, 10); (26, 10); (25, 10)] /\
    exists v14,
      frame GRID_WIDTH GRID_HEIGHT fuel' r' t14 [] v13
        = Some (RoundOver v14 r') /\
      game_over_reason v14 = "wall"%string /\
      snake v14 = snake v13.
Proof.
  intros Hn Hfood Hlen.
  destruct (new_round_fields _ _ _ _ _ _ _ _ _ _ Hn)
    as (Hs & _ & _ & _ & _ & Hd & _ & Hp & Hr).
  assert (Hsnake : snake v = row 16 10 5).
  { change (create_initial_snake GRID_WIDTH GRID_HEIGHT START_LENGTH)
      with (@Ok (list cell) (row 16 10 5)) in Hs.
    injection Hs as <-. reflexivity. }
  split; [exact Hsnake|].
  destruct (frame_right_first GRID_WIDTH GRID_HEIGHT fuel' r' t1 16 10 4 v
              Hsnake Hd Hr Hp eq_refl) as (v1 & Hf1 & Hc1 & Hfood1).
  { apply Hfood. lia. }
  destruct (run_frames_right GRID_WIDTH GRID_HEIGHT fuel' r' 10 4 ts (16 + 1) v1 Hc1)
    as (v13 & Hrun & Hc13 & Hfood13).
  { intros i Hi. rewrite Hlen in Hi. split.
    - apply in_bounds_iff. cbn [fst snd].
      rewrite (proj1 grid_dimensions), (proj2 grid_dimensions). lia.
    - rewrite Hfood1. apply Hfood. lia. }
  rewrite Hlen in Hc13. simpl in Hc13.
  exists v13. split; [|split].
  - cbn [run_frames]. rewrite Hf1. exact Hrun.
  - apply (cr_snake _ _ _ _ Hc13).
  - destruct (frame_right GRID_WIDTH GRID_HEIGHT fuel' r' t14 29 10 4 v13 Hc13)
      as [_ Hstop].
    apply Hstop. reflexivity.
Qed.

(** C7 run with the still random source, whose food lies at [(0,0)]. *)
Lemma C7_straight_run_still :
  snake first_round = [(16, 10); (15, 10); (14, 10); (13, 10); (12, 10)] /\
  exists v13,
    run_frames GRID_WIDTH GRID_HEIGHT 1 still_rng
      ((0, [KEYDOWN K_RIGHT]) :: map (fun t => (t, [])) (repeat 0 12)) first_round
      = Some (NextFrame v13 still_rng) /\
    snake v13 = [(29, 10); (28, 10); (27, 10); (26, 10); (25, 10)] /\
    exists v14,
      frame GRID_WIDTH GRID_HEIGHT 1 still_rng 0 [] v13
        = Some (RoundOver v14 still_rng) /\
      game_over_reason v14 = "wall"%string /\
      snake v14 = snake v13.
Proof.
  apply (C7_straight_run 1 1 still_rng still_rng 0 0 START_LENGTH first_round
           0 (repeat 0 12) 0 first_round_start).
  - intros x Hx. simpl. intros H. injection H as H _. lia.
  - reflexivity.
Defined.

(** ** C8: a covered grid *)

Lemma full_grid_snake_full : grid_full GRID_WIDTH GRID_HEIGHT full_grid_snake.
Proof. apply grid_fullb_sound. vm_compute. reflexivity. Qed.

Lemma full_grid_snake_shape :
  List.length full_grid_snake = 600%nat /\
  NoDup full_grid_snake /\ chain full_grid_snake /\
  forall c, In c full_grid_snake -> in_bounds GRID_WIDTH GRID_HEIGHT c = true.
Proof.
  split; [reflexivity|]. split; [|split].
  - apply distinctb_sound. vm_compute. reflexivity.
  - apply chainb_sound. vm_compute. reflexivity.
  - assert (H : forallb (in_bounds GRID_WIDTH GRID_HEIGHT) full_grid_snake = true)
      by (vm_compute; reflexivity).
    rewrite forallb_forall in H. exact H.
Qed.

(** C8, as the specification has it, fails on the code: for the snake that winds
    through all 600 cells of the shipped grid, food placement returns
    nothing, neither a cell nor an error, for any number of iterations and
    any random stream. *)
Lemma C8_counterexample :
  grid_full GRID_WIDTH GRID_HEIGHT full_grid_snake /\
  List.length full_grid_snake = 600%nat /\
  NoDup full_grid_snake /\ chain full_grid_snake /\
  ~ exists fuel r o,
      random_food_position GRID_WIDTH GRID_HEIGHT fuel r full_grid_snake = Some o.
Proof.
  split; [exact full_grid_snake_full|].
  destruct full_grid_snake_shape as (Hlen & Hnd & Hch & _).
  split; [exact Hlen|]. split; [exact Hnd|]. split; [exact Hch|].
  intros (fuel & r & o & H).
  rewrite (random_food_position_full GRID_WIDTH GRID_HEIGHT fuel r full_grid_snake)
    in H; [discriminate | reflexivity | reflexivity | exact full_grid_snake_full].
Qed.

(** C8 on the shipped grid: nothing comes back for the covered grid, and the
    start snake gets its food from the first draw of the still source. *)
Lemma C8_food_placement_shipped :
  (forall fuel r,
     random_food_position GRID_WIDTH GRID_HEIGHT fuel r full_grid_snake = None) /\
  (exists p r',
     random_food_position GRID_WIDTH GRID_HEIGHT 1 still_rng (snake first_round)
     = Some (Ok (p, r'))).
Proof.
  split.
  - exact (proj1 (C8_food_placement GRID_WIDTH GRID_HEIGHT full_grid_snake
                    eq_refl eq_refl) full_grid_snake_full).
  - apply (proj1 (proj2 (proj2 (C8_food_placement GRID_WIDTH GRID_HEIGHT
                                  (snake first_round) eq_refl eq_refl)))
             still_rng 0%nat 1%nat).
    + apply mem_not_In. reflexivity.
    + apply le_n.
Defined.

(** ** C3: the last bite *)

Lemma last_bite_round_inv : round_inv GRID_WIDTH GRID_HEIGHT last_bite_round.
Proof.
  constructor; cbn [snake food direction next_direction last_bite_round].
  - discriminate.
  - apply distinctb_sound. vm_compute. reflexivity.
  - apply chainb_sound. vm_compute. reflexivity.
  - apply mem_not_In. vm_compute. reflexivity.
  - assert (H : forallb (in_bounds GRID_WIDTH GRID_HEIGHT) (tl full_grid_snake) = true)
      by (vm_compute; reflexivity).
    rewrite forallb_forall in H. exact H.
  - reflexivity.
  - right. right. left. reflexivity.
  - right. right. left. reflexivity.
Qed.

(** C3, as the specification has it, fails on the code: in [last_bite_round] the
    step to the left has the food cell as its new head and hits nothing,
    but it never completes, for no number of iterations and no random
    stream, so no food is placed. *)
Lemma C3_counterexample :
  round_inv GRID_WIDTH GRID_HEIGHT last_bite_round /\
  hd_error (snake last_bite_round) = Some (1, 0) /\
  food last_bite_round = (1 + -1, 0 + 0) /\
  hit_wall GRID_WIDTH GRID_HEIGHT (1 + -1, 0 + 0) = false /\
  mem (1 + -1, 0 + 0) (snake last_bite_round) = false /\
  ~ exists fuel r o,
      tick GRID_WIDTH GRID_HEIGHT fuel r (-1, 0) last_bite_round = Some o.
Proof.
  split; [exact last_bite_round_inv|].
  split; [reflexivity|]. split; [reflexivity|]. split; [reflexivity|].
  split; [vm_compute; reflexivity|].
  intros (fuel & r & o & H).
  assert (Hs : snake last_bite_round = (1, 0) :: tl (tl full_grid_snake))
    by (vm_compute; reflexivity).
  rewrite (tick_grow GRID_WIDTH GRID_HEIGHT fuel r (-1, 0) last_bite_round
             1 0 _ Hs) in H.
  - rewrite (random_food_position_full GRID_WIDTH GRID_HEIGHT fuel r) in H.
    + discriminate.
    + reflexivity.
    + reflexivity.
    + exact full_grid_snake_full.
  - reflexivity.
  - reflexivity.
  - vm_compute. reflexivity.
Qed.

(** ** Concrete rounds *)

Lemma fed_round_start :
  new_round GRID_WIDTH GRID_HEIGHT START_LENGTH 1 fed_rng 0 0 START_LENGTH
  = Some (Ok (fed_round, still_rng)).
Proof. reflexivity. Qed.

Lemma grown_round_frame :
  frame GRID_WIDTH GRID_HEIGHT 1 still_rng 100 [KEYDOWN K_RIGHT] fed_round
  = Some (NextFrame grown_round still_rng).
Proof. reflexivity. Qed.

Lemma paused_round_frame :
  frame GRID_WIDTH GRID_HEIGHT 1 still_rng 50 [KEYDOWN K_p] first_round
  = Some (NextFrame paused_round still_rng).
Proof. reflexivity. Qed.

Lemma grown_round_reachable :
  reachable GRID_WIDTH GRID_HEIGHT START_LENGTH (Playing grown_round still_rng).
Proof.
  eapply reach_step.
  - apply reach_start. eapply start_ok. exact fed_round_start.
  - eapply step_next. exact grown_round_frame.
Qed.

Lemma paused_round_reachable :
  reachable GRID_WIDTH GRID_HEIGHT START_LENGTH (Playing paused_round still_rng).
Proof.
  eapply reach_step.
  - apply reach_start. eapply start_ok. exact first_round_start.
  - eapply step_next. exact paused_round_frame.
Qed.

(** ** The properties at concrete rounds *)

(** C1 after the first food is eaten. *)
Lemma C1_round_invariant_grown :
  NoDup (snake grown_round) /\ chain (snake grown_round) /\
  ~ In (food grown_round) (snake grown_round).
Proof.
  exact (C1_round_invariant GRID_WIDTH GRID_HEIGHT START_LENGTH
           (Playing grown_round still_rng) grown_round
           grown_round_reachable eq_refl).
Defined.

(** C2 on the 2x2 loop: the head moves left into the tail cell [(0,0)]. *)
Lemma C2_tail_follow_loop :
  exists v',
    tick GRID_WIDTH GRID_HEIGHT 0 still_rng (-1, 0) loop_round
      = Some (NextFrame v' still_rng) /\
    snake v' = [(0, 0); (1, 0); (1, 1); (0, 1)] /\
    List.length (snake v') = 4%nat /\
    score v' = 0 /\ food v' = (5, 5) /\ game_over_reason v' = "none"%string.
Proof.
  apply (proj1 (C2_tail_follow GRID_WIDTH GRID_HEIGHT 0 still_rng (-1, 0)
                  loop_round 1 0 [(1, 1); (0, 1); (0, 0)] eq_refl eq_refl)).
  - simpl. apply le_S, le_S, le_n.
  - apply distinctb_sound. reflexivity.
  - reflexivity.
  - discriminate.
Defined.

(** C3 on [fed_round]: the food at [(17,10)] is eaten, the next one is the
    first draw of the still source. *)
Lemma C3_growth_fed :
  exists v' r',
    tick GRID_WIDTH GRID_HEIGHT 1 still_rng (1, 0) fed_round
      = Some (NextFrame v' r') /\
    snake v' = (17, 10) :: snake fed_round /\
    List.length (snake v') = 6%nat /\
    score v' = 1 /\
    in_bounds GRID_WIDTH GRID_HEIGHT (food v') = true /\
    ~ In (food v') (snake v').
Proof.
  assert (Hoff : ~ In (16 + 1, 10 + 0) (snake fed_round))
    by (apply mem_not_In; reflexivity).
  apply (proj1 (C3_growth GRID_WIDTH GRID_HEIGHT still_rng (1, 0) fed_round
                  16 10 [(15, 10); (14, 10); (13, 10); (12, 10)]
                  eq_refl eq_refl eq_refl Hoff) 0%nat 1%nat).
  - apply mem_not_In. reflexivity.
  - apply le_n.
Defined.

(** C4 at the right wall and on the coiled snake. *)
Lemma C4_collision_shipped :
  (exists v',
     tick GRID_WIDTH GRID_HEIGHT 0 still_rng (1, 0) edge_round
       = Some (RoundOver v' still_rng) /\
     v' = set_running false (set_game_over_reason "wall" edge_round) /\
     game_over_reason v' = "wall"%string /\ running v' = false /\
     snake v' = snake edge_round /\ score v' = 0 /\ food v' = (0, 0)) /\
  (exists v',
     tick GRID_WIDTH GRID_HEIGHT 0 still_rng (-1, 0) coiled_round
       = Some (RoundOver v' still_rng) /\
     v' = set_running false (set_game_over_reason "self" coiled_round) /\
     game_over_reason v' = "self"%string /\ running v' = false /\
     snake v' = snake coiled_round /\ score v' = 1 /\ food v' = (0, 0)).
Proof.
  split.
  - apply (proj1 (C4_collision GRID_WIDTH GRID_HEIGHT 0 still_rng (1, 0)
                    edge_round 29 10 _ eq_refl)).
    right. left. discriminate.
  - apply (proj2 (C4_collision GRID_WIDTH GRID_HEIGHT 0 still_rng (-1, 0)
                    coiled_round 5 5 _ eq_refl)).
    + repeat split; discriminate.
    + discriminate.
    + apply mem_In. reflexivity.
Defined.





(** X1 after the first food is eaten. *)
Lemma X1_state_invariant_grown :
  snake grown_round <> [] /\
  (forall c, In c (snake grown_round) -> in_bounds GRID_WIDTH GRID_HEIGHT c = true) /\
  in_bounds GRID_WIDTH GRID_HEIGHT (food grown_round) = true /\
  direction_ok (direction grown_round) /\
  direction_ok (next_direction grown_round) /\
  Z.of_nat (List.length (snake grown_round)) = START_LENGTH + score grown_round /\
  0 <= score grown_round <= best_score grown_round /\
  Z.of_nat (List.length (snake grown_round)) <= best_size grown_round.
Proof.
  exact (X1_state_invariant GRID_WIDTH GRID_HEIGHT START_LENGTH
           (Playing grown_round still_rng) grown_round
           grown_round_reachable eq_refl).
Defined.

(** X2 in the first round: closing the window raises [SystemExit]. *)
Lemma X2_only_exit_first :
  frame GRID_WIDTH GRID_HEIGHT 1 still_rng 10 [QUIT] first_round
    = Some (Raised SystemExit) /\
  SystemExit = SystemExit /\
  (In QUIT [QUIT] \/ In (KEYDOWN K_ESCAPE) [QUIT]).
Proof.
  split; [reflexivity|].
  apply (X2_only_exit GRID_WIDTH GRID_HEIGHT START_LENGTH 1 still_rng still_rng
           10 [QUIT] first_round SystemExit).
  - apply reach_start. eapply start_ok. exact first_round_start.
  - reflexivity.
Defined.

(** ** Further properties at concrete rounds *)

Lemma turned_round_frame :
  frame GRID_WIDTH GRID_HEIGHT 1 still_rng 150 [KEYDOWN K_UP] grown_round
  = Some (NextFrame turned_round still_rng).
Proof. reflexivity. Qed.

Lemma first_round_reachable :
  reachable GRID_WIDTH GRID_HEIGHT START_LENGTH (Playing first_round still_rng).
Proof. apply reach_start. eapply start_ok. exact first_round_start. Qed.

(** X3 on the turn from "right" to "up". *)
Lemma X3_no_reversal_turned :
  exists d', direction turned_round = Some d' /\ unit_vector d' /\
             d' <> (- fst (1, 0), - snd (1, 0)).
Proof.
  exact (X3_no_reversal GRID_WIDTH GRID_HEIGHT START_LENGTH 1 still_rng still_rng
           150 [KEYDOWN K_UP] grown_round _ turned_round (1, 0)
           grown_round_reachable turned_round_frame eq_refl eq_refl).
Defined.

(** X4 on the first key press of the first round. *)
Lemma X4_first_move_safe_first :
  direction first_round = None /\
  forall v' r'',
    NextFrame
      (set_snake [(17, 10); (16, 10); (15, 10); (14, 10); (13, 10)]
         (set_direction (Some (1, 0))
            (set_next_direction (Some (1, 0)) (set_last_tick_ms 100 first_round))))
      still_rng
    <> RoundOver v' r''.
Proof.
  split; [reflexivity|].
  exact (X4_first_move_safe GRID_WIDTH GRID_HEIGHT START_LENGTH 1 still_rng still_rng
           100 [KEYDOWN K_RIGHT] first_round _
           first_round_reachable eq_refl eq_refl).
Defined.

(** X5 after the first food is eaten. *)
Lemma X5_round_phase_grown :
  running grown_round = true /\ game_over_reason grown_round = "none"%string /\
  restart_requested grown_round = false.
Proof.
  exact (X5_round_phase GRID_WIDTH GRID_HEIGHT START_LENGTH
           (Playing grown_round still_rng) grown_round_reachable).
Defined.

(** X6 after the first food is eaten: the level is 2, "Standard". *)
Lemma X6_levels_grown :
  (level grown_round = 1 \/ level grown_round = 2 \/ level grown_round = 3) /\
  (exists name speed,
     dict_get LEVELS (level grown_round) = Some (name, speed) /\
     (speed = 6 \/ speed = 10 \/ speed = 14)) /\
  (forall fuel r now_ms events o v',
     frame GRID_WIDTH GRID_HEIGHT fuel r now_ms events grown_round = Some o ->
     outcome_state o = Some v' ->
     level v' = last (level_keys events) (level grown_round)).
Proof.
  exact (X6_levels GRID_WIDTH GRID_HEIGHT START_LENGTH
           (Playing grown_round still_rng) grown_round
           grown_round_reachable eq_refl).
Defined.

Lemma turned_round_reachable :
  reachable GRID_WIDTH GRID_HEIGHT START_LENGTH (Playing turned_round still_rng).
Proof.
  eapply reach_step; [exact grown_round_reachable|].
  eapply step_next. exact turned_round_frame.
Qed.

(** X7 one frame after the first food is eaten. *)
Lemma X7_timers_turned :
  0 <= level_toast_remaining_ms turned_round <= 1000 /\
  0 <= size_anim_remaining_ms turned_round <= 400 /\
  forall e, In e (food_pop_effects turned_round) ->
    duration_ms e = 250 /\ 0 < remaining_ms e <= duration_ms e /\
    in_bounds GRID_WIDTH GRID_HEIGHT (pos e) = true.
Proof.
  exact (X7_timers GRID_WIDTH GRID_HEIGHT START_LENGTH
           (Playing turned_round still_rng) turned_round
           turned_round_reachable eq_refl).
Defined.

(** X8 on the timers of [grown_round]: 30 ms and then 40 ms, or 70 ms. *)
Lemma X8_timers_add_grown :
  update_timers 40 (update_timers 30 grown_round) = update_timers (30 + 40) grown_round.
Proof.
  apply (X8_timers_add 30 40 grown_round); discriminate.
Defined.

(** X9 after the first food is eaten. *)
Lemma X9_snake_fits_grown :
  START_LENGTH <= Z.of_nat (List.length (snake grown_round))
    <= GRID_WIDTH * GRID_HEIGHT /\
  0 <= score grown_round <= GRID_WIDTH * GRID_HEIGHT - START_LENGTH.
Proof.
  exact (X9_snake_fits GRID_WIDTH GRID_HEIGHT START_LENGTH
           (Playing grown_round still_rng) grown_round
           grown_round_reachable eq_refl).
Defined.

(** X10 on the food of the first round. *)
Lemma X10_first_free_draw_first :
  exists k, (k < 1)%nat /\ (0, 0) = draw GRID_WIDTH GRID_HEIGHT still_rng k /\
            ~ In (draw GRID_WIDTH GRID_HEIGHT still_rng k) (snake first_round) /\
            (forall j, (j < k)%nat ->
               In (draw GRID_WIDTH GRID_HEIGHT still_rng j) (snake first_round)) /\
            (forall n, still_rng n = still_rng (2 * S k + n)%nat).
Proof.
  exact (X10_first_free_draw GRID_WIDTH GRID_HEIGHT 1 still_rng (snake first_round)
           (0, 0) still_rng eq_refl).
Defined.



(** X14 with labels that grow with the font size. *)
Lemma X14_hud_font_size_shipped :
  18 <= hud_font_size WINDOW_WIDTH 22 18 narrow_label narrow_label
          narrow_label wide_label <= 22.
Proof.
  apply (X14_hud_font_size WINDOW_WIDTH 22 18 narrow_label narrow_label
           narrow_label wide_label).
  discriminate.
Defined.

(** X16 on the frame that eats the first food. *)
Lemma X16_one_step_fed :
  (snake grown_round = snake fed_round /\ food grown_round = food fed_round /\
   score grown_round = score fed_round) \/
  exists d hx hy body,
    direction grown_round = Some d /\ snake fed_round = (hx, hy) :: body /\
    ((snake grown_round = (hx + fst d, hy + snd d) :: removelast (snake fed_round) /\
      (hx + fst d, hy + snd d) <> food fed_round /\
      food grown_round = food fed_round /\ score grown_round = score fed_round) \/
     (snake grown_round = food fed_round :: snake fed_round /\
      food fed_round = (hx + fst d, hy + snd d) /\
      score grown_round = score fed_round + 1)).
Proof.
  exact (X16_one_step GRID_WIDTH GRID_HEIGHT 1 still_rng still_rng 100
           [KEYDOWN K_RIGHT] fed_round grown_round grown_round_frame).
Defined.

(** X17 on the text of the bottom bar, two lines of 200 pixels. *)
Lemma X17_wrap_keeps_text_controls :
  join (wrap_text_to_width fixed_pitch 200 2 controls_text) = controls_text
  \/ exists lines w rem p t,
       wrap_text_to_width fixed_pitch 200 2 controls_text
       = lines ++ [(rstrip p ++ "...")%string]
       /\ Z.of_nat (List.length (wrap_text_to_width fixed_pitch 200 2 controls_text)) = 2
       /\ controls_text = join (lines ++ w :: rem)
       /\ rem <> [] /\ no_space w = true
       /\ w = (p ++ t)%string
       /\ (fixed_pitch (p ++ "...") <= 200 \/ p = ""%string)
       /\ (forall q t', w = (q ++ t')%string ->
             (String.length p < String.length q)%nat ->
             fixed_pitch (q ++ "...") > 200).
Proof.
  apply (X17_wrap_keeps_text fixed_pitch 200 2 controls_text).
  discriminate.
Defined.

(** X18 on the same text: one or two lines. *)
Lemma X18_wrap_greedy_controls :
  1 <= Z.of_nat (List.length (wrap_text_to_width fixed_pitch 200 2 controls_text)) <= 2.
Proof.
  apply (X18_wrap_greedy fixed_pitch 200 2 controls_text).
  discriminate.
Defined.

(** X19 on the same text, one line of 200 pixels. *)
Lemma X19_wrap_one_line_controls :
  exists l rest,
    wrap_text_to_width fixed_pitch 200 1 controls_text = [l]
    /\ controls_text = join (l :: rest)
    /\ line_fits fixed_pitch 200 l
    /\ Forall (fun w => no_space w = true) rest
    /\ (forall w rest', rest = w :: rest' ->
          fixed_pitch (l ++ " " ++ w) > 200).
Proof.
  apply (X19_wrap_one_line fixed_pitch 200 1 controls_text).
  reflexivity.
Defined.

(** X20 on the first frame of a session: a press of R followed by QUIT
    exits. *)
Lemma X20_frame_precedence_first :
  frame GRID_WIDTH GRID_HEIGHT 1 still_rng 0 [KEYDOWN K_r; QUIT] first_round
  = Some (Raised SystemExit).
Proof.
  apply (X20_frame_precedence GRID_WIDTH GRID_HEIGHT START_LENGTH 1
           still_rng still_rng 0 [KEYDOWN K_r; QUIT] first_round
           first_round_reachable).
  reflexivity.
Defined.

